(** * quantum-tensors: the coordinate kernel ([src/helpers.ts]) and the
    complex scalar ([src/Complex.ts])

    The TypeScript sources work on JavaScript [number]s.  In the coordinate
    kernel every number is an integer (an index, a size, a coordinate).  The
    two index functions are given twice: on [Z], the integer reading, and in
    [Binary64] on Rocq's primitive binary64 floats, which is what the
    program runs on; the two agree as long as the values stay below 2^53
    (section "Binary64 on integers"), and the round trips are stated on the
    binary64 functions.  Arrays are [list]s where the code only reads them,
    and JavaScript array objects (a [length] and a property table, with
    holes) where the code writes by index.

    [Complex.ts] computes with arbitrary [number]s, that is IEEE 754 binary64
    values.  Its methods are written once over the operations they use
    ([JsNumber.Ops]) and read at two instances: Rocq's primitive binary64
    floats, which is what the program runs on, and the real numbers, which is
    the exact arithmetic the specification compares it with. *)

From Stdlib Require Import ZArith Lia Reals Lra Floats.
From Stdlib Require String Ascii HexadecimalString.
From stdpp Require Import base option list gmap sorting.

Local Open Scope Z_scope.

(** ** Failure conditions

    The sources throw [new Error(message)].  The model has one constructor
    per failure condition, named as the specification names it; each
    throwing site is mapped to the condition it signals. *)

Inductive Error : Type :=
  | LengthMismatch
  | OutOfBounds
  | NotAPermutation
  | DivisionByZero.

Inductive result (A : Type) : Type :=
  | Ok (a : A)
  | Throw (e : Error).

Arguments Ok {A} a.
Arguments Throw {A} e.

(** ** Index <-> coordinates ([coordsFromIndex], [coordsToIndex],
    [checkCoordsSizesCompability]) *)

(** The callback of [map] in [coordsFromIndex]; it reads and updates the
    captured variable [i], which is threaded here as an argument.
    [i % dimSize] takes the sign of the dividend ([Z.rem]) and
    [(i - coord) / dimSize] is an exact division ([Z.quot]) whenever
    [dimSize] is not zero.  (With [dimSize = 0] JavaScript yields [NaN];
    sizes are at least 1 in every statement below.)

    This is the integer reading of the code: what it computes on integers
    below [2^53], where binary64 arithmetic is exact
    ([coordsFromIndex_map_of_Z]).  The code on JavaScript's numbers
    themselves is [Binary64.coordsFromIndex_map] below. *)
Fixpoint coordsFromIndex_map (i : Z) (sizesRev : list Z) : list Z :=
  match sizesRev with
  | [] => []
  | dimSize :: rest =>
      let coord := Z.rem i dimSize in
      coord :: coordsFromIndex_map (Z.quot (i - coord) dimSize) rest
  end.

Definition coordsFromIndex (index : Z) (sizes : list Z) : list Z :=
  reverse (coordsFromIndex_map index (reverse sizes)).

(** The [forEach] of [coordsToIndex]: the state is [(factor, res)], [dim] is
    the position of [coord] in [coordsRev].  [sizesRev[dim]] is read with a
    total lookup: the length guard makes it always in range.

    This too is the integer reading, exact below [2^53]
    ([coordsToIndex_forEach_of_Z]); [Binary64.coordsToIndex_forEach] below
    is the code on JavaScript's numbers. *)
Fixpoint coordsToIndex_forEach (sizesRev : list Z) (dim : nat)
    (coordsRev : list Z) (factor res : Z) : Z :=
  match coordsRev with
  | [] => res
  | coord :: rest =>
      let res := res + factor * coord in
      let factor := factor * (sizesRev !!! dim) in
      coordsToIndex_forEach sizesRev (S dim) rest factor res
  end.

Definition coordsToIndex (coords sizes : list Z) : result Z :=
  if negb (length coords =? length sizes)%nat then Throw LengthMismatch
  else
    let coordsRev := reverse coords in
    let sizesRev := reverse sizes in
    Ok (coordsToIndex_forEach sizesRev 0 coordsRev 1 0).

(** The [for] loop of [checkCoordsSizesCompability], on the two arrays side
    by side (they have the same length when the loop is reached). *)
Fixpoint checkCoordsSizesCompability_loop (coords sizes : list Z) : result unit :=
  match coords, sizes with
  | c :: coords', s :: sizes' =>
      if (c <? 0) || (c >=? s) then Throw OutOfBounds
      else checkCoordsSizesCompability_loop coords' sizes'
  | _, _ => Ok tt
  end.

Definition checkCoordsSizesCompability (coords sizes : list Z) : result unit :=
  if negb (length coords =? length sizes)%nat then Throw LengthMismatch
  else checkCoordsSizesCompability_loop coords sizes.

(** The number of cells of a tensor of the given sizes. *)
Definition product (sizes : list Z) : Z := foldr Z.mul 1 sizes.

(** Mixed-radix value of little-endian digits: the closed form of the
    [forEach] above. *)
Fixpoint value (coordsRev sizesRev : list Z) : Z :=
  match coordsRev, sizesRev with
  | c :: cs, s :: ss => c + s * value cs ss
  | _, _ => 0
  end.


(** ** JavaScript array objects

    [counts] in [isPermutation] and [coord] in [joinCoordsFunc] are arrays
    written by index.  An array object is a [length] and a table of own
    properties.  A key is what [xs[i]] evaluates to: a number ([Some z]) or
    [undefined] ([None], the property named "undefined").  Reading a key that
    is not in the table (a hole, or a position past the end) gives
    [undefined], here [None]. *)

Module JsArray.

Record t (A : Type) : Type := mk { length : Z; props : gmap (option Z) A }.

Arguments mk {A} length props.
Arguments length {A} _.
Arguments props {A} _.

(** An integer is an array index when it lies in [0, 2^32 - 2]; writing at
    any other key creates a plain property and leaves [length] alone. *)
Definition is_index (z : Z) : bool := (0 <=? z) && (z <? 2 ^ 32 - 1).

(** [new Array(n)]: [n] holes. *)
Definition new {A : Type} (n : Z) : t A := mk n ∅.

(** [a[k]] *)
Definition get {A : Type} (a : t A) (k : option Z) : option A := props a !! k.

(** [a[k] = v]: an index at or past the end extends the array. *)
Definition set {A : Type} (a : t A) (k : option Z) (v : A) : t A :=
  mk (match k with
      | Some z => if is_index z then Z.max (length a) (z + 1) else length a
      | None => length a
      end)
     (<[k := v]> (props a)).

(** The positions [0 .. length - 1] of an array. *)
Definition indices {A : Type} (a : t A) : list Z := seqZ 0 (length a).

(** [a.fill(v)] *)
Definition fill {A : Type} (v : A) (a : t A) : t A :=
  mk (length a) (foldr (fun i m => <[Some i := v]> m) (props a) (indices a)).

(** The array literal holding the elements of [l]. *)
Definition of_list {A : Type} (l : list A) : t A :=
  mk (Z.of_nat (List.length l)) (list_to_map (zip (Some <$> seqZ 0 (Z.of_nat (List.length l))) l)).

(** The elements as [forEach], [every] and a reader see them: position by
    position, [None] for a hole. *)
Definition elements {A : Type} (a : t A) : list (option A) :=
  (fun i => get a (Some i)) <$> indices a.

End JsArray.

(** ** Permutations and complements ([isPermutation], [indicesComplement]) *)

(** What a bucket of [counts] can hold: [fill(0)] stores a number, and
    [counts[x] += 1] on a missing bucket stores [undefined + 1], which is
    [NaN]. *)
Inductive count : Type :=
  | Num (z : Z)
  | NaN.

(** [c + 1], for [c] read from a bucket ([None] is [undefined]). *)
Definition plus_one (c : option count) : count :=
  match c with
  | Some (Num z) => Num (z + 1)
  | Some NaN => NaN
  | None => NaN
  end.

(** JavaScript truthiness of a bucket: [0], [NaN] and [undefined] are falsy. *)
Definition truthy (c : option count) : bool :=
  match c with
  | Some (Num z) => negb (z =? 0)
  | Some NaN => false
  | None => false
  end.

(** lodash's [_.every(array)] with the default (identity) predicate: every
    position below [length] holds a truthy value. *)
Definition lodash_every (a : JsArray.t count) : bool :=
  forallb truthy (JsArray.elements a).

(** lodash's [_.range(n)]: [0, 1, .., n-1], and [0, -1, .., n+1] for a
    negative [n]. *)
Definition lodash_range (n : Z) : list Z :=
  if 0 <=? n then seqZ 0 n else Z.opp <$> seqZ 0 (- n).

(** lodash's [_.includes(array, value)] on numbers. *)
Definition lodash_includes (array : list Z) (value : Z) : bool :=
  bool_decide (value ∈ array).

(** Number of occurrences of [k] in [l]. *)
Definition occurrences (l : list Z) (k : Z) : Z := Z.of_nat (count_occ Z.eq_dec l k).

(** The body of [array.forEach((x) => (counts[x] += 1))]. *)
Definition count_up (counts : JsArray.t count) (x : Z) : JsArray.t count :=
  JsArray.set counts (Some x) (plus_one (JsArray.get counts (Some x))).

(** [counts] when [_.every] reads it. *)
Definition isPermutation_counts (array : list Z) : JsArray.t count :=
  let counts := JsArray.fill (Num 0) (JsArray.new (Z.of_nat (length array))) in
  foldl count_up counts array.

Definition isPermutation (array : list Z) (n : Z) : bool :=
  if negb (Z.of_nat (length array) =? n) then false
  else lodash_every (isPermutation_counts array).

(** [isPermutation(array)]: the default of [n] is [array.length]. *)
Definition isPermutation_default (array : list Z) : bool :=
  isPermutation array (Z.of_nat (length array)).

Definition indicesComplement (indices : list Z) (n : Z) : result (list Z) :=
  let res := filter (fun i => negb (lodash_includes indices i) = true) (lodash_range n) in
  if negb (isPermutation_default (indices ++ res)) then Throw NotAPermutation
  else Ok res.

(** ** Merging coordinates ([joinCoordsFunc]) *)

(** [xs.forEach((c, i) => { coord[targets[i]] = c })], from position [i]
    on. *)
Fixpoint place (targets : list Z) (i : nat) (xs : list Z) (coord : JsArray.t Z) : JsArray.t Z :=
  match xs with
  | [] => coord
  | c :: rest => place targets (S i) rest (JsArray.set coord (targets !! i) c)
  end.

(** [joinCoordsFunc(coordIndices, complementIndices)] is the closure taking
    the next two arguments.  ([new Array(n)] needs [n < 2^32], which holds
    for the lengths of arrays that fit in memory.) *)
Definition joinCoordsFunc (coordIndices complementIndices : list Z)
    (coordGroup coordContraction : list Z) : JsArray.t Z :=
  let coord := JsArray.new (Z.of_nat (length coordIndices + length complementIndices)) in
  let coord := place complementIndices 0 coordGroup coord in
  let coord := place coordIndices 0 coordContraction coord in
  coord.

(** ** Numbers of [Complex.ts] *)

Module JsNumber.

(** The operators that the methods modelled below apply to numbers, the
    literal [0], and the constant [TAU] imported from [./Constants]. *)
Class Ops (T : Type) : Type := {
  zero : T;
  add : T -> T -> T;
  sub : T -> T -> T;
  mul : T -> T -> T;
  div : T -> T -> T;
  neg : T -> T;
  (** [x === y] *)
  eqb : T -> T -> bool;
  (** [x < y] *)
  ltb : T -> T -> bool;
  TAU : T
}.

(** [Math.PI], the binary64 value nearest to pi: 3.141592653589793. *)
Definition Math_PI : float := 0x1.921fb54442d18p+1%float.

(** Modelled from the spec: [TAU], "a full turn", 2 pi.  [Constants.ts] is
    not among the sources; twice [Math.PI] is exact in binary64:
    6.283185307179586. *)
Definition TAU_binary64 : float := 0x1.921fb54442d18p+2%float.

(** JavaScript's own numbers. *)
#[global] Instance binary64 : Ops float := {
  zero := 0%float;
  add := PrimFloat.add;
  sub := PrimFloat.sub;
  mul := PrimFloat.mul;
  div := PrimFloat.div;
  neg := PrimFloat.opp;
  eqb := PrimFloat.eqb;
  ltb := PrimFloat.ltb;
  TAU := TAU_binary64
}.

(** Exact real arithmetic. *)
#[global] Instance exact : Ops R := {
  zero := 0%R;
  add := Rplus;
  sub := Rminus;
  mul := Rmult;
  div := Rdiv;
  neg := Ropp;
  eqb := fun x y => if Req_dec_T x y then true else false;
  ltb := fun x y => if Rlt_dec x y then true else false;
  TAU := (2 * PI)%R
}.

(** The mantissa of [Math.PI] and of [TAU_binary64]: the first is
    [PI_mantissa * 2^-51], the second [PI_mantissa * 2^-50]. *)
Definition PI_mantissa : positive := 7074237752028440%positive.

(** [Math.atan2] at the points used in the examples below.  It is [NaN]
    when an argument is [NaN] (ECMAScript); [Math.atan2(4, 3)] is
    0.9272952180016122; and [Math.atan2(y, 1)] is [atan(y)], which V8 (a
    port of fdlibm) returns as [y] itself for [|y| < 2^-29].  Other points
    are not sampled (and read [nan] here). *)
Definition Math_atan2_sample (y x : float) : float :=
  if PrimFloat.is_nan y || PrimFloat.is_nan x then nan
  else if PrimFloat.eqb y 4 && PrimFloat.eqb x 3 then 0x1.dac670561bb4fp-1%float
  else if PrimFloat.eqb x 1 && PrimFloat.ltb (PrimFloat.abs y) 0x1p-29 then y
  else nan.

End JsNumber.

Declare Scope num_scope.
Delimit Scope num_scope with num.
Infix "+" := JsNumber.add : num_scope.
Infix "-" := JsNumber.sub : num_scope.
Infix "*" := JsNumber.mul : num_scope.
Infix "/" := JsNumber.div : num_scope.
Notation "- x" := (JsNumber.neg x) : num_scope.
Infix "===" := JsNumber.eqb (at level 70, no associativity) : num_scope.
Infix "<?" := JsNumber.ltb : num_scope.
Notation "0" := JsNumber.zero : num_scope.

(** ** The complex scalar ([Complex.ts]) *)

Module Complex.

(** [new Complex(re, im)], also written [Cx(re, im)]. *)
Record Complex (T : Type) : Type := Cx { re : T; im : T }.

Arguments Cx {T} re im.
Arguments re {T} _.
Arguments im {T} _.

Section Methods.
Context {T : Type} `{JsNumber.Ops T}.
Local Open Scope num_scope.

Definition abs2 (this : Complex T) : T :=
  re this * re this + im this * im this.

Definition conj (this : Complex T) : Complex T :=
  Cx (re this) (- im this).

Definition add (z1 z2 : Complex T) : Complex T :=
  Cx (re z1 + re z2) (im z1 + im z2).

Definition sub (z1 z2 : Complex T) : Complex T :=
  Cx (re z1 - re z2) (im z1 - im z2).

Definition mul (z1 z2 : Complex T) : Complex T :=
  Cx (re z1 * re z2 - im z1 * im z2) (re z1 * im z2 + im z1 * re z2).

Definition mulGauss (z1 z2 : Complex T) : Complex T :=
  let k1 := re z2 * (re z1 + im z1) in
  let k2 := re z1 * (im z2 - re z2) in
  let k3 := im z1 * (re z2 + im z2) in
  Cx (k1 - k3) (k1 + k2).

Definition div (z1 z2 : Complex T) : result (Complex T) :=
  let denom := im z2 * im z2 + re z2 * re z2 in
  if denom === 0 then Throw DivisionByZero
  else
    let re' := (re z1 * re z2 + im z1 * im z2) / denom in
    let im' := (re z2 * im z1 - re z1 * im z2) / denom in
    Ok (Cx re' im').

(** [arg()].  [Math.atan2] belongs to the JavaScript engine, not to the
    sources: it is an argument of the model. *)
Definition arg (Math_atan2 : T -> T -> T) (this : Complex T) : T :=
  let arg := Math_atan2 (im this) (re this) in
  if arg <? 0 then arg + JsNumber.TAU else arg.

(** The getter [phi]. *)
Definition phi (Math_atan2 : T -> T -> T) (this : Complex T) : T :=
  arg Math_atan2 this.

(** The textbook quotient of [a + bi] by [c + di], written as the
    specification's "standard complex arithmetic" has it:
    [(ac + bd) / (c^2 + d^2)] and [(bc - ad) / (c^2 + d^2)]. *)
Definition quotient (z1 z2 : Complex T) : Complex T :=
  Cx ((re z1 * re z2 + im z1 * im z2) / abs2 z2)
     ((im z1 * re z2 - re z1 * im z2) / abs2 z2).

End Methods.

End Complex.

(** Modelled from the spec: the split of a full coordinate tuple along an
    index tuple, [indices.map((k) => coord[k])].  The callers that split
    tuples are not among the sources; the specification only speaks of "a
    corresponding split" into the selected and the remaining axes. *)
Definition project (coord : list Z) (indices : list Z) : list Z :=
  (fun k => coord !!! Z.to_nat k) <$> indices.

(** ** More of [helpers.ts]: [weightedRandomInt], [startingPolarization],
    [startingDirection] *)

Section WeightedRandomInt.
Context {T : Type} `{JsNumber.Ops T}.
Local Open Scope num_scope.

(** [weights.reduce((a, b) => a + b, 0)], also the value of [cumSum] once
    the loop has added the same weights from the left. *)
Definition sum_weights (weights : list T) : T :=
  foldl JsNumber.add 0 weights.

(** The [for] loop of [weightedRandomInt], entered at index [i] with the
    running [cumSum]; falling off the end is [return -1].  [cumSum > r] is
    [r < cumSum]. *)
Fixpoint weightedRandomInt_loop (r cumSum : T) (i : Z) (weights : list T) : Z :=
  match weights with
  | [] => (-1)%Z
  | w :: rest =>
      let cumSum := cumSum + w in
      if r <? cumSum then i else weightedRandomInt_loop r cumSum (i + 1)%Z rest
  end.

(** The threshold [r] after the optional [r *= sum]. *)
Definition weightedRandomInt_threshold (Math_random : T) (weights : list T)
    (normalize : bool) : T :=
  if normalize then Math_random * sum_weights weights else Math_random.

(** [weightedRandomInt(weights, normalize)]; the value that [Math.random()]
    returned is an argument. *)
Definition weightedRandomInt (Math_random : T) (weights : list T)
    (normalize : bool) : Z :=
  let r := weightedRandomInt_threshold Math_random weights normalize in
  weightedRandomInt_loop r 0 0%Z weights.

End WeightedRandomInt.

(** The members of [PolEnum] and [DirEnum] that [helpers.ts] names
    ([./interfaces] is not among the sources): [PolEnum.H], [PolEnum.V],
    [DirEnum['>']], [DirEnum['^']], [DirEnum['<']], [DirEnum.v]. *)
Inductive PolEnum : Type := PolEnum_H | PolEnum_V.
Inductive DirEnum : Type := DirEnum_right | DirEnum_up | DirEnum_left | DirEnum_down.

(** [startingPolarization(polarization)]: the [switch] compares with [===];
    [None] is the [throw] of the [default] branch. *)
Definition startingPolarization (polarization : float) : option PolEnum :=
  if PrimFloat.eqb polarization 0 then Some PolEnum_H
  else if PrimFloat.eqb polarization 180 then Some PolEnum_H
  else if PrimFloat.eqb polarization 90 then Some PolEnum_V
  else if PrimFloat.eqb polarization 270 then Some PolEnum_V
  else None.

(** [startingDirection(rotation)], likewise. *)
Definition startingDirection (rotation : float) : option DirEnum :=
  if PrimFloat.eqb rotation 0 then Some DirEnum_right
  else if PrimFloat.eqb rotation 90 then Some DirEnum_up
  else if PrimFloat.eqb rotation 180 then Some DirEnum_left
  else if PrimFloat.eqb rotation 270 then Some DirEnum_down
  else None.

(** ** More of [Complex.ts]: magnitude, normalization, comparisons, polar
    form *)

Module JsMath.

(** What these methods need besides [JsNumber.Ops]: the literals [1],
    [1e-6] and [1e-12], and [Math.sqrt]. *)
Class Ops (T : Type) : Type := {
  one : T;
  lit_1e_6 : T;
  lit_1e_12 : T;
  Math_sqrt : T -> T
}.

(** In binary64 [Math.sqrt] is the correctly rounded square root, as the
    hardware instruction that engines use computes it. *)
#[global] Instance binary64 : Ops float := {
  one := 1%float;
  lit_1e_6 := 0x1.0c6f7a0b5ed8dp-20%float;
  lit_1e_12 := 0x1.19799812dea11p-40%float;
  Math_sqrt := PrimFloat.sqrt
}.

#[global] Instance exact : Ops R := {
  one := 1%R;
  lit_1e_6 := (/ 1000000)%R;
  lit_1e_12 := (/ 1000000000000)%R;
  Math_sqrt := R_sqrt.sqrt
}.

End JsMath.

Module ComplexMore.
Import Complex.

Section Methods.
Context {T : Type} `{JsNumber.Ops T} `{JsMath.Ops T}.
Local Open Scope num_scope.

Definition abs (this : Complex T) : T :=
  JsMath.Math_sqrt (re this * re this + im this * im this).

(** The getter [r]. *)
Definition r (this : Complex T) : T := abs this.

(** The getter [phiTau]. *)
Definition phiTau (Math_atan2 : T -> T -> T) (this : Complex T) : T :=
  arg Math_atan2 this / JsNumber.TAU.

(** [normalize()]; [None] is the [throw] for a zero length. *)
Definition normalize (this : Complex T) : option (Complex T) :=
  let norm := r this in
  if negb (norm === 0) then Some (Cx (re this / norm) (im this / norm))
  else None.

Definition isCloseTo (this z2 : Complex T) (eps : T) : bool :=
  r (sub this z2) <? eps.

(** [isCloseTo(z2)], with the default [eps = 1e-6]. *)
Definition isCloseTo_default (this z2 : Complex T) : bool :=
  isCloseTo this z2 JsMath.lit_1e_6.

Definition equal (this z2 : Complex T) : bool :=
  (re this === re z2) && (im this === im z2).

Definition isZero (this : Complex T) : bool :=
  (re this === 0) && (im this === 0).

Definition isOne (this : Complex T) : bool :=
  (re this === JsMath.one) && (im this === 0).

Definition isAlmostZero (this : Complex T) : bool :=
  abs2 this <? JsMath.lit_1e_12.

Definition isNormal (this : Complex T) : bool :=
  abs2 this === JsMath.one.

(** [Complex.fromPolar(r, phi)]; [Math.cos] and [Math.sin] are the
    engine's. *)
Definition fromPolar (Math_cos Math_sin : T -> T) (r phi : T) : Complex T :=
  Cx (r * Math_cos phi) (r * Math_sin phi).

End Methods.

End ComplexMore.

(** ** Colours: [hslToHex] of [helpers.ts] and [toColor] of [Complex.ts] *)

Import String.StringSyntax Ascii.AsciiSyntax.
Delimit Scope string_scope with string.
Delimit Scope char_scope with char.

Module JsColor.

(** The value of [Math.round(x)]: an integer, [NaN] or an infinity.  [-0]
    is read as 0; [toString] prints both as "0". *)
Inductive Rounded : Type :=
  | Rounded_int (n : Z)
  | Rounded_NaN
  | Rounded_Infinity (negative : bool).

(** [x.toString(16)] for such a value: lower-case digits, a minus sign for
    a negative integer.  (Engines print the digits of an integer below
    2^53 exactly; beyond, the standard leaves the low digits to them.) *)
Definition toString16 (x : Rounded) : String.string :=
  match x with
  | Rounded_int n => HexadecimalString.NilZero.string_of_int (Z.to_hex_int n)
  | Rounded_NaN => "NaN"%string
  | Rounded_Infinity false => "Infinity"%string
  | Rounded_Infinity true => "-Infinity"%string
  end.

(** What the two functions need besides [JsNumber.Ops]: the integer
    literals, the literal [0.5], the remainder [x % y] and [Math.round]. *)
Class Ops (T : Type) : Type := {
  lit : Z -> T;
  lit_0_5 : T;
  rem : T -> T -> T;
  Math_round : T -> Rounded
}.

(** [Math.round] in binary64: the integer nearest to [m * 2^e], the upper
    one of two that are equally near, which is the floor of
    [m * 2^e + 1/2]. *)
Definition Math_round_binary64 (x : float) : Rounded :=
  match Prim2SF x with
  | S754_zero _ => Rounded_int 0
  | S754_infinity s => Rounded_Infinity s
  | S754_nan => Rounded_NaN
  | S754_finite s m e =>
      let m := if s then Z.neg m else Z.pos m in
      Rounded_int (if 0 <=? e then m * 2 ^ e else (2 * m + 2 ^ (- e)) / 2 ^ (1 - e))
  end.

(** [x % y] in binary64: [NaN] for a [NaN] or infinite [x] and for a [NaN]
    or zero [y]; [x] for an infinite [y] or a zero [x]; otherwise the exact
    remainder of the truncating division, with the sign of [x]. *)
Definition rem_binary64 (x y : float) : float :=
  match Prim2SF x, Prim2SF y with
  | S754_nan, _ | _, S754_nan | S754_infinity _, _ | _, S754_zero _ => nan
  | _, S754_infinity _ | S754_zero _, _ => x
  | S754_finite sx mx ex, S754_finite _ my ey =>
      let e := Z.min ex ey in
      let r := (Z.pos mx * 2 ^ (ex - e)) mod (Z.pos my * 2 ^ (ey - e)) in
      SF2Prim (binary_normalize prec emax (if sx then - r else r) e sx)
  end.

(** The integer literals of the two functions lie between 1 and 360; the
    conversion is exact for them. *)
#[global] Instance binary64 : Ops float := {
  lit := fun n => PrimFloat.of_uint63 (Uint63.of_Z n);
  lit_0_5 := 0.5%float;
  rem := rem_binary64;
  Math_round := Math_round_binary64
}.

(** In exact arithmetic [Math.round(x)] is the floor of [x + 1/2], and
    [x % y] is [x] less [y] times the quotient rounded towards zero. *)
#[global] Instance exact : Ops R := {
  lit := IZR;
  lit_0_5 := (/ 2)%R;
  rem := fun x y =>
    let q := (x / y)%R in
    (x - y * IZR (if Rle_dec 0 q then Zfloor q else Zceil q))%R;
  Math_round := fun x => Rounded_int (Zfloor (x + / 2))
}.

End JsColor.

Section Colours.
Context {T : Type} `{JsNumber.Ops T} `{JsMath.Ops T} `{JsColor.Ops T}.
Local Open Scope num_scope.
Local Notation "# n" := (JsColor.lit n%Z) (at level 1, n at level 0, format "# n").

(** The local function [hue2rgb] of [hslToHex]. *)
Definition hue2rgb (pParam qParam tParam : T) : T :=
  let p := pParam in
  let q := qParam in
  let t := tParam in
  let t := if t <? 0 then t + #1 else t in
  let t := if #1 <? t then t - #1 else t in
  if t <? #1 / #6 then p + (q - p) * #6 * t
  else if t <? #1 / #2 then q
  else if t <? #2 / #3 then p + (q - p) * (#2 / #3 - t) * #6
  else p.

(** The local function [toHex] of [hslToHex]. *)
Definition toHex (x : T) : String.string :=
  let hex := JsColor.toString16 (JsColor.Math_round (x * #255)) in
  if (String.length hex =? 1)%nat then String.append "0" hex else hex.

(** The red, green and blue that [hslToHex] passes to [toHex]. *)
Definition hslToHex_rgb (hParam sParam lParam : T) : T * T * T :=
  let h := hParam in
  let s := sParam in
  let l := lParam in
  let h := h / #360 in
  let s := s / #100 in
  let l := l / #100 in
  if s === 0 then (l, l, l)
  else
    let q := if l <? JsColor.lit_0_5 then l * (#1 + s) else l + s - l * s in
    let p := #2 * l - q in
    (hue2rgb p q (h + #1 / #3), hue2rgb p q h, hue2rgb p q (h - #1 / #3)).

Definition hslToHex (hParam sParam lParam : T) : String.string :=
  let '(r, g, b) := hslToHex_rgb hParam sParam lParam in
  String.append "#" (String.append (toHex r) (String.append (toHex g) (toHex b))).

(** [toColor()] of [Complex.ts]. *)
Definition toColor (Math_atan2 : T -> T -> T) (this : Complex.Complex T) : String.string :=
  let angle :=
    JsColor.rem (Complex.phi Math_atan2 this * #360 / JsNumber.TAU + #360) #360 in
  hslToHex angle #100 (#100 - #50 * ComplexMore.r this).

End Colours.

(** The form [#rrggbb] of a colour: a [#] and six hexadecimal digits, in
    lower case as [toString(16)] prints them. *)
Definition is_hex_digit (c : Ascii.ascii) : bool :=
  existsb (Ascii.eqb c) (String.list_ascii_of_string "0123456789abcdef").

Definition is_hex_color (s : String.string) : bool :=
  match s with
  | String.String "#" digits =>
      (String.length digits =? 6)%nat
      && forallb is_hex_digit (String.list_ascii_of_string digits)
  | _ => false
  end.

(** The two characters that [toHex] makes of an integer. *)
Definition byte_hex (n : Z) : String.string :=
  let hex := JsColor.toString16 (JsColor.Rounded_int n) in
  if (String.length hex =? 1)%nat then String.append "0" hex else hex.

(** ** The coordinate functions on JavaScript's numbers

    [coordsFromIndex] and [coordsToIndex] above are the integer reading of
    the code.  The code itself computes in binary64: the same functions on
    [float] follow; [coordsFromIndex_map_of_Z] and
    [coordsToIndex_forEach_of_Z] show that the two readings agree as long
    as the numbers stay below [2^53]. *)

(** The binary64 number nearest to the integer [n]: [n] itself when
    [|n| <= 2^53]. *)
Definition float_of_Z (n : Z) : float :=
  SF2Prim (binary_normalize prec emax n 0 false).

(** The mantissa and the exponent of a positive integer below [2^53] as a
    binary64 number: 53 bits, and [p] is [int_mantissa p] times 2 to the
    power [int_exponent p]. *)
Definition int_mantissa (p : positive) : positive :=
  Z.to_pos (Z.pos p * 2 ^ (53 - Z.pos (digits2_pos p))).

Definition int_exponent (p : positive) : Z := Z.pos (digits2_pos p) - 53.

(** What [float_of_Z n] is made of, for [|n| < 2^53]
    ([Prim2SF_of_Z]). *)
Definition SF_of_Z (n : Z) : spec_float :=
  match n with
  | 0 => S754_zero false
  | Z.pos p => S754_finite false (int_mantissa p) (int_exponent p)
  | Z.neg p => S754_finite true (int_mantissa p) (int_exponent p)
  end.


(** [sizesRev[dim]] where no element is: [undefined], which arithmetic
    turns into [NaN]. *)
#[global] Instance float_inhabited : Inhabited float := populate nan.

Module Binary64.

(** The callback of [map] in [coordsFromIndex]; the captured variable [i]
    is threaded as an argument. *)
Fixpoint coordsFromIndex_map (i : float) (sizesRev : list float) : list float :=
  match sizesRev with
  | [] => []
  | dimSize :: rest =>
      let coord := JsColor.rem_binary64 i dimSize in
      coord :: coordsFromIndex_map ((i - coord) / dimSize)%float rest
  end.

Definition coordsFromIndex (index : float) (sizes : list float) : list float :=
  reverse (coordsFromIndex_map index (reverse sizes)).

(** The [forEach] of [coordsToIndex]. *)
Fixpoint coordsToIndex_forEach (sizesRev : list float) (dim : nat)
    (coordsRev : list float) (factor res : float) : float :=
  match coordsRev with
  | [] => res
  | coord :: rest =>
      let res := (res + factor * coord)%float in
      let factor := (factor * (sizesRev !!! dim))%float in
      coordsToIndex_forEach sizesRev (S dim) rest factor res
  end.

Definition coordsToIndex (coords sizes : list float) : result float :=
  if negb (length coords =? length sizes)%nat then Throw LengthMismatch
  else
    let coordsRev := reverse coords in
    let sizesRev := reverse sizes in
    Ok (coordsToIndex_forEach sizesRev 0 coordsRev 1%float 0%float).

End Binary64.

(** * Properties *)

(** ** Index <-> coordinates *)

Example coordsFromIndex_5 : coordsFromIndex 5 [2; 3] = [1; 2].
Proof. reflexivity. Qed.

Example coordsToIndex_1_2 : coordsToIndex [1; 2] [2; 3] = Ok 5.
Proof. reflexivity. Qed.

Example checkCoords_2_0 : checkCoordsSizesCompability [2; 0] [2; 3] = Throw OutOfBounds.
Proof. reflexivity. Qed.

Lemma coordsToIndex_forEach_value (sizesPast coordsRev sizesRev : list Z) (factor res : Z) :
  length coordsRev = length sizesRev ->
  coordsToIndex_forEach (sizesPast ++ sizesRev) (length sizesPast) coordsRev factor res
  = res + factor * value coordsRev sizesRev.
Proof.
  revert sizesPast sizesRev factor res.
  induction coordsRev as [|c cs IH]; intros past ss factor res Hlen.
  - simpl. lia.
  - destruct ss as [|s ss]; [discriminate|].
    injection Hlen as Hlen. cbn [coordsToIndex_forEach value].
    replace ((past ++ s :: ss) !!! length past) with s.
    + replace (past ++ s :: ss) with ((past ++ [s]) ++ ss) by (by rewrite <- app_assoc).
      replace (S (length past)) with (length (past ++ [s])) by (rewrite length_app; simpl; lia).
      rewrite IH by done. lia.
    + symmetry. apply list_lookup_total_correct.
      by rewrite list_lookup_middle.
Qed.

Lemma coordsToIndex_value (coords sizes : list Z) :
  length coords = length sizes ->
  coordsToIndex coords sizes = Ok (value (reverse coords) (reverse sizes)).
Proof.
  intros Hlen. unfold coordsToIndex.
  rewrite Hlen, Nat.eqb_refl. cbn [negb]. f_equal.
  rewrite (coordsToIndex_forEach_value [] (reverse coords) (reverse sizes)).
  - lia.
  - by rewrite !length_reverse.
Qed.

Lemma coordsFromIndex_map_length (sizesRev : list Z) (i : Z) :
  length (coordsFromIndex_map i sizesRev) = length sizesRev.
Proof.
  revert i. induction sizesRev as [|s ss IH]; intros i; simpl; [done|].
  by rewrite IH.
Qed.

Lemma coordsFromIndex_length (index : Z) (sizes : list Z) :
  length (coordsFromIndex index sizes) = length sizes.
Proof.
  unfold coordsFromIndex.
  by rewrite length_reverse, coordsFromIndex_map_length, length_reverse.
Qed.

Lemma product_reverse (sizes : list Z) : product (reverse sizes) = product sizes.
Proof.
  unfold product. induction sizes as [|s ss IH]; [done|].
  rewrite reverse_cons, foldr_app. simpl.
  rewrite <- IH. generalize (reverse ss). intros l.
  induction l as [|x l IHl]; simpl; [lia|]. rewrite IHl. lia.
Qed.

Lemma product_pos (sizes : list Z) :
  Forall (fun s => 1 <= s) sizes -> 1 <= product sizes.
Proof.
  induction 1 as [|s ss Hs _ IH]; simpl; [lia|].
  unfold product in *. simpl. nia.
Qed.

(** Decoding then encoding, on the reversed (least significant first) lists. *)
Lemma value_coordsFromIndex_map (sizesRev : list Z) (i : Z) :
  Forall (fun s => 1 <= s) sizesRev ->
  0 <= i < product sizesRev ->
  value (coordsFromIndex_map i sizesRev) sizesRev = i.
Proof.
  intros Hs. revert i. induction Hs as [|s ss Hs1 Hss IH]; intros i Hi.
  - unfold product in Hi. simpl in *. lia.
  - cbn [coordsFromIndex_map value].
    assert (Hprod : 1 <= product ss) by by apply product_pos.
    change (product (s :: ss)) with (s * product ss) in Hi.
    pose proof (Z.quot_rem i s ltac:(lia)) as Hqr.
    assert (Hrem : 0 <= Z.rem i s < s) by (apply Z.rem_bound_pos; lia).
    assert (Hq : i - Z.rem i s = Z.quot i s * s) by lia.
    rewrite Hq, Z.quot_mul by lia.
    assert (Hqpos : 0 <= Z.quot i s) by (apply Z.quot_pos; lia).
    rewrite IH; [lia|]. split; [done|].
    apply Z.nle_gt. intros Hge. nia.
Qed.

(** Encoding then decoding, on the reversed lists. *)
Lemma coordsFromIndex_map_value (coordsRev sizesRev : list Z) :
  Forall2 (fun c s => 0 <= c < s) coordsRev sizesRev ->
  coordsFromIndex_map (value coordsRev sizesRev) sizesRev = coordsRev
  /\ 0 <= value coordsRev sizesRev.
Proof.
  induction 1 as [|c s cs ss Hc _ [IH Hv]]; [by simpl|].
  cbn [coordsFromIndex_map value].
  assert (Hrem : Z.rem (c + s * value cs ss) s = c).
  { rewrite Z.rem_mod_nonneg by nia.
    replace (c + s * value cs ss) with (c + value cs ss * s) by lia.
    rewrite Z.mod_add by lia. apply Z.mod_small. lia. }
  rewrite Hrem.
  replace (c + s * value cs ss - c) with (value cs ss * s) by lia.
  rewrite Z.quot_mul by lia. rewrite IH. split; [done|nia].
Qed.

Lemma checkCoordsSizesCompability_Ok (coords sizes : list Z) :
  checkCoordsSizesCompability coords sizes = Ok tt <->
  Forall2 (fun c s => 0 <= c < s) coords sizes.
Proof.
  unfold checkCoordsSizesCompability. split.
  - destruct (length coords =? length sizes)%nat eqn:Hlen; [|discriminate].
    apply Nat.eqb_eq in Hlen. cbn [negb].
    revert sizes Hlen. induction coords as [|c cs IH]; intros [|s ss] Hlen; try discriminate.
    + constructor.
    + simpl. destruct (c <? 0) eqn:H0; [discriminate|].
      destruct (c >=? s) eqn:H1; [discriminate|]. simpl.
      intros H. constructor; [lia|]. apply IH; [by injection Hlen|done].
  - intros H. rewrite (Forall2_length _ _ _ H), Nat.eqb_refl. cbn [negb].
    induction H as [|c s cs ss Hc _ IH]; [done|].
    simpl. destruct (c <? 0) eqn:H0; [lia|]. destruct (c >=? s) eqn:H1; [lia|]. done.
Qed.


Lemma Forall2_reverse_bounds (coords sizes : list Z) :
  Forall2 (fun c s => 0 <= c < s) coords sizes ->
  Forall2 (fun c s => 0 <= c < s) (reverse coords) (reverse sizes).
Proof.
  induction 1 as [|c s cs ss Hc Hcs IH]; [constructor|].
  rewrite !reverse_cons. apply Forall2_app; [done|]. constructor; [done|constructor].
Qed.

(** The round trip on the integer reading: decoding an index in range and
    encoding the coordinates again gives the index back. *)
Lemma coordsToIndex_coordsFromIndex_Z (sizes : list Z) (index : Z) :
  Forall (fun s => 1 <= s) sizes ->
  0 <= index < product sizes ->
  coordsToIndex (coordsFromIndex index sizes) sizes = Ok index.
Proof.
  intros Hsizes Hindex.
  rewrite coordsToIndex_value by apply coordsFromIndex_length.
  unfold coordsFromIndex. rewrite reverse_involutive. f_equal.
  apply value_coordsFromIndex_map.
  - by apply Forall_reverse.
  - by rewrite product_reverse.
Qed.

(** The inverse round trip on the integer reading. *)
Lemma coordsFromIndex_coordsToIndex_Z (coords sizes : list Z) :
  checkCoordsSizesCompability coords sizes = Ok tt ->
  exists index : Z,
    coordsToIndex coords sizes = Ok index /\
    coordsFromIndex index sizes = coords.
Proof.
  intros Hcheck. apply checkCoordsSizesCompability_Ok in Hcheck.
  exists (value (reverse coords) (reverse sizes)). split.
  - apply coordsToIndex_value. by eapply Forall2_length.
  - unfold coordsFromIndex.
    destruct (coordsFromIndex_map_value (reverse coords) (reverse sizes)) as [-> _].
    + by apply Forall2_reverse_bounds.
    + apply reverse_involutive.
Qed.

(** On the integer reading [coordsToIndex] fails exactly on a length
    mismatch, and on tuples of equal length it is the mixed-radix sum of
    the coordinates, whatever their signs and sizes. *)
Lemma coordsToIndex_Z_fails_only_on_length (coords sizes : list Z) :
  (length coords = length sizes ->
     coordsToIndex coords sizes = Ok (value (reverse coords) (reverse sizes)))
  /\ (length coords <> length sizes ->
     coordsToIndex coords sizes = Throw LengthMismatch)
  /\ (forall e : Error,
     coordsToIndex coords sizes = Throw e -> length coords <> length sizes).
Proof.
  split; [apply coordsToIndex_value|]. split.
  - intros Hne. unfold coordsToIndex.
    by destruct (Nat.eqb_spec (length coords) (length sizes)).
  - intros e He Hlen. by rewrite coordsToIndex_value in He.
Qed.

Example coordsToIndex_out_of_bounds : coordsToIndex [-1; 7] [2; 3] = Ok 4.
Proof. reflexivity. Qed.

Lemma coordsFromIndex_map_bounds (sizesRev : list Z) (i : Z) :
  Forall (fun s => 1 <= s) sizesRev ->
  0 <= i ->
  Forall2 (fun c s => 0 <= c < s) (coordsFromIndex_map i sizesRev) sizesRev.
Proof.
  intros Hs. revert i. induction Hs as [|s ss Hs1 _ IH]; intros i Hi; [constructor|].
  cbn [coordsFromIndex_map].
  assert (Hrem : 0 <= Z.rem i s < s) by (apply Z.rem_bound_pos; lia).
  constructor; [done|]. apply IH.
  pose proof (Z.quot_rem i s ltac:(lia)) as Hqr.
  assert (Hq : 0 <= Z.quot i s) by (apply Z.quot_pos; lia).
  apply Z.quot_pos; nia.
Qed.



(** An index at or past [product(sizes)] is not refused: its coordinates are
    those of an index in range. *)
Example coordsFromIndex_past_the_end :
  coordsFromIndex 7 [2; 3] = [0; 1] /\ coordsFromIndex 1 [2; 3] = [0; 1].
Proof. split; reflexivity. Qed.

(** ** Array objects *)

Lemma foldr_insert_lookup {A : Type} (v : A) (m : gmap (option Z) A) (l : list Z) (k : option Z) :
  foldr (fun i m => <[Some i := v]> m) m l !! k
  = match k with
    | Some z => if decide (z ∈ l) then Some v else m !! k
    | None => m !! k
    end.
Proof.
  induction l as [|i l IH]; cbn [foldr].
  - destruct k as [z|]; [|done].
    destruct (decide (z ∈ [])) as [Hin|_]; [|done]. by apply elem_of_nil in Hin.
  - destruct k as [z|]; [|rewrite lookup_insert_ne by done; apply IH].
    destruct (decide (i = z)) as [->|Hne].
    + rewrite lookup_insert_eq.
      destruct (decide (z ∈ z :: l)) as [_|Hnin]; [done|].
      exfalso. apply Hnin, list_elem_of_here.
    + rewrite lookup_insert_ne by congruence. rewrite IH.
      destruct (decide (z ∈ l)) as [Hl|Hl], (decide (z ∈ i :: l)) as [Hil|Hil];
        try done; exfalso.
      * apply Hil. by apply list_elem_of_further.
      * apply elem_of_cons in Hil as [?|?]; [congruence|done].
Qed.

Lemma get_fill_new {A : Type} (v : A) (n k : Z) :
  JsArray.get (JsArray.fill v (JsArray.new n)) (Some k)
  = if decide (0 <= k < n) then Some v else None.
Proof.
  unfold JsArray.get, JsArray.fill, JsArray.indices, JsArray.new.
  cbn [JsArray.props JsArray.length].
  rewrite foldr_insert_lookup, lookup_empty.
  destruct (decide (k ∈ seqZ 0 n)) as [Hin|Hnin], (decide (0 <= k < n)) as [Hk|Hk];
    try done; exfalso.
  - apply elem_of_seqZ in Hin. lia.
  - apply Hnin, elem_of_seqZ. lia.
Qed.

Lemma lodash_every_true (a : JsArray.t count) :
  lodash_every a = true <->
  forall i : Z, 0 <= i < JsArray.length a -> truthy (JsArray.get a (Some i)) = true.
Proof.
  unfold lodash_every, JsArray.elements, JsArray.indices.
  rewrite forallb_forall. split.
  - intros H i Hi. apply H. apply list_elem_of_In, list_elem_of_fmap.
    exists i. split; [done|]. apply elem_of_seqZ. lia.
  - intros H c Hc. apply list_elem_of_In, list_elem_of_fmap in Hc as (i & -> & Hi).
    apply H. apply elem_of_seqZ in Hi. lia.
Qed.

(** ** Counting *)

Lemma get_count_up (counts : JsArray.t count) (x k : Z) :
  JsArray.get (count_up counts x) (Some k)
  = if decide (x = k) then Some (plus_one (JsArray.get counts (Some k)))
    else JsArray.get counts (Some k).
Proof.
  unfold count_up, JsArray.get, JsArray.set. simpl.
  destruct (decide (x = k)) as [->|Hne].
  - by rewrite lookup_insert_eq.
  - rewrite lookup_insert_ne; [done|congruence].
Qed.

Lemma length_count_up (counts : JsArray.t count) (x : Z) :
  JsArray.length (count_up counts x)
  = if JsArray.is_index x then Z.max (JsArray.length counts) (x + 1)
    else JsArray.length counts.
Proof. reflexivity. Qed.

(** After the [forEach], each bucket below [n] holds its start value plus
    the number of occurrences of its position; values outside [0, n) never
    touch these buckets, and the array never shrinks. *)
Lemma foldl_count_up_bucket (array : list Z) (counts : JsArray.t count) (k z : Z) :
  JsArray.get counts (Some k) = Some (Num z) ->
  JsArray.get (foldl count_up counts array) (Some k)
  = Some (Num (z + occurrences array k)).
Proof.
  unfold occurrences.
  revert counts z. induction array as [|x l IH]; intros counts z Hk.
  - simpl. rewrite Hk. do 2 f_equal. lia.
  - cbn [foldl]. cbn [count_occ]. destruct (Z.eq_dec x k) as [->|Hne].
    + rewrite (IH _ (z + 1)).
      * do 2 f_equal. lia.
      * rewrite get_count_up, decide_True by done. by rewrite Hk.
    + rewrite (IH _ z); [done|].
      by rewrite get_count_up, decide_False.
Qed.

Lemma foldl_count_up_length_ge (array : list Z) (counts : JsArray.t count) :
  JsArray.length counts <= JsArray.length (foldl count_up counts array).
Proof.
  revert counts. induction array as [|x l IH]; intros counts; [simpl; lia|].
  cbn [foldl]. etrans; [|apply IH]. rewrite length_count_up.
  destruct (JsArray.is_index x); lia.
Qed.

Lemma foldl_count_up_length_eq (array : list Z) (counts : JsArray.t count) :
  Forall (fun x => 0 <= x < JsArray.length counts) array ->
  JsArray.length (foldl count_up counts array) = JsArray.length counts.
Proof.
  revert counts. induction array as [|x l IH]; intros counts Hall; [done|].
  apply Forall_cons in Hall as [Hx Hl]. cbn [foldl].
  assert (Hlen : JsArray.length (count_up counts x) = JsArray.length counts).
  { rewrite length_count_up. destruct (JsArray.is_index x); lia. }
  rewrite IH; [done|]. by rewrite Hlen.
Qed.

Lemma count_occ_seqZ (n k : Z) :
  count_occ Z.eq_dec (seqZ 0 n) k = if decide (0 <= k < n) then 1%nat else 0%nat.
Proof.
  destruct (decide (0 <= k < n)) as [Hk|Hk].
  - apply NoDup_count_occ'; [apply NoDup_ListNoDup, NoDup_seqZ|].
    apply list_elem_of_In, elem_of_seqZ. lia.
  - apply count_occ_not_In. rewrite <- list_elem_of_In, elem_of_seqZ. lia.
Qed.

(** The buckets of [isPermutation] are all truthy exactly for a
    rearrangement of [0 .. n-1]. *)
Lemma isPermutation_Permutation (array : list Z) (n : Z) :
  isPermutation array n = true <->
  Z.of_nat (length array) = n /\ array ≡ₚ seqZ 0 n.
Proof.
  unfold isPermutation, isPermutation_counts.
  destruct (Z.eqb_spec (Z.of_nat (length array)) n) as [Hlen|Hlen]; cbn [negb];
    [|split; [discriminate | intros [? _]; done]].
  set (counts0 := JsArray.fill (Num 0) (JsArray.new (Z.of_nat (length array)))).
  assert (Hget0 : forall k, 0 <= k < n -> JsArray.get counts0 (Some k) = Some (Num 0)).
  { intros k Hk. unfold counts0. rewrite get_fill_new. by rewrite decide_True by lia. }
  assert (Hlen0 : JsArray.length counts0 = n) by done.
  rewrite lodash_every_true. split.
  - intros Hevery. split; [done|].
    symmetry. apply submseteq_length_Permutation.
    + apply NoDup_submseteq; [apply NoDup_seqZ|].
      intros k Hk. apply elem_of_seqZ in Hk.
      specialize (Hevery k).
      rewrite (foldl_count_up_bucket array counts0 k 0) in Hevery by (apply Hget0; lia).
      pose proof (foldl_count_up_length_ge array counts0) as Hge.
      specialize (Hevery ltac:(lia)). simpl in Hevery.
      apply negb_true_iff, Z.eqb_neq in Hevery. unfold occurrences in Hevery.
      apply list_elem_of_In, (count_occ_In Z.eq_dec). lia.
    + rewrite length_seqZ. lia.
  - intros [_ Hperm] i Hi.
    rewrite foldl_count_up_length_eq in Hi.
    + rewrite (foldl_count_up_bucket array counts0 i 0) by (apply Hget0; lia).
      unfold occurrences. rewrite (Permutation_count_occ Z.eq_dec array (seqZ 0 n)) in Hperm.
      rewrite Hperm, count_occ_seqZ. by rewrite decide_True by lia.
    + rewrite Hlen0. apply Forall_forall. intros x Hx.
      rewrite Hperm in Hx. apply elem_of_seqZ in Hx. lia.
Qed.

Lemma isPermutation_counts_bucket (array : list Z) (k : Z) :
  0 <= k < Z.of_nat (length array) ->
  JsArray.get (isPermutation_counts array) (Some k) = Some (Num (occurrences array k)).
Proof.
  intros Hk. unfold isPermutation_counts.
  rewrite (foldl_count_up_bucket array _ k 0); [done|].
  rewrite get_fill_new. by rewrite decide_True by lia.
Qed.

Lemma Permutation_seqZ_occurrences (array : list Z) (n : Z) :
  Z.of_nat (length array) = n ->
  (array ≡ₚ seqZ 0 n) <-> (forall k : Z, 0 <= k < n -> occurrences array k = 1).
Proof.
  intros Hlen. unfold occurrences. split.
  - intros Hperm k Hk.
    rewrite (Permutation_count_occ Z.eq_dec array (seqZ 0 n)) in Hperm.
    rewrite Hperm, count_occ_seqZ. by rewrite decide_True by lia.
  - intros Hocc. symmetry. apply submseteq_length_Permutation.
    + apply NoDup_submseteq; [apply NoDup_seqZ|].
      intros k Hk. apply elem_of_seqZ in Hk.
      apply list_elem_of_In, (count_occ_In Z.eq_dec). specialize (Hocc k). lia.
    + rewrite length_seqZ. lia.
Qed.

(** C4: [isPermutation(array, n)] is true exactly when [array] has length
    [n] and each of [0, .., n-1] occurs in it exactly once. *)
Theorem isPermutation_iff (array : list Z) (n : Z) :
  isPermutation array n = true <->
  Z.of_nat (length array) = n /\
  (forall k : Z, 0 <= k < n -> occurrences array k = 1).
Proof.
  rewrite isPermutation_Permutation. split.
  - intros [Hlen Hperm]. split; [done|]. by apply Permutation_seqZ_occurrences.
  - intros [Hlen Hocc]. split; [done|]. by apply Permutation_seqZ_occurrences.
Qed.

(** An array that is not a rearrangement of [0 .. length - 1] leaves some
    position of that range without an occurrence. *)
Lemma not_Permutation_missing (array : list Z) :
  ~ array ≡ₚ seqZ 0 (Z.of_nat (length array)) ->
  exists k : Z, 0 <= k < Z.of_nat (length array) /\ occurrences array k = 0.
Proof.
  intros Hnperm. set (n := Z.of_nat (length array)) in *.
  destruct (Forall_Exists_dec (fun k => k ∈ array) (fun k => k ∉ array)
              (fun k => decide (k ∈ array)) (seqZ 0 n)) as [Hall|Hex].
  - exfalso. apply Hnperm. symmetry. apply submseteq_length_Permutation.
    + apply NoDup_submseteq; [apply NoDup_seqZ|]. by apply Forall_forall.
    + rewrite length_seqZ. unfold n. lia.
  - apply Exists_exists in Hex as (k & Hk & Hnin).
    exists k. apply elem_of_seqZ in Hk. split; [lia|].
    unfold occurrences.
    assert (Hz : count_occ Z.eq_dec array k = 0%nat).
    { apply count_occ_not_In. by rewrite <- list_elem_of_In. }
    by rewrite Hz.
Qed.

(** C9: an array holding a value that is negative or at least its length
    (and likewise one holding a value twice) is not a permutation:
    [isPermutation(array)] returns [false], since a bucket of [counts] among
    [0 .. array.length - 1] is still [0] when [_.every] reads it. *)
Theorem isPermutation_out_of_range (array : list Z) :
  (exists x : Z, x ∈ array /\ (x < 0 \/ Z.of_nat (length array) <= x))
  \/ ~ NoDup array ->
  isPermutation_default array = false /\
  exists k : Z,
    0 <= k < Z.of_nat (length array) /\
    JsArray.get (isPermutation_counts array) (Some k) = Some (Num 0).
Proof.
  intros Hbad.
  assert (Hnperm : ~ array ≡ₚ seqZ 0 (Z.of_nat (length array))).
  { intros Hperm. destruct Hbad as [(x & Hx & Hout)|Hdup].
    - rewrite Hperm in Hx. apply elem_of_seqZ in Hx. lia.
    - apply Hdup. rewrite Hperm. apply NoDup_seqZ. }
  split.
  - apply not_true_is_false. unfold isPermutation_default.
    rewrite isPermutation_Permutation. by intros [_ Hperm].
  - destruct (not_Permutation_missing array Hnperm) as (k & Hk & Hocc).
    exists k. split; [done|]. by rewrite isPermutation_counts_bucket, Hocc.
Qed.

Lemma isPermutation_out_of_range_witness :
  isPermutation_default [0; 0; 3] = false /\
  exists k : Z,
    0 <= k < Z.of_nat (length [0; 0; 3]) /\
    JsArray.get (isPermutation_counts [0; 0; 3]) (Some k) = Some (Num 0).
Proof.
  apply (isPermutation_out_of_range [0; 0; 3]).
  left. exists 3. split.
  - apply list_elem_of_In. simpl. tauto.
  - right. simpl. lia.
Defined.

(** The out-of-range value lands in a bucket of its own, which holds [NaN]
    and lengthens [counts]. *)
Example isPermutation_counts_0_0_3 :
  JsArray.elements (isPermutation_counts [0; 0; 3])
  = [Some (Num 2); Some (Num 0); Some (Num 0); Some NaN].
Proof. vm_compute. reflexivity. Qed.

(** C3, at [indices = [2]] and [n = 2]: the value [2] is outside
    [{0, 1}], yet nothing is thrown, because [[2; 0; 1]] is a permutation of
    its own length. *)
Example indicesComplement_out_of_range_accepted :
  indicesComplement [2] 2 = Ok [0; 1].
Proof. vm_compute. reflexivity. Qed.

Example indicesComplement_too_long_accepted :
  indicesComplement [0; 1; 2] 2 = Ok [].
Proof. vm_compute. reflexivity. Qed.

Example indicesComplement_1_3 : indicesComplement [1; 3] 5 = Ok [0; 2; 4].
Proof. vm_compute. reflexivity. Qed.

(** ** Complements *)

Lemma StronglySorted_seqZ (m n : Z) : StronglySorted Z.lt (seqZ m n).
Proof.
  remember (Z.to_nat n) as k eqn:Hk. revert m n Hk.
  induction k as [|k IH]; intros m n Hk.
  - rewrite seqZ_nil by lia. constructor.
  - rewrite seqZ_cons by lia. constructor.
    + apply IH. lia.
    + apply Forall_forall. intros x Hx. apply elem_of_seqZ in Hx. lia.
Qed.

Lemma StronglySorted_filter {A : Type} (R : relation A) (P : A -> Prop)
    `{forall x, Decision (P x)} (l : list A) :
  StronglySorted R l -> StronglySorted R (filter P l).
Proof.
  induction 1 as [|x l Hl IH Hx]; [constructor|].
  rewrite filter_cons. destruct (decide (P x)); [|done].
  constructor; [done|]. apply Forall_forall. intros y Hy.
  apply list_elem_of_filter in Hy as [_ Hy].
  by eapply Forall_forall in Hx.
Qed.

(** The list [indicesComplement] computes before it checks anything. *)
Lemma indicesComplement_res (indices : list Z) (n : Z) (res : list Z) :
  indicesComplement indices n = Ok res ->
  res = filter (fun i => i ∉ indices) (lodash_range n).
Proof.
  unfold indicesComplement.
  destruct (isPermutation_default _); [|discriminate]. cbn [negb].
  intros [= <-]. apply list_filter_iff. intros i.
  unfold lodash_includes. rewrite negb_true_iff, bool_decide_eq_false. done.
Qed.

(** X1: whenever [indicesComplement(indices, n)] returns, its result is the
    ascending list of the values of [0 .. n-1] that are not in [indices]. *)
Theorem indicesComplement_returns_sorted_complement (indices : list Z) (n : Z) (res : list Z) :
  0 <= n ->
  indicesComplement indices n = Ok res ->
  StronglySorted Z.lt res /\
  (forall k : Z, k ∈ res <-> 0 <= k < n /\ k ∉ indices).
Proof.
  intros Hn Hres. apply indicesComplement_res in Hres as ->.
  unfold lodash_range. replace (0 <=? n) with true by (symmetry; by apply Z.leb_le).
  split.
  - apply StronglySorted_filter, StronglySorted_seqZ.
  - intros k. rewrite list_elem_of_filter, elem_of_seqZ. split; [intros []|intros []]; split; lia || done.
Qed.

Lemma indicesComplement_returns_sorted_complement_witness :
  StronglySorted Z.lt [0; 2; 4] /\
  (forall k : Z, k ∈ [0; 2; 4] <-> 0 <= k < 5 /\ k ∉ [1; 3]).
Proof.
  apply (indicesComplement_returns_sorted_complement [1; 3] 5 [0; 2; 4]).
  - lia.
  - vm_compute. reflexivity.
Defined.

(** X2, permutation closure: for pairwise distinct [indices] within
    [0 .. n-1], [indicesComplement(indices, n)] returns, and its result
    together with [indices] is a rearrangement of [0 .. n-1]. *)
Theorem indicesComplement_closure (indices : list Z) (n : Z) :
  0 <= n ->
  NoDup indices ->
  (forall x : Z, x ∈ indices -> 0 <= x < n) ->
  exists res : list Z,
    indicesComplement indices n = Ok res /\
    res ++ indices ≡ₚ seqZ 0 n.
Proof.
  intros Hn Hnodup Hrange.
  set (res := filter (fun i => negb (lodash_includes indices i) = true) (lodash_range n)).
  assert (Hres : res = filter (fun i => i ∉ indices) (seqZ 0 n)).
  { unfold res, lodash_range.
    replace (0 <=? n) with true by (symmetry; by apply Z.leb_le).
    apply list_filter_iff. intros i.
    unfold lodash_includes. rewrite negb_true_iff, bool_decide_eq_false. done. }
  assert (Hperm : indices ++ res ≡ₚ seqZ 0 n).
  { apply NoDup_Permutation.
    - apply NoDup_app. split; [done|]. split.
      + intros x Hx. rewrite Hres, list_elem_of_filter. tauto.
      + rewrite Hres. apply NoDup_filter, NoDup_seqZ.
    - apply NoDup_seqZ.
    - intros x. rewrite elem_of_app, Hres, list_elem_of_filter, elem_of_seqZ.
      split.
      + intros [Hx|[_ Hx]]; [specialize (Hrange x Hx)|]; lia.
      + intros Hx. destruct (decide (x ∈ indices)); [by left|right]. split; [done|lia]. }
  exists res. split.
  - unfold indicesComplement. fold res.
    replace (isPermutation_default (indices ++ res)) with true; [done|].
    symmetry. unfold isPermutation_default. apply isPermutation_Permutation.
    assert (Hlen : Z.of_nat (length (indices ++ res)) = n).
    { rewrite (Permutation_length Hperm), length_seqZ. lia. }
    split; [done|]. by rewrite Hlen.
  - by rewrite Permutation_app_comm.
Qed.

Lemma indicesComplement_closure_witness :
  exists res : list Z,
    indicesComplement [3; 1] 5 = Ok res /\
    res ++ [3; 1] ≡ₚ seqZ 0 5.
Proof.
  apply (indicesComplement_closure [3; 1] 5).
  - lia.
  - apply (bool_decide_unpack _). vm_compute. exact I.
  - intros x Hx. apply list_elem_of_In in Hx. simpl in Hx. lia.
Defined.

(** [indicesComplement] either returns the list it computed or throws. *)
Lemma indicesComplement_cases (indices : list Z) (n : Z) :
  let res := filter (fun i => i ∉ indices) (lodash_range n) in
  indicesComplement indices n
  = if isPermutation_default (indices ++ res) then Ok res else Throw NotAPermutation.
Proof.
  cbn zeta. unfold indicesComplement.
  replace (filter (fun i => negb (lodash_includes indices i) = true) (lodash_range n))
    with (filter (fun i => i ∉ indices) (lodash_range n)).
  - by destruct (isPermutation_default _).
  - apply list_filter_iff. intros i.
    unfold lodash_includes. rewrite negb_true_iff, bool_decide_eq_false. done.
Qed.

(** A duplicate-free list of values of [0 .. n-1] of length [n] is a
    rearrangement of [0 .. n-1]. *)
Lemma NoDup_range_Permutation (l : list Z) :
  NoDup l ->
  (forall x : Z, x ∈ l -> 0 <= x < Z.of_nat (length l)) ->
  l ≡ₚ seqZ 0 (Z.of_nat (length l)).
Proof.
  intros Hnodup Hrange. apply submseteq_length_Permutation.
  - apply NoDup_submseteq; [done|]. intros x Hx. apply elem_of_seqZ. specialize (Hrange x Hx). lia.
  - rewrite length_seqZ. lia.
Qed.

(** X4: what [indicesComplement] checks is that [indices] has no duplicate
    and that its values lie in [0 .. L-1], where [L] is the length of
    [indices] and the complement taken together.  [L] is [n] when every
    value is below [n], and grows by one for each distinct value that is
    not. *)
Theorem indicesComplement_Ok_iff (indices : list Z) (n : Z) :
  0 <= n ->
  let res := filter (fun i => i ∉ indices) (seqZ 0 n) in
  (indicesComplement indices n = Ok res <->
     NoDup indices /\
     forall x : Z, x ∈ indices -> 0 <= x < Z.of_nat (length indices + length res))
  /\ (indicesComplement indices n <> Ok res ->
     indicesComplement indices n = Throw NotAPermutation).
Proof.
  intros Hn res.
  pose proof (indicesComplement_cases indices n) as Hcases. cbn zeta in Hcases.
  unfold lodash_range in Hcases.
  replace (0 <=? n) with true in Hcases by (symmetry; by apply Z.leb_le).
  fold res in Hcases. rewrite Hcases.
  split; [|by destruct (isPermutation_default (indices ++ res))].
  assert (Hperm : isPermutation_default (indices ++ res) = true <->
            indices ++ res ≡ₚ seqZ 0 (Z.of_nat (length (indices ++ res)))).
  { unfold isPermutation_default. rewrite isPermutation_Permutation. tauto. }
  destruct (isPermutation_default (indices ++ res)) eqn:Hp.
  - split; [intros _|done]. destruct Hperm as [Hperm _]. specialize (Hperm eq_refl).
    split.
    + assert (Hnd : NoDup (indices ++ res)) by (rewrite Hperm; apply NoDup_seqZ).
      by apply NoDup_app in Hnd as [? _].
    + intros x Hx. rewrite <- length_app.
      assert (Hin : x ∈ indices ++ res) by (apply elem_of_app; by left).
      rewrite Hperm in Hin. apply elem_of_seqZ in Hin. lia.
  - split; [done|]. intros [Hnodup Hrange]. exfalso.
    assert (Htrue : false = true); [|done]. apply Hperm.
    (* the values of [0 .. n-1] split into those in [indices] and the rest *)
    assert (Hsplit : filter (fun i => i ∈ indices) (seqZ 0 n) ++ res ≡ₚ seqZ 0 n).
    { unfold res. apply filter_app_complement. }
    assert (Hle : (length (filter (fun i => i ∈ indices) (seqZ 0 n)) <= length indices)%nat).
    { apply submseteq_length, NoDup_submseteq.
      - apply NoDup_filter, NoDup_seqZ.
      - intros x Hx. by apply list_elem_of_filter in Hx as [? _]. }
    assert (Hlen : n <= Z.of_nat (length indices + length res)).
    { apply Permutation_length in Hsplit. rewrite length_app, length_seqZ in Hsplit. lia. }
    apply NoDup_range_Permutation.
    + apply NoDup_app. split; [done|]. split.
      * intros x Hx. unfold res. rewrite list_elem_of_filter. tauto.
      * unfold res. apply NoDup_filter, NoDup_seqZ.
    + intros x Hx. rewrite length_app. apply elem_of_app in Hx as [Hx|Hx]; [by apply Hrange|].
      unfold res in Hx. apply list_elem_of_filter in Hx as [_ Hx].
      apply elem_of_seqZ in Hx. fold res. lia.
Qed.

Lemma indicesComplement_Ok_iff_witness :
  let res := filter (fun i => i ∉ [2]) (seqZ 0 2) in
  (indicesComplement [2] 2 = Ok res <->
     NoDup [2] /\
     forall x : Z, x ∈ [2] -> 0 <= x < Z.of_nat (length [2] + length res))
  /\ (indicesComplement [2] 2 <> Ok res ->
     indicesComplement [2] 2 = Throw NotAPermutation).
Proof.
  apply (indicesComplement_Ok_iff [2] 2). lia.
Defined.

(** ** Merging coordinates *)

Lemma get_set {A : Type} (a : JsArray.t A) (k k' : option Z) (v : A) :
  JsArray.get (JsArray.set a k v) k'
  = if decide (k = k') then Some v else JsArray.get a k'.
Proof.
  unfold JsArray.get, JsArray.set. cbn [JsArray.props].
  destruct (decide (k = k')) as [->|Hne].
  - apply lookup_insert_eq.
  - by apply lookup_insert_ne.
Qed.

Lemma get_of_list {A : Type} (l : list A) (k : option Z) :
  JsArray.get (JsArray.of_list l) k
  = match k with
    | Some z => if decide (0 <= z) then l !! Z.to_nat z else None
    | None => None
    end.
Proof.
  unfold JsArray.get, JsArray.of_list. cbn [JsArray.props].
  set (keys := Some <$> seqZ 0 (Z.of_nat (length l))).
  assert (Hkeys : forall i : nat, keys !! i = (fun _ => Some (Z.of_nat i)) <$> l !! i).
  { intros i. unfold keys. rewrite list_lookup_fmap.
    destruct (l !! i) as [x|] eqn:Hi.
    - apply lookup_lt_Some in Hi. rewrite lookup_seqZ_lt by lia. simpl. do 2 f_equal.
    - apply lookup_ge_None in Hi. rewrite lookup_seqZ_ge by lia. done. }
  assert (Hnodup : NoDup keys).
  { unfold keys. apply (NoDup_fmap_2 _), NoDup_seqZ. }
  destruct (list_to_map (zip keys l) !! k) as [x|] eqn:Hlook.
  - apply elem_of_list_to_map in Hlook.
    2:{ rewrite fst_zip; [done|]. unfold keys. rewrite length_fmap, length_seqZ. lia. }
    apply list_elem_of_lookup in Hlook as [i Hi].
    apply lookup_zip_with_Some in Hi as (k0 & x0 & [= <- <-] & Hk & Hx).
    rewrite Hkeys, Hx in Hk. injection Hk as <-.
    rewrite decide_True by lia. by rewrite Nat2Z.id.
  - apply not_elem_of_list_to_map in Hlook.
    rewrite fst_zip in Hlook by (unfold keys; rewrite length_fmap, length_seqZ; lia).
    destruct k as [z|]; [|done].
    destruct (decide (0 <= z)) as [Hz|Hz]; [|done].
    destruct (l !! Z.to_nat z) as [x|] eqn:Hx; [|done].
    exfalso. apply Hlook. apply list_elem_of_lookup. exists (Z.to_nat z).
    rewrite Hkeys, Hx. simpl. do 2 f_equal. lia.
Qed.

(** Keys that [place] does not write keep their value. *)
Lemma get_place_other (targets xs : list Z) (i : nat) (coord : JsArray.t Z) (key : option Z) :
  (forall j : nat, (i <= j < i + length xs)%nat -> targets !! j <> key) ->
  JsArray.get (place targets i xs coord) key = JsArray.get coord key.
Proof.
  revert i coord. induction xs as [|c rest IH]; intros i coord Hother; [done|].
  cbn [place]. rewrite IH.
  - rewrite get_set, decide_False; [done|]. apply Hother. simpl. lia.
  - intros j Hj. apply Hother. simpl. lia.
Qed.

(** With pairwise distinct targets, the value placed at a target stays. *)
Lemma get_place_at (targets xs : list Z) (i j : nat) (coord : JsArray.t Z) (k : Z) :
  NoDup targets ->
  targets !! j = Some k ->
  (i <= j < i + length xs)%nat ->
  JsArray.get (place targets i xs coord) (Some k) = xs !! (j - i)%nat.
Proof.
  intros Hnodup Hj. revert i coord. induction xs as [|c rest IH]; intros i coord Hij.
  - simpl in Hij. lia.
  - cbn [place]. destruct (decide (i = j)) as [->|Hne].
    + rewrite get_place_other.
      * rewrite Hj, get_set, decide_True by done. by rewrite Nat.sub_diag.
      * intros j' Hj' Heq.
        pose proof (NoDup_lookup _ _ _ _ Hnodup Heq Hj). lia.
    + rewrite IH by (simpl in Hij; lia).
      replace (j - i)%nat with (S (j - S i)) by lia. done.
Qed.

Lemma length_place (targets xs : list Z) (i : nat) (coord : JsArray.t Z) :
  (forall (j : nat) (k : Z), (i <= j)%nat -> targets !! j = Some k -> k < JsArray.length coord) ->
  JsArray.length (place targets i xs coord) = JsArray.length coord.
Proof.
  revert i coord. induction xs as [|c rest IH]; intros i coord Hin; [done|].
  cbn [place].
  assert (Hlen : JsArray.length (JsArray.set coord (targets !! i) c) = JsArray.length coord).
  { unfold JsArray.set. cbn [JsArray.length].
    destruct (targets !! i) as [k|] eqn:Hk; [|done].
    specialize (Hin i k ltac:(lia) Hk). destruct (JsArray.is_index k); lia. }
  rewrite IH; [done|]. intros j k Hj Hk. rewrite Hlen. apply (Hin j); [lia|done].
Qed.

Lemma JsArray_eq {A : Type} (a b : JsArray.t A) :
  JsArray.length a = JsArray.length b ->
  (forall k : option Z, JsArray.get a k = JsArray.get b k) ->
  a = b.
Proof.
  destruct a as [la pa], b as [lb pb]. unfold JsArray.get. cbn.
  intros -> Hget. f_equal. by apply map_eq.
Qed.

Lemma partition_NoDup (selectedIndices complementIndices : list Z) (n : Z) :
  selectedIndices ++ complementIndices ≡ₚ seqZ 0 n ->
  NoDup selectedIndices /\ NoDup complementIndices /\
  (forall k : Z, k ∈ selectedIndices -> k ∉ complementIndices).
Proof.
  intros Hpart.
  assert (Hnodup : NoDup (selectedIndices ++ complementIndices)).
  { rewrite Hpart. apply NoDup_seqZ. }
  apply NoDup_app in Hnodup as (H1 & H2 & H3). done.
Qed.

Lemma partition_range (selectedIndices complementIndices : list Z) (n k : Z) :
  selectedIndices ++ complementIndices ≡ₚ seqZ 0 n ->
  k ∈ selectedIndices ++ complementIndices <-> 0 <= k < n.
Proof. intros ->. rewrite elem_of_seqZ. lia. Qed.

Lemma partition_in_range (selectedIndices complementIndices : list Z) (n k : Z) :
  selectedIndices ++ complementIndices ≡ₚ seqZ 0 n ->
  k ∈ selectedIndices ++ complementIndices -> 0 <= k < n.
Proof. intros Hpart. by apply partition_range. Qed.

Section JoinCoords.
Variables (selectedIndices complementIndices groupCoords selectedCoords : list Z).

Let n : nat := (length selectedIndices + length complementIndices)%nat.
Let joined : JsArray.t Z :=
  joinCoordsFunc selectedIndices complementIndices groupCoords selectedCoords.

Hypothesis partition : selectedIndices ++ complementIndices ≡ₚ seqZ 0 (Z.of_nat n).
Hypothesis group_length : length groupCoords = length complementIndices.
Hypothesis selected_length : length selectedCoords = length selectedIndices.

Lemma joined_length : JsArray.length joined = Z.of_nat n.
Proof.
  unfold joined, joinCoordsFunc. rewrite !length_place; [done| |].
  - intros j k _ Hk. cbn [JsArray.new JsArray.length]. fold n.
    apply (partition_in_range _ _ _ _ partition), elem_of_app. right. by eapply list_elem_of_lookup_2.
  - intros j k _ Hk.
    rewrite length_place.
    + cbn [JsArray.new JsArray.length]. fold n.
      apply (partition_in_range _ _ _ _ partition), elem_of_app. left. by eapply list_elem_of_lookup_2.
    + intros j' k' _ Hk'. cbn [JsArray.new JsArray.length]. fold n.
      apply (partition_in_range _ _ _ _ partition), elem_of_app. right. by eapply list_elem_of_lookup_2.
Qed.

Lemma joined_at_complement (i : nat) (k : Z) :
  complementIndices !! i = Some k ->
  JsArray.get joined (Some k) = groupCoords !! i.
Proof.
  intros Hk. destruct (partition_NoDup _ _ _ partition) as (Hsel & Hcomp & Hdisj).
  unfold joined, joinCoordsFunc. rewrite get_place_other.
  - rewrite (get_place_at complementIndices groupCoords 0 i) by
      (try done; apply lookup_lt_Some in Hk; lia).
    by rewrite Nat.sub_0_r.
  - intros j _ Hj. apply (Hdisj k); by eapply list_elem_of_lookup_2.
Qed.

Lemma joined_at_selected (i : nat) (k : Z) :
  selectedIndices !! i = Some k ->
  JsArray.get joined (Some k) = selectedCoords !! i.
Proof.
  intros Hk. destruct (partition_NoDup _ _ _ partition) as (Hsel & _ & _).
  unfold joined, joinCoordsFunc.
  rewrite (get_place_at selectedIndices selectedCoords 0 i) by
    (try done; apply lookup_lt_Some in Hk; lia).
  by rewrite Nat.sub_0_r.
Qed.

Lemma joined_elsewhere (key : option Z) :
  (forall k : Z, key = Some k -> ~ 0 <= k < Z.of_nat n) ->
  JsArray.get joined key = None.
Proof.
  intros Hkey. unfold joined, joinCoordsFunc. rewrite !get_place_other.
  - apply lookup_empty.
  - intros j Hj Heq. destruct key as [k|].
    + apply (Hkey k eq_refl), (partition_in_range _ _ _ _ partition), elem_of_app. right.
      by eapply list_elem_of_lookup_2.
    + apply lookup_ge_None in Heq. lia.
  - intros j Hj Heq. destruct key as [k|].
    + apply (Hkey k eq_refl), (partition_in_range _ _ _ _ partition), elem_of_app. left.
      by eapply list_elem_of_lookup_2.
    + apply lookup_ge_None in Heq. lia.
Qed.

Lemma joined_in_range (k : Z) :
  0 <= k < Z.of_nat n -> is_Some (JsArray.get joined (Some k)).
Proof.
  intros Hk. apply (partition_range _ _ _ _ partition), elem_of_app in Hk as [Hk|Hk];
    apply list_elem_of_lookup in Hk as [i Hi].
  - rewrite (joined_at_selected i k Hi). apply lookup_lt_is_Some.
    apply lookup_lt_Some in Hi. lia.
  - rewrite (joined_at_complement i k Hi). apply lookup_lt_is_Some.
    apply lookup_lt_Some in Hi. lia.
Qed.

(** The merged array has no hole and no stray property: it is an array
    literal. *)
Lemma joined_of_list :
  exists fullCoords : list Z,
    joined = JsArray.of_list fullCoords /\
    length fullCoords = n /\
    forall k : Z, 0 <= k < Z.of_nat n ->
      JsArray.get joined (Some k) = fullCoords !! Z.to_nat k.
Proof.
  set (full := (fun k => default 0 (JsArray.get joined (Some k))) <$> seqZ 0 (Z.of_nat n)).
  assert (Hlen : length full = n).
  { unfold full. rewrite length_fmap, length_seqZ. lia. }
  assert (Hfull : forall k : Z, 0 <= k < Z.of_nat n ->
            JsArray.get joined (Some k) = full !! Z.to_nat k).
  { intros k Hk. unfold full. rewrite list_lookup_fmap, lookup_seqZ_lt by lia.
    cbn [fmap option_fmap option_map]. rewrite Z2Nat.id, Z.add_0_l by lia.
    by destruct (joined_in_range k Hk) as [v ->]. }
  exists full. split; [|done].
  apply JsArray_eq.
  - rewrite joined_length. unfold JsArray.of_list. cbn [JsArray.length]. lia.
  - intros key. rewrite get_of_list. destruct key as [k|].
    + destruct (decide (0 <= k)) as [Hk0|Hk0].
      * destruct (decide (k < Z.of_nat n)) as [Hkn|Hkn]; [apply Hfull; lia|].
        rewrite joined_elsewhere by (intros ? [= <-]; lia).
        symmetry. apply lookup_ge_None. lia.
      * apply joined_elsewhere. intros ? [= <-]. lia.
    + by apply joined_elsewhere.
Qed.

End JoinCoords.

Lemma length_project (coord indices : list Z) :
  length (project coord indices) = length indices.
Proof. unfold project. apply length_fmap. Qed.

Lemma project_lookup (coord indices : list Z) (i : nat) (k : Z) :
  indices !! i = Some k ->
  0 <= k < Z.of_nat (length coord) ->
  project coord indices !! i = coord !! Z.to_nat k.
Proof.
  intros Hi Hk. unfold project. rewrite list_lookup_fmap, Hi. simpl.
  symmetry. apply list_lookup_lookup_total_lt. lia.
Qed.

(** C5: for index tuples that together partition [0 .. n-1], the merge
    function built by [joinCoordsFunc] returns the full tuple of length [n]
    holding [groupCoords[i]] at position [complementIndices[i]] and
    [selectedCoords[i]] at position [selectedIndices[i]]; merging the two
    projections of a full tuple gives that tuple back. *)
Theorem joinCoordsFunc_partition (selectedIndices complementIndices : list Z) :
  selectedIndices ++ complementIndices
    ≡ₚ seqZ 0 (Z.of_nat (length selectedIndices + length complementIndices)) ->
  (forall groupCoords selectedCoords : list Z,
     length groupCoords = length complementIndices ->
     length selectedCoords = length selectedIndices ->
     exists fullCoords : list Z,
       joinCoordsFunc selectedIndices complementIndices groupCoords selectedCoords
         = JsArray.of_list fullCoords /\
       length fullCoords = (length selectedIndices + length complementIndices)%nat /\
       (forall (i : nat) (k : Z), complementIndices !! i = Some k ->
          fullCoords !! Z.to_nat k = groupCoords !! i) /\
       (forall (i : nat) (k : Z), selectedIndices !! i = Some k ->
          fullCoords !! Z.to_nat k = selectedCoords !! i))
  /\ (forall fullCoords : list Z,
     length fullCoords = (length selectedIndices + length complementIndices)%nat ->
     joinCoordsFunc selectedIndices complementIndices
       (project fullCoords complementIndices) (project fullCoords selectedIndices)
     = JsArray.of_list fullCoords).
Proof.
  intros Hpart.
  assert (Hplaces : forall groupCoords selectedCoords : list Z,
     length groupCoords = length complementIndices ->
     length selectedCoords = length selectedIndices ->
     exists fullCoords : list Z,
       joinCoordsFunc selectedIndices complementIndices groupCoords selectedCoords
         = JsArray.of_list fullCoords /\
       length fullCoords = (length selectedIndices + length complementIndices)%nat /\
       (forall (i : nat) (k : Z), complementIndices !! i = Some k ->
          fullCoords !! Z.to_nat k = groupCoords !! i) /\
       (forall (i : nat) (k : Z), selectedIndices !! i = Some k ->
          fullCoords !! Z.to_nat k = selectedCoords !! i)).
  { intros g s Hg Hs.
    destruct (joined_of_list selectedIndices complementIndices g s Hpart Hg Hs)
      as (full & Heq & Hlen & Hget).
    exists full. split; [done|]. split; [done|]. split.
    - intros i k Hk. rewrite <- Hget.
      + by apply joined_at_complement.
      + apply (partition_in_range _ _ _ _ Hpart), elem_of_app.
        right. by eapply list_elem_of_lookup_2.
    - intros i k Hk. rewrite <- Hget.
      + by apply joined_at_selected.
      + apply (partition_in_range _ _ _ _ Hpart), elem_of_app.
        left. by eapply list_elem_of_lookup_2. }
  split; [done|].
  intros coord Hcoord.
  destruct (Hplaces (project coord complementIndices) (project coord selectedIndices))
    as (full & -> & Hlen & Hcomp & Hsel); [apply length_project..|].
  f_equal. apply list_eq. intros p.
  destruct (decide (p < length coord)%nat) as [Hp|Hp].
  - assert (Hin : Z.of_nat p ∈ selectedIndices ++ complementIndices).
    { apply (partition_range _ _ _ _ Hpart). lia. }
    apply elem_of_app in Hin as [Hin|Hin]; apply list_elem_of_lookup in Hin as [i Hi].
    + specialize (Hsel i _ Hi). rewrite Nat2Z.id in Hsel. rewrite Hsel.
      rewrite (project_lookup coord selectedIndices i (Z.of_nat p)) by (done || lia).
      by rewrite Nat2Z.id.
    + specialize (Hcomp i _ Hi). rewrite Nat2Z.id in Hcomp. rewrite Hcomp.
      rewrite (project_lookup coord complementIndices i (Z.of_nat p)) by (done || lia).
      by rewrite Nat2Z.id.
  - rewrite !lookup_ge_None_2; [done|lia|lia].
Qed.

Lemma joinCoordsFunc_partition_witness :
  (forall groupCoords selectedCoords : list Z,
     length groupCoords = length [0; 2; 4] ->
     length selectedCoords = length [3; 1] ->
     exists fullCoords : list Z,
       joinCoordsFunc [3; 1] [0; 2; 4] groupCoords selectedCoords
         = JsArray.of_list fullCoords /\
       length fullCoords = (length [3; 1] + length [0; 2; 4])%nat /\
       (forall (i : nat) (k : Z), [0; 2; 4] !! i = Some k ->
          fullCoords !! Z.to_nat k = groupCoords !! i) /\
       (forall (i : nat) (k : Z), [3; 1] !! i = Some k ->
          fullCoords !! Z.to_nat k = selectedCoords !! i))
  /\ (forall fullCoords : list Z,
     length fullCoords = (length [3; 1] + length [0; 2; 4])%nat ->
     joinCoordsFunc [3; 1] [0; 2; 4]
       (project fullCoords [0; 2; 4]) (project fullCoords [3; 1])
     = JsArray.of_list fullCoords).
Proof.
  apply (joinCoordsFunc_partition [3; 1] [0; 2; 4]).
  apply (bool_decide_unpack _). vm_compute. exact I.
Defined.

Example joinCoordsFunc_doc :
  joinCoordsFunc [3; 1] [0; 2; 4] [2; 3; 5] [7; 11] = JsArray.of_list [2; 11; 3; 7; 5].
Proof. vm_compute. reflexivity. Qed.

(** ** binary64 arithmetic *)

Lemma SFadd_comm (x y : spec_float) : SF64add x y = SF64add y x.
Proof.
  unfold SF64add, SFadd.
  destruct x as [sx|sx| |sx mx ex], y as [sy|sy| |sy my ey]; try reflexivity;
    try (destruct sx, sy; reflexivity).
  rewrite (Z.min_comm ey ex). f_equal. apply Z.add_comm.
Qed.

Lemma SFmul_comm (x y : spec_float) : SF64mul x y = SF64mul y x.
Proof.
  unfold SF64mul, SFmul.
  destruct x as [sx|sx| |sx mx ex], y as [sy|sy| |sy my ey]; try reflexivity;
    try (destruct sx, sy; reflexivity).
  by rewrite (xorb_comm sy sx), (Pos.mul_comm my mx), (Z.add_comm ey ex).
Qed.

Lemma float_add_comm (x y : float) : (x + y)%float = (y + x)%float.
Proof. apply Prim2SF_inj. rewrite !add_spec. apply SFadd_comm. Qed.

Lemma float_mul_comm (x y : float) : (x * y)%float = (y * x)%float.
Proof. apply Prim2SF_inj. rewrite !mul_spec. apply SFmul_comm. Qed.

(** ** Complex division *)

Lemma div_binary64 (z1 z2 : Complex.Complex float) :
  Complex.div z1 z2
  = if PrimFloat.eqb (Complex.abs2 z2) 0 then Throw DivisionByZero
    else Ok (Complex.quotient z1 z2).
Proof.
  unfold Complex.div, Complex.quotient, Complex.abs2. cbn.
  rewrite (float_add_comm (Complex.im z2 * Complex.im z2)).
  by rewrite (float_mul_comm (Complex.re z2) (Complex.im z1)).
Qed.

Lemma div_exact (z1 z2 : Complex.Complex R) :
  Complex.abs2 z2 <> 0%R ->
  exists q : Complex.Complex R,
    Complex.div z1 z2 = Ok q /\ Complex.mul q z2 = z1.
Proof.
  destruct z1 as [a b], z2 as [c d]. unfold Complex.abs2, Complex.div, Complex.mul. cbn.
  intros Hnz.
  assert (Hdenom : (d * d + c * c)%R <> 0%R) by (by rewrite Rplus_comm).
  destruct (Req_dec_T (d * d + c * c) 0) as [Hz|_]; [done|].
  eexists. split; [reflexivity|]. cbn. f_equal; field; done.
Qed.

(** C6: [z1.div(z2)] throws, and then it is a division by zero, exactly when
    the squared magnitude of [z2] is zero; [Complex(1,0).div(Complex(0,0))]
    throws; otherwise [div] returns the textbook quotient, which in exact
    arithmetic is the number whose product with [z2] is [z1]. *)
Theorem div_DivisionByZero_iff :
  (forall z1 z2 : Complex.Complex float,
     (forall e : Error, Complex.div z1 z2 = Throw e ->
        e = DivisionByZero /\ PrimFloat.eqb (Complex.abs2 z2) 0 = true) /\
     (PrimFloat.eqb (Complex.abs2 z2) 0 = true ->
        Complex.div z1 z2 = Throw DivisionByZero) /\
     (PrimFloat.eqb (Complex.abs2 z2) 0 = false ->
        Complex.div z1 z2 = Ok (Complex.quotient z1 z2)))
  /\ Complex.div (Complex.Cx 1%float 0%float) (Complex.Cx 0%float 0%float)
     = Throw DivisionByZero
  /\ (forall z1 z2 : Complex.Complex R,
     (Complex.div z1 z2 = Throw DivisionByZero <-> Complex.abs2 z2 = 0%R) /\
     (Complex.abs2 z2 <> 0%R ->
        exists q : Complex.Complex R,
          Complex.div z1 z2 = Ok q /\ q = Complex.quotient z1 z2 /\
          Complex.mul q z2 = z1)).
Proof.
  split; [|split].
  - intros z1 z2. rewrite div_binary64.
    destruct (PrimFloat.eqb (Complex.abs2 z2) 0).
    + split; [by intros e [= <-]|]. by split.
    + split; [by intros e|]. by split.
  - reflexivity.
  - intros z1 z2. split.
    + destruct z1 as [a b], z2 as [c d]. unfold Complex.abs2, Complex.div. cbn.
      rewrite (Rplus_comm (c * c)).
      destruct (Req_dec_T (d * d + c * c) 0) as [Hz|Hnz]; split; done.
    + intros Hnz. destruct (div_exact z1 z2 Hnz) as (q & Hq & Hmul).
      exists q. split; [done|]. split; [|done].
      destruct z1 as [a b], z2 as [c d].
      unfold Complex.abs2, Complex.div, Complex.quotient in *. cbn in *.
      destruct (Req_dec_T (d * d + c * c) 0) as [Hz|_]; [done|].
      injection Hq as <-. f_equal.
      * by rewrite (Rplus_comm (d * d)).
      * by rewrite (Rplus_comm (d * d)), (Rmult_comm c b).
Qed.

(** A divisor that is not zero but whose squared magnitude underflows to
    zero: 1e-200. *)
Example div_underflow :
  Complex.div (Complex.Cx 1%float 0%float) (Complex.Cx 0x1.87e92154ef7acp-665%float 0%float)
  = Throw DivisionByZero.
Proof. reflexivity. Qed.

(** ** The two multiplications *)


(** ** Rounding in binary64 addition *)

Lemma digits2_pos_size (p : positive) : digits2_pos p = Pos.size p.
Proof. induction p as [p IH|p IH|]; simpl; by rewrite ?IH. Qed.

Lemma digits2_pos_bounds (p : positive) :
  2 ^ (Z.pos (digits2_pos p) - 1) <= Z.pos p < 2 ^ Z.pos (digits2_pos p).
Proof.
  rewrite digits2_pos_size.
  pose proof (Pos.size_gt p) as Hgt. pose proof (Pos.size_le p) as Hle.
  apply Pos2Z.pos_lt_pos in Hgt. apply Pos2Z.pos_le_pos in Hle.
  rewrite Pos2Z.inj_pow in Hgt, Hle.
  split; [|done].
  replace (Z.pos (Pos.size p)) with (Z.succ (Z.pos (Pos.size p) - 1)) in Hle by lia.
  rewrite Z.pow_succ_r in Hle by lia. lia.
Qed.

Lemma digits2_pos_unique (p : positive) (d : Z) :
  2 ^ (d - 1) <= Z.pos p < 2 ^ d -> Z.pos (digits2_pos p) = d.
Proof.
  intros [Hlo Hhi]. pose proof (digits2_pos_bounds p) as [Hlo' Hhi'].
  assert (0 < d).
  { destruct (Z.lt_trichotomy d 0) as [Hd|[->|Hd]]; [|simpl in Hhi; lia|done].
    rewrite Z.pow_neg_r in Hhi; lia. }
  destruct (Z.lt_trichotomy (Z.pos (digits2_pos p)) d) as [Hlt|[Heq|Hgt]]; [|done|].
  - assert (2 ^ Z.pos (digits2_pos p) <= 2 ^ (d - 1)) by (apply Z.pow_le_mono_r; lia). lia.
  - assert (2 ^ d <= 2 ^ (Z.pos (digits2_pos p) - 1)) by (apply Z.pow_le_mono_r; lia). lia.
Qed.

Lemma shr_m_shr_1 (mrs : shr_record) :
  0 <= shr_m mrs -> shr_m (shr_1 mrs) = shr_m mrs / 2.
Proof.
  destruct mrs as [m r s]. simpl. intros Hm.
  destruct m as [|[p|p|]|p]; simpl; try lia; try done.
  - rewrite Pos2Z.inj_xI. symmetry. rewrite Z.add_comm, Z.mul_comm. rewrite Z.div_add by lia. done.
  - rewrite Pos2Z.inj_xO. symmetry. rewrite Z.mul_comm. by apply Z.div_mul.
Qed.

Lemma shr_m_iter_pos (k : positive) (mrs : shr_record) :
  0 <= shr_m mrs ->
  shr_m (SpecFloat.iter_pos shr_1 k mrs) = shr_m mrs / 2 ^ Z.pos k.
Proof.
  revert mrs. induction k as [k IH|k IH|]; intros mrs Hm; cbn [SpecFloat.iter_pos].
  - assert (H1 : 0 <= shr_m (shr_1 mrs)).
    { rewrite shr_m_shr_1 by done. apply Z.div_pos; lia. }
    assert (H2 : 0 <= shr_m (SpecFloat.iter_pos shr_1 k (shr_1 mrs))).
    { rewrite IH by done. apply Z.div_pos; lia. }
    rewrite IH, IH, shr_m_shr_1 by done.
    rewrite !Z.div_div by lia. f_equal.
    replace (Z.pos k~1) with (1 + Z.pos k + Z.pos k) by lia.
    rewrite !Z.pow_add_r by lia. change (2 ^ 1) with 2. lia.
  - assert (H2 : 0 <= shr_m (SpecFloat.iter_pos shr_1 k mrs)).
    { rewrite IH by done. apply Z.div_pos; lia. }
    rewrite IH, IH by done.
    rewrite !Z.div_div by lia. f_equal.
    replace (Z.pos k~0) with (Z.pos k + Z.pos k) by lia.
    rewrite !Z.pow_add_r by lia. lia.
  - rewrite shr_m_shr_1 by done. done.
Qed.

Lemma round_nearest_even_bounds (m : Z) (l : location) :
  m <= round_nearest_even m l <= m + 1.
Proof.
  destruct l as [|[| |]]; simpl; try lia. destruct (Z.even m); lia.
Qed.

Lemma fexp_normal (d e : Z) :
  53 <= d -> -1074 <= e -> fexp prec emax (d + e) = d + e - 53.
Proof. intros. unfold fexp, emin, prec, emax. lia. Qed.

Lemma shr_fexp_shift (p : positive) (e k : Z) (l : location) :
  Z.pos (digits2_pos p) = 53 + k -> 0 <= k -> -1074 <= e ->
  shr_fexp prec emax (Z.pos p) e l
  = shr (shr_record_of_loc (Z.pos p) l) e k.
Proof.
  intros Hd Hk He. unfold shr_fexp. cbn [Zdigits2].
  rewrite fexp_normal by lia. f_equal. lia.
Qed.

Lemma shr_pos (mrs : shr_record) (e k : Z) :
  0 < k -> shr mrs e k = (SpecFloat.iter_pos shr_1 (Z.to_pos k) mrs, e + k).
Proof. intros Hk. destruct k; [lia| |lia]. reflexivity. Qed.

Lemma binary_round_below (s M : positive) (e E : Z) :
  -1074 <= e -> e <= E <= 971 ->
  2 ^ 52 <= Z.pos s ->
  2 ^ 52 <= Z.pos M < 2 ^ 53 ->
  Z.pos s < Z.pos M * 2 ^ (E - e) ->
  exists (m' : positive) (e' : Z),
    binary_round prec emax false s e = S754_finite false m' e' /\
    (e' < E \/ (e' = E /\ Z.pos m' <= Z.pos M)).
Proof.
  intros He HE Hs HM Hlt.
  pose proof (digits2_pos_bounds s) as [Hdlo Hdhi].
  set (D := Z.pos (digits2_pos s)) in *.
  assert (HD : 53 <= D).
  { destruct (Z_lt_le_dec D 53) as [Hlt53|]; [|done].
    assert (2 ^ D <= 2 ^ 52) by (apply Z.pow_le_mono_r; lia). lia. }
  set (k := D - 53).
  (* the exponent of the result is at most E *)
  assert (HkE : e + k <= E).
  { destruct (Z_lt_le_dec E (e + k)) as [Hgt|]; [|lia].
    assert (2 ^ (53 + (E - e)) <= 2 ^ (D - 1)) by (apply Z.pow_le_mono_r; lia).
    rewrite Z.pow_add_r in H by lia.
    assert (0 < 2 ^ (E - e)) by (apply Z.pow_pos_nonneg; lia). nia. }
  unfold binary_round. rewrite fexp_normal by (fold D; lia).
  unfold shl_align. fold D.
  replace (D + e - 53 - e) with k by (unfold k; lia).
  assert (Hk0 : 0 <= k) by (unfold k; lia).
  replace (match k with Z.neg d => (Pos.iter xO s d, D + e - 53) | _ => (s, e) end)
    with (s, e) by (destruct k; [done|done|lia]).
  unfold binary_round_aux.
  rewrite (shr_fexp_shift s e k) by (fold D; unfold k; lia).
  destruct (Z.eq_dec k 0) as [Hkz|Hkz].
  - (* the sum fits: nothing is rounded *)
    rewrite Hkz. cbn [shr shr_record_of_loc shr_m loc_of_shr_record round_nearest_even].
    rewrite (shr_fexp_shift s e 0) by (fold D; unfold k in Hkz; lia).
    cbn [shr shr_record_of_loc shr_m].
    replace (e <=? emax - prec) with true by (symmetry; apply Z.leb_le; unfold emax, prec; lia).
    exists s, e. split; [done|].
    destruct (Z.eq_dec e E) as [->|]; [right|left; lia].
    split; [done|]. rewrite Z.sub_diag in Hlt. simpl in Hlt. lia.
  - rewrite shr_pos by lia.
    set (mrs := SpecFloat.iter_pos shr_1 (Z.to_pos k) (shr_record_of_loc (Z.pos s) loc_Exact)).
    assert (Hm1 : shr_m mrs = Z.pos s / 2 ^ k).
    { unfold mrs. rewrite shr_m_iter_pos by (simpl; lia). simpl. by rewrite Z2Pos.id by lia. }
    assert (Hpow : 2 ^ (D - 1) = 2 ^ 52 * 2 ^ k /\ 2 ^ D = 2 ^ 53 * 2 ^ k).
    { rewrite <- !Z.pow_add_r by lia. split; f_equal; unfold k; lia. }
    destruct Hpow as [Hp1 Hp2].
    assert (Hkpos : 0 < 2 ^ k) by (apply Z.pow_pos_nonneg; lia).
    assert (Hm1b : 2 ^ 52 <= shr_m mrs < 2 ^ 53).
    { rewrite Hm1. split.
      - apply Z.div_le_lower_bound; lia.
      - apply Z.div_lt_upper_bound; lia. }
    assert (Hm1E : e + k = E -> shr_m mrs < Z.pos M).
    { intros HeE. rewrite Hm1. apply Z.div_lt_upper_bound; [lia|].
      replace (E - e) with k in Hlt by lia. lia. }
    pose proof (round_nearest_even_bounds (shr_m mrs) (loc_of_shr_record mrs)) as Hrnd.
    set (m' := round_nearest_even (shr_m mrs) (loc_of_shr_record mrs)) in *.
    destruct m' as [|p'|p'] eqn:Hm'; [lia| |lia].
    destruct (Z.eq_dec (Z.pos p') (2 ^ 53)) as [Hcarry|Hnocarry].
    + (* rounding up carried into a 54th digit *)
      assert (Hd' : Z.pos (digits2_pos p') = 53 + 1).
      { apply digits2_pos_unique. rewrite Hcarry. simpl. lia. }
      rewrite (shr_fexp_shift p' (e + k) 1) by (done || lia).
      cbn [shr SpecFloat.iter_pos shr_record_of_loc].
      injection Hcarry as ->. cbn [shr_1 shr_m].
      assert (He' : e + k < E).
      { destruct (Z.eq_dec (e + k) E) as [HeE|]; [|lia]. specialize (Hm1E HeE). lia. }
      replace (e + k + 1 <=? emax - prec) with true
        by (symmetry; apply Z.leb_le; unfold emax, prec; lia).
      eexists _, _. split; [reflexivity|].
      destruct (Z.eq_dec (e + k + 1) E) as [HeE|]; [right|left; lia].
      split; [done|]. change (Z.pos 4503599627370496) with (2 ^ 52). lia.
    + assert (Hd' : Z.pos (digits2_pos p') = 53 + 0).
      { apply digits2_pos_unique. simpl. lia. }
      rewrite (shr_fexp_shift p' (e + k) 0) by (done || lia).
      cbn [shr shr_record_of_loc shr_m].
      replace (e + k <=? emax - prec) with true
        by (symmetry; apply Z.leb_le; unfold emax, prec; lia).
      eexists _, _. split; [reflexivity|].
      destruct (Z.eq_dec (e + k) E) as [HeE|]; [right|left; lia].
      split; [done|]. specialize (Hm1E HeE). lia.
Qed.

Lemma Prim2SF_TAU : Prim2SF JsNumber.TAU_binary64 = S754_finite false JsNumber.PI_mantissa (-50).
Proof. reflexivity. Qed.

Lemma Prim2SF_PI : Prim2SF JsNumber.Math_PI = S754_finite false JsNumber.PI_mantissa (-51).
Proof. reflexivity. Qed.

Lemma Prim2SF_neg_PI : Prim2SF (- JsNumber.Math_PI)%float = S754_finite true JsNumber.PI_mantissa (-51).
Proof. reflexivity. Qed.

Lemma Prim2SF_zero : Prim2SF 0%float = S754_zero false.
Proof. reflexivity. Qed.

Lemma Zpos_iter_xO (p d : positive) :
  Z.pos (Pos.iter xO p d) = Z.pos p * 2 ^ Z.pos d.
Proof.
  induction d as [|d IH] using Pos.peano_ind.
  - simpl. lia.
  - rewrite Pos.iter_succ, Pos2Z.inj_xO, IH, Pos2Z.inj_succ, Z.pow_succ_r by lia. lia.
Qed.

Lemma bounded_inv (m : positive) (e : Z) :
  bounded prec emax m e = true ->
  -1074 <= e <= 971 /\ Z.pos m < 2 ^ 53 /\ (-1074 < e -> 2 ^ 52 <= Z.pos m).
Proof.
  unfold bounded, canonical_mantissa, fexp, emin, prec, emax.
  intros [Hc He]%andb_true_iff. apply Z.eqb_eq in Hc. apply Z.leb_le in He.
  pose proof (digits2_pos_bounds m) as [Hlo Hhi].
  set (D := Z.pos (digits2_pos m)) in *.
  split; [lia|]. split.
  - assert (2 ^ D <= 2 ^ 53) by (apply Z.pow_le_mono_r; lia). lia.
  - intros Hn. assert (D = 53) as -> by lia. done.
Qed.

Lemma SFleb_neg_finite (m1 m2 : positive) (e1 e2 : Z) :
  SFleb (S754_finite true m1 e1) (S754_finite true m2 e2) = true <->
  e2 < e1 \/ (e2 = e1 /\ Z.pos m2 <= Z.pos m1).
Proof.
  unfold SFleb, SFcompare.
  change (Pos.compare_cont Eq m1 m2) with (m1 ?= m2)%positive.
  rewrite Pos2Z.inj_compare.
  destruct (Z.compare_spec e1 e2), (Z.compare_spec (Z.pos m1) (Z.pos m2)); simpl;
    split; try done; try lia.
Qed.

Lemma SFleb_pos_finite (m1 m2 : positive) (e1 e2 : Z) :
  SFleb (S754_finite false m1 e1) (S754_finite false m2 e2) = true <->
  e1 < e2 \/ (e1 = e2 /\ Z.pos m1 <= Z.pos m2).
Proof.
  unfold SFleb, SFcompare.
  change (Pos.compare_cont Eq m1 m2) with (m1 ?= m2)%positive.
  rewrite Pos2Z.inj_compare.
  destruct (Z.compare_spec e1 e2), (Z.compare_spec (Z.pos m1) (Z.pos m2)); simpl;
    split; try done; try lia.
Qed.

(** Adding [TAU] to a negative number that is at least [-Math.PI]. *)
Lemma SFadd_TAU_negative (m : positive) (e : Z) :
  bounded prec emax m e = true ->
  SFleb (S754_finite true JsNumber.PI_mantissa (-51)) (S754_finite true m e) = true ->
  exists (m' : positive) (e' : Z),
    SF64add (S754_finite true m e) (S754_finite false JsNumber.PI_mantissa (-50))
      = S754_finite false m' e' /\
    (e' < -50 \/ (e' = -50 /\ Z.pos m' <= Z.pos JsNumber.PI_mantissa)).
Proof.
  intros (He & Hm & Hnormal)%bounded_inv Hle%SFleb_neg_finite.
  unfold SF64add, SFadd.
  replace (Z.min e (-50)) with e by lia.
  unfold shl_align. rewrite Z.sub_diag.
  destruct (e - -50) as [|d|d] eqn:Hd; [lia|lia|].
  cbn [fst cond_Zopp]. rewrite Zpos_iter_xO.
  assert (Hpow : 2 <= 2 ^ Z.pos d) by (change 2 with (2 ^ 1) at 1; apply Z.pow_le_mono_r; lia).
  assert (Hpow4 : 2 <= Z.pos d -> 4 <= 2 ^ Z.pos d).
  { intros. change 4 with (2 ^ 2). apply Z.pow_le_mono_r; lia. }
  assert (Hpow1 : Z.pos d = 1 -> 2 ^ Z.pos d = 2) by (by intros ->).
  unfold JsNumber.PI_mantissa in *. change (2 ^ 53) with 9007199254740992 in Hm.
  change (2 ^ 52) with 4503599627370496 in Hnormal.
  replace (-50 - e) with (Z.pos d) in * by lia.
  set (X := 2 ^ Z.pos d) in *.
  destruct (- Z.pos m + 7074237752028440 * X) as [|s|s] eqn:Hs; [lia| |lia].
  cbn [binary_normalize].
  apply (binary_round_below s 7074237752028440 e (-50)).
  - lia.
  - lia.
  - change (2 ^ 52) with 4503599627370496.
    destruct (Z.eq_dec (Z.pos d) 1) as [Hd1|Hd1].
    + specialize (Hpow1 Hd1). specialize (Hnormal ltac:(lia)). lia.
    + specialize (Hpow4 ltac:(lia)). lia.
  - done.
  - replace (-50 - e) with (Z.pos d) by lia. fold X. lia.
Qed.

(** ** The polar angle *)

(** The last two statements of [arg()], on the angle [a] that [Math.atan2]
    returned. *)
Lemma arg_of_angle_range (a : float) :
  PrimFloat.leb (- JsNumber.Math_PI) a = true ->
  PrimFloat.leb a JsNumber.Math_PI = true ->
  let r := if PrimFloat.ltb a 0 then (a + JsNumber.TAU_binary64)%float else a in
  PrimFloat.leb 0 r = true /\ PrimFloat.leb r JsNumber.TAU_binary64 = true.
Proof.
  intros Hlo Hhi.
  pose proof (Prim2SF_valid a) as Hvalid.
  rewrite leb_spec, Prim2SF_neg_PI in Hlo. rewrite leb_spec, Prim2SF_PI in Hhi.
  cbn zeta. rewrite ltb_spec, Prim2SF_zero.
  destruct (Prim2SF a) as [s|s| |s m e] eqn:Ha.
  - (* a zero *)
    cbn. rewrite !leb_spec, Ha, Prim2SF_zero, Prim2SF_TAU. by destruct s.
  - (* an infinity *)
    destruct s; discriminate.
  - discriminate.
  - destruct s.
    + (* a negative number: a full turn is added *)
      change (SFltb (S754_finite true m e) (S754_zero false)) with true. cbv iota.
      destruct (SFadd_TAU_negative m e Hvalid Hlo) as (m' & e' & Hadd & Hbound).
      rewrite !leb_spec, add_spec, Ha, Prim2SF_TAU, Hadd, Prim2SF_zero.
      split; [done|]. by apply SFleb_pos_finite.
    + change (SFltb (S754_finite false m e) (S754_zero false)) with false. cbv iota.
      rewrite !leb_spec, Ha, Prim2SF_TAU, Prim2SF_zero.
      split; [done|]. apply SFleb_pos_finite. apply SFleb_pos_finite in Hhi. lia.
Qed.

(** C7, as the code has it: when [Math.atan2] returns a number (it then
    lies between [-Math.PI] and [Math.PI]), [arg()], and so [phi], lies in
    the closed interval from [0] to [TAU]: it is never negative and never
    above [TAU]. *)
Theorem arg_range (Math_atan2 : float -> float -> float) (z : Complex.Complex float) :
  PrimFloat.leb (- JsNumber.Math_PI) (Math_atan2 (Complex.im z) (Complex.re z)) = true ->
  PrimFloat.leb (Math_atan2 (Complex.im z) (Complex.re z)) JsNumber.Math_PI = true ->
  PrimFloat.leb 0 (Complex.arg Math_atan2 z) = true /\
  PrimFloat.leb (Complex.arg Math_atan2 z) JsNumber.TAU = true /\
  Complex.phi Math_atan2 z = Complex.arg Math_atan2 z.
Proof.
  intros Hlo Hhi. destruct (arg_of_angle_range _ Hlo Hhi) as [H0 HTAU]. done.
Qed.

Lemma arg_range_witness :
  PrimFloat.leb 0 (Complex.arg JsNumber.Math_atan2_sample (Complex.Cx 3%float 4%float)) = true /\
  PrimFloat.leb (Complex.arg JsNumber.Math_atan2_sample (Complex.Cx 3%float 4%float)) JsNumber.TAU = true /\
  Complex.phi JsNumber.Math_atan2_sample (Complex.Cx 3%float 4%float)
    = Complex.arg JsNumber.Math_atan2_sample (Complex.Cx 3%float 4%float).
Proof.
  apply (arg_range JsNumber.Math_atan2_sample (Complex.Cx 3%float 4%float)); reflexivity.
Defined.

(** C7, as stated, fails at [1 - 2^-67 i]: the angle [-2^-67] is negative,
    and adding [TAU] to it rounds to [TAU] itself, so [arg()] returns
    [TAU], which is not below [TAU]. *)
Lemma arg_reaches_TAU :
  PrimFloat.leb (- JsNumber.Math_PI)
    (JsNumber.Math_atan2_sample (Complex.im (Complex.Cx 1%float (-0x1p-67)%float))
       (Complex.re (Complex.Cx 1%float (-0x1p-67)%float))) = true /\
  PrimFloat.leb
    (JsNumber.Math_atan2_sample (Complex.im (Complex.Cx 1%float (-0x1p-67)%float))
       (Complex.re (Complex.Cx 1%float (-0x1p-67)%float))) JsNumber.Math_PI = true /\
  Complex.arg JsNumber.Math_atan2_sample (Complex.Cx 1%float (-0x1p-67)%float) = JsNumber.TAU /\
  PrimFloat.ltb (Complex.arg JsNumber.Math_atan2_sample (Complex.Cx 1%float (-0x1p-67)%float))
    JsNumber.TAU = false.
Proof. repeat split; reflexivity. Qed.

(** [arg()] of a number with a [NaN] component is [NaN]. *)
Example arg_NaN :
  Complex.arg JsNumber.Math_atan2_sample (Complex.Cx nan 1%float) = nan.
Proof. reflexivity. Qed.

(** X3: in exact real arithmetic the angle stays below a full turn: there
    [Math.atan2] lies in [(-pi, pi]], and a negative angle plus [2 pi] is
    less than [2 pi]. *)
Theorem arg_range_exact (Math_atan2 : R -> R -> R) (z : Complex.Complex R) :
  (- PI < Math_atan2 (Complex.im z) (Complex.re z) <= PI)%R ->
  (0 <= Complex.arg Math_atan2 z < 2 * PI)%R.
Proof.
  intros [Hlo Hhi]. unfold Complex.arg. cbn.
  pose proof PI_RGT_0 as Hpi.
  destruct (Rlt_dec (Math_atan2 (Complex.im z) (Complex.re z)) 0); lra.
Qed.

Lemma arg_range_exact_witness :
  (0 <= Complex.arg (fun y x : R => atan (y / x)) (Complex.Cx 3%R 4%R) < 2 * PI)%R.
Proof.
  apply (arg_range_exact (fun y x : R => atan (y / x)) (Complex.Cx 3%R 4%R)).
  cbn. pose proof (atan_bound (4 / 3)) as [Hlo Hhi]. pose proof PI_RGT_0. lra.
Defined.

Example arg_3_4 :
  Complex.arg JsNumber.Math_atan2_sample (Complex.Cx 3%float 4%float) = 0x1.dac670561bb4fp-1%float.
Proof. reflexivity. Qed.

(** In binary64 the two multiplications round differently:
    [(0.1 + 0.2i)(0.3 + 0.4i)] is [-0.05000000000000002 + 0.1i] by [mul] and
    [-0.049999999999999975 + 0.10000000000000002i] by [mulGauss]. *)
Example mulGauss_rounding :
  Complex.mul (Complex.Cx 0x1.999999999999ap-4%float 0x1.999999999999ap-3%float)
              (Complex.Cx 0x1.3333333333333p-2%float 0x1.999999999999ap-2%float)
    = Complex.Cx (-0x1.999999999999cp-5)%float 0x1.999999999999ap-4%float /\
  Complex.mulGauss (Complex.Cx 0x1.999999999999ap-4%float 0x1.999999999999ap-3%float)
              (Complex.Cx 0x1.3333333333333p-2%float 0x1.999999999999ap-2%float)
    = Complex.Cx (-0x1.9999999999996p-5)%float 0x1.999999999999bp-4%float.
Proof. split; reflexivity. Qed.

(** Gauss's form adds before it multiplies: the sum [1e308 + 1e308]
    overflows although no product of [mul] does. *)
Example mulGauss_overflow :
  Complex.mul (Complex.Cx 0x1.1ccf385ebc8a0p+1023%float 0x1.1ccf385ebc8a0p+1023%float)
              (Complex.Cx 1%float 0%float)
    = Complex.Cx 0x1.1ccf385ebc8a0p+1023%float 0x1.1ccf385ebc8a0p+1023%float /\
  Complex.mulGauss (Complex.Cx 0x1.1ccf385ebc8a0p+1023%float 0x1.1ccf385ebc8a0p+1023%float)
              (Complex.Cx 1%float 0%float)
    = Complex.Cx infinity infinity.
Proof. split; reflexivity. Qed.

(** * Further properties *)

(** ** Index <-> coordinates, continued *)

Lemma value_bounds (coordsRev sizesRev : list Z) :
  Forall2 (fun c s => 0 <= c < s) coordsRev sizesRev ->
  0 <= value coordsRev sizesRev < product sizesRev.
Proof.
  induction 1 as [|c s cs ss Hc _ IH]; [by cbn|].
  cbn [value]. change (product (s :: ss)) with (s * product ss). nia.
Qed.

Lemma value_app (cs cs' ss ss' : list Z) :
  length cs = length ss ->
  value (cs ++ cs') (ss ++ ss') = value cs ss + product ss * value cs' ss'.
Proof.
  revert ss. induction cs as [|c cs IH]; intros [|s ss] Hlen; try discriminate.
  - cbn. unfold product. cbn. lia.
  - cbn [app value]. rewrite IH by (by injection Hlen).
    change (product (s :: ss)) with (s * product ss). lia.
Qed.

Lemma coordsFromIndex_map_shift (sizesRev : list Z) (i k : Z) :
  Forall (fun s => 1 <= s) sizesRev ->
  0 <= i -> 0 <= k ->
  coordsFromIndex_map (i + k * product sizesRev) sizesRev = coordsFromIndex_map i sizesRev.
Proof.
  intros Hs. revert i k. induction Hs as [|s ss Hs1 Hss IH]; intros i k Hi Hk; [done|].
  cbn [coordsFromIndex_map]. change (product (s :: ss)) with (s * product ss).
  pose proof (product_pos ss Hss) as HP.
  assert (Hrem : Z.rem (i + k * (s * product ss)) s = Z.rem i s).
  { rewrite !Z.rem_mod_nonneg by nia.
    replace (i + k * (s * product ss)) with (i + k * product ss * s) by lia.
    apply Z.mod_add. lia. }
  rewrite Hrem. f_equal.
  pose proof (Z.quot_rem i s ltac:(lia)) as Hqr.
  replace (i + k * (s * product ss) - Z.rem i s)
    with ((Z.quot i s + k * product ss) * s) by lia.
  replace (i - Z.rem i s) with (Z.quot i s * s) by lia.
  rewrite !Z.quot_mul by lia. apply IH; [|done]. apply Z.quot_pos; lia.
Qed.

(** On the integer reading the coordinates of an index are those of
    [index mod product(sizes)]. *)
Lemma coordsFromIndex_mod_Z (sizes : list Z) (index : Z) :
  Forall (fun s => 1 <= s) sizes ->
  0 <= index ->
  coordsFromIndex index sizes = coordsFromIndex (index mod product sizes) sizes.
Proof.
  intros Hsizes Hindex. unfold coordsFromIndex. f_equal.
  pose proof (product_pos sizes Hsizes) as HP.
  rewrite <- (product_reverse sizes) in *.
  rewrite (Z.div_mod index (product (reverse sizes))) at 1 by lia.
  rewrite Z.add_comm, Z.mul_comm.
  apply coordsFromIndex_map_shift.
  - by apply Forall_reverse.
  - apply Z.mod_pos_bound. lia.
  - apply Z.div_pos; lia.
Qed.

(** X9: the two failures of [checkCoordsSizesCompability]: it throws for a
    length mismatch exactly when the lengths differ, and for a coordinate
    out of bounds exactly when the lengths agree and some coordinate is
    negative or not below its size. *)
Theorem checkCoordsSizesCompability_failures (coords sizes : list Z) :
  (checkCoordsSizesCompability coords sizes = Throw LengthMismatch <->
     length coords <> length sizes)
  /\ (checkCoordsSizesCompability coords sizes = Throw OutOfBounds <->
     length coords = length sizes /\
     exists (i : nat) (c s : Z),
       coords !! i = Some c /\ sizes !! i = Some s /\ (c < 0 \/ s <= c)).
Proof.
  unfold checkCoordsSizesCompability.
  destruct (Nat.eqb_spec (length coords) (length sizes)) as [Hlen|Hlen]; cbn [negb].
  - assert (Hloop : checkCoordsSizesCompability_loop coords sizes <> Throw LengthMismatch
       /\ (checkCoordsSizesCompability_loop coords sizes = Throw OutOfBounds <->
           exists (i : nat) (c s : Z),
             coords !! i = Some c /\ sizes !! i = Some s /\ (c < 0 \/ s <= c))).
    { clear Hlen. revert sizes. induction coords as [|c cs IH]; intros [|s ss]; cbn.
      - split; [done|]. split; [done|]. intros (i & ? & ? & Hi & _). by destruct i.
      - split; [done|]. split; [done|]. intros (i & ? & ? & Hi & _). by destruct i.
      - split; [done|]. split; [done|]. intros (i & ? & ? & _ & Hi & _). by destruct i.
      - destruct (IH ss) as [IH1 IH2].
        destruct (Z.ltb_spec c 0) as [H0|H0]; cbn.
        + split; [done|]. split; [intros _|done]. exists 0%nat, c, s. cbn. tauto.
        + destruct (Z.geb_spec c s) as [H1|H1].
          * split; [done|]. split; [intros _|done]. exists 0%nat, c, s. cbn. split; [done|]. split; [done|]. lia.
          * split; [done|]. rewrite IH2. split.
            -- intros (i & c' & s' & ?). by exists (S i), c', s'.
            -- intros ([|i] & c' & s' & Hc & Hs & Hb); cbn in *.
               ++ injection Hc as <-. injection Hs as <-. lia.
               ++ by exists i, c', s'. }
    destruct Hloop as [H1 H2]. split; [split; done|]. rewrite H2. tauto.
  - split; [done|]. split; [done|]. tauto.
Qed.

(** ** Complements and merging, continued *)

Lemma indicesComplement_valid (indices : list Z) (n : Z) :
  0 <= n ->
  NoDup indices ->
  (forall x : Z, x ∈ indices -> 0 <= x < n) ->
  indicesComplement indices n = Ok (filter (fun i => i ∉ indices) (seqZ 0 n))
  /\ indices ++ filter (fun i => i ∉ indices) (seqZ 0 n) ≡ₚ seqZ 0 n.
Proof.
  intros Hn Hnodup Hrange.
  set (res := filter (fun i => i ∉ indices) (seqZ 0 n)).
  assert (Hperm : indices ++ res ≡ₚ seqZ 0 n).
  { apply NoDup_Permutation.
    - apply NoDup_app. split; [done|]. split.
      + intros x Hx. unfold res. rewrite list_elem_of_filter. tauto.
      + apply NoDup_filter, NoDup_seqZ.
    - apply NoDup_seqZ.
    - intros x. unfold res. rewrite elem_of_app, list_elem_of_filter, elem_of_seqZ.
      split.
      + intros [Hx|[_ Hx]]; [specialize (Hrange x Hx)|]; lia.
      + intros Hx. destruct (decide (x ∈ indices)); [by left|right]. split; [done|lia]. }
  split; [|done].
  pose proof (indicesComplement_cases indices n) as Hcases. cbn zeta in Hcases.
  unfold lodash_range in Hcases.
  replace (0 <=? n) with true in Hcases by (symmetry; by apply Z.leb_le).
  fold res in Hcases. rewrite Hcases.
  replace (isPermutation_default (indices ++ res)) with true; [done|].
  symmetry. apply isPermutation_Permutation.
  assert (Hlen : Z.of_nat (length (indices ++ res)) = n).
  { rewrite (Permutation_length Hperm), length_seqZ. lia. }
  split; [done|]. by rewrite Hlen.
Qed.

(** X10: taking the complement twice sorts.  For pairwise distinct
    [indices] within [0 .. n-1], the complement of
    [indicesComplement(indices, n)] is again accepted, and it is [indices]
    in ascending order. *)
Theorem indicesComplement_twice (indices : list Z) (n : Z) :
  0 <= n ->
  NoDup indices ->
  (forall x : Z, x ∈ indices -> 0 <= x < n) ->
  exists res res' : list Z,
    indicesComplement indices n = Ok res /\
    indicesComplement res n = Ok res' /\
    res' ≡ₚ indices /\
    StronglySorted Z.lt res'.
Proof.
  intros Hn Hnodup Hrange.
  destruct (indicesComplement_valid indices n Hn Hnodup Hrange) as [Hres Hperm].
  set (res := filter (fun i => i ∉ indices) (seqZ 0 n)) in *.
  assert (Hres_nodup : NoDup res) by apply NoDup_filter, NoDup_seqZ.
  assert (Hres_range : forall x : Z, x ∈ res -> 0 <= x < n).
  { intros x [_ Hx]%list_elem_of_filter. apply elem_of_seqZ in Hx. lia. }
  destruct (indicesComplement_valid res n Hn Hres_nodup Hres_range) as [Hres' Hperm'].
  exists res, (filter (fun i => i ∉ res) (seqZ 0 n)).
  split; [done|]. split; [done|]. split.
  - apply (Permutation_app_inv_l res).
    rewrite Hperm'. rewrite <- Hperm. apply Permutation_app_comm.
  - apply StronglySorted_filter, StronglySorted_seqZ.
Qed.

Lemma indicesComplement_twice_witness :
  exists res res' : list Z,
    indicesComplement [3; 1] 5 = Ok res /\
    indicesComplement res 5 = Ok res' /\
    res' ≡ₚ [3; 1] /\
    StronglySorted Z.lt res'.
Proof.
  apply (indicesComplement_twice [3; 1] 5).
  - lia.
  - apply (bool_decide_unpack _). vm_compute. exact I.
  - intros x Hx. apply list_elem_of_In in Hx. simpl in Hx. lia.
Defined.

Lemma joinCoordsFunc_project (selectedIndices complementIndices fullCoords : list Z) :
  selectedIndices ++ complementIndices
    ≡ₚ seqZ 0 (Z.of_nat (length selectedIndices + length complementIndices)) ->
  length fullCoords = (length selectedIndices + length complementIndices)%nat ->
  joinCoordsFunc selectedIndices complementIndices
    (project fullCoords complementIndices) (project fullCoords selectedIndices)
  = JsArray.of_list fullCoords.
Proof.
  intros Hpart Hcoord.
  set (g := project fullCoords complementIndices).
  set (s := project fullCoords selectedIndices).
  assert (Hg : length g = length complementIndices) by apply length_project.
  assert (Hs : length s = length selectedIndices) by apply length_project.
  destruct (joined_of_list selectedIndices complementIndices g s Hpart Hg Hs)
    as (full & Heq & Hlen & Hget).
  rewrite Heq. f_equal. apply list_eq. intros p.
  destruct (decide (p < length fullCoords)%nat) as [Hp|Hp].
  - assert (Hin : Z.of_nat p ∈ selectedIndices ++ complementIndices).
    { apply (partition_range _ _ _ _ Hpart). lia. }
    rewrite <- (Nat2Z.id p) at 1. rewrite <- Hget by lia.
    apply elem_of_app in Hin as [Hin|Hin]; apply list_elem_of_lookup in Hin as [i Hi].
    + rewrite (joined_at_selected _ _ g s Hpart Hg Hs i _ Hi). unfold s.
      rewrite (project_lookup fullCoords selectedIndices i (Z.of_nat p)) by (done || lia).
      by rewrite Nat2Z.id.
    + rewrite (joined_at_complement _ _ g s Hpart Hg Hs i _ Hi). unfold g.
      rewrite (project_lookup fullCoords complementIndices i (Z.of_nat p)) by (done || lia).
      by rewrite Nat2Z.id.
  - rewrite !lookup_ge_None_2; [done|lia|lia].
Qed.

(** X11: validating once with [indicesComplement] is enough for
    [joinCoordsFunc].  For pairwise distinct [selectedIndices] within
    [0 .. n-1], the complement that [indicesComplement] returns makes the
    two index tuples cover [n] positions, and splitting any tuple of length
    [n] along them and merging the parts gives the tuple back. *)
Theorem joinCoordsFunc_after_indicesComplement (selectedIndices : list Z) (n : nat) :
  NoDup selectedIndices ->
  (forall x : Z, x ∈ selectedIndices -> 0 <= x < Z.of_nat n) ->
  exists complementIndices : list Z,
    indicesComplement selectedIndices (Z.of_nat n) = Ok complementIndices /\
    (length selectedIndices + length complementIndices)%nat = n /\
    forall fullCoords : list Z,
      length fullCoords = n ->
      joinCoordsFunc selectedIndices complementIndices
        (project fullCoords complementIndices) (project fullCoords selectedIndices)
      = JsArray.of_list fullCoords.
Proof.
  intros Hnodup Hrange.
  destruct (indicesComplement_valid selectedIndices (Z.of_nat n) ltac:(lia) Hnodup Hrange)
    as [Hres Hperm].
  set (comp := filter (fun i => i ∉ selectedIndices) (seqZ 0 (Z.of_nat n))) in *.
  assert (Hlen : (length selectedIndices + length comp)%nat = n).
  { apply Permutation_length in Hperm. rewrite length_app, length_seqZ in Hperm. lia. }
  exists comp. split; [done|]. split; [done|].
  intros fullCoords Hfull. apply joinCoordsFunc_project.
  - by rewrite Hlen.
  - by rewrite Hlen.
Qed.

Lemma joinCoordsFunc_after_indicesComplement_witness :
  exists complementIndices : list Z,
    indicesComplement [3; 1] (Z.of_nat 5) = Ok complementIndices /\
    (length [3; 1] + length complementIndices)%nat = 5%nat /\
    forall fullCoords : list Z,
      length fullCoords = 5%nat ->
      joinCoordsFunc [3; 1] complementIndices
        (project fullCoords complementIndices) (project fullCoords [3; 1])
      = JsArray.of_list fullCoords.
Proof.
  apply (joinCoordsFunc_after_indicesComplement [3; 1] 5).
  - apply (bool_decide_unpack _). vm_compute. exact I.
  - intros x Hx. apply list_elem_of_In in Hx. simpl in Hx. lia.
Defined.

Lemma length_place_ge (targets xs : list Z) (i : nat) (coord : JsArray.t Z) :
  JsArray.length coord <= JsArray.length (place targets i xs coord).
Proof.
  revert i coord. induction xs as [|c rest IH]; intros i coord; [cbn; lia|].
  cbn [place]. etrans; [|apply IH].
  unfold JsArray.set. cbn [JsArray.length].
  destruct (targets !! i) as [k|]; [|lia]. destruct (JsArray.is_index k); lia.
Qed.

(** X12: what the merge function does when the two index tuples were not
    validated.  The result never has fewer than
    [coordIndices.length + complementIndices.length] positions; a position
    named by [coordIndices] (pairwise distinct) holds the value of
    [coordContraction], also when [complementIndices] names it too; and a
    position that neither tuple names is left a hole. *)
Theorem joinCoordsFunc_unvalidated
    (coordIndices complementIndices coordGroup coordContraction : list Z) :
  Z.of_nat (length coordIndices + length complementIndices)
    <= JsArray.length
         (joinCoordsFunc coordIndices complementIndices coordGroup coordContraction)
  /\ (NoDup coordIndices ->
      forall (i : nat) (k : Z),
        coordIndices !! i = Some k ->
        (i < length coordContraction)%nat ->
        JsArray.get
          (joinCoordsFunc coordIndices complementIndices coordGroup coordContraction)
          (Some k) = coordContraction !! i)
  /\ (forall k : Z,
        k ∉ coordIndices -> k ∉ complementIndices ->
        JsArray.get
          (joinCoordsFunc coordIndices complementIndices coordGroup coordContraction)
          (Some k) = None).
Proof.
  unfold joinCoordsFunc. split; [|split].
  - etrans; [|apply length_place_ge]. etrans; [|apply length_place_ge]. done.
  - intros Hnodup i k Hk Hi.
    rewrite (get_place_at coordIndices coordContraction 0 i) by (done || lia).
    by rewrite Nat.sub_0_r.
  - intros k Hsel Hcomp. rewrite !get_place_other.
    + apply lookup_empty.
    + intros j _ Hj. apply Hcomp. by eapply list_elem_of_lookup_2.
    + intros j _ Hj. apply Hsel. by eapply list_elem_of_lookup_2.
Qed.

(** Both tuples name position 0: the selected value wins and position 1
    stays a hole. *)
Example joinCoordsFunc_overlap :
  JsArray.elements (joinCoordsFunc [0] [0] [7] [8]) = [Some 8; None].
Proof. vm_compute. reflexivity. Qed.

(** ** [weightedRandomInt] *)

Section WeightedRandomIntFacts.
Context {T : Type} `{JsNumber.Ops T}.
Local Open Scope num_scope.

Lemma weightedRandomInt_loop_first (r cumSum : T) (i : Z) (weights : list T) :
  let exceeds (j : nat) := r <? foldl JsNumber.add cumSum (take (S j) weights) in
  (weightedRandomInt_loop r cumSum i weights = (-1)%Z /\
   forall j : nat, (j < length weights)%nat -> exceeds j = false)
  \/ (exists j : nat,
        weightedRandomInt_loop r cumSum i weights = (i + Z.of_nat j)%Z /\
        (j < length weights)%nat /\
        exceeds j = true /\
        forall j' : nat, (j' < j)%nat -> exceeds j' = false).
Proof.
  revert cumSum i. induction weights as [|w rest IH]; intros cumSum i exceeds.
  - left. split; [done|]. cbn. lia.
  - cbn [weightedRandomInt_loop]. cbn zeta.
    destruct (r <? cumSum + w) eqn:Hlt.
    + right. exists 0%nat. split; [lia|]. split; [cbn; lia|]. split; [|lia].
      unfold exceeds. cbn. by rewrite take_0.
    + destruct (IH (cumSum + w) (i + 1)%Z) as [[Hres Hnone]|(j & Hres & Hj & Hex & Hfirst)].
      * left. split; [done|]. intros [|j] Hj.
        -- unfold exceeds. cbn. by rewrite take_0.
        -- unfold exceeds. cbn [take foldl]. apply Hnone. cbn in Hj. lia.
      * right. exists (S j). split; [lia|]. split; [cbn; lia|]. split; [done|].
        intros [|j'] Hj'.
        -- unfold exceeds. cbn. by rewrite take_0.
        -- unfold exceeds. cbn [take foldl]. apply Hfirst. lia.
Qed.

Lemma weightedRandomInt_cases (Math_random : T) (weights : list T)
    (normalize : bool) :
  let r := weightedRandomInt_threshold Math_random weights normalize in
  let exceeds (j : nat) := r <? sum_weights (take (S j) weights) in
  (weightedRandomInt Math_random weights normalize = (-1)%Z /\
   forall j : nat, (j < length weights)%nat -> exceeds j = false)
  \/ (exists j : nat,
        weightedRandomInt Math_random weights normalize = Z.of_nat j /\
        (j < length weights)%nat /\
        exceeds j = true /\
        forall j' : nat, (j' < j)%nat -> exceeds j' = false).
Proof.
  intros r exceeds.
  destruct (weightedRandomInt_loop_first r 0 0%Z weights)
    as [[Hres Hnone]|(j & Hres & Hj & Hex & Hfirst)].
  - left. by split.
  - right. exists j. rewrite Z.add_0_l in Hres. by repeat split.
Qed.

(** X13: [weightedRandomInt] returns the first index at which the sum of
    the weights up to and including it is above the threshold (the random
    number, multiplied with the sum of all weights when [normalize] is
    set), and -1 exactly when no index is such.  This holds in any
    arithmetic, whatever the weights. *)
Theorem weightedRandomInt_first_exceeding (Math_random : T) (weights : list T)
    (normalize : bool) :
  let r := weightedRandomInt_threshold Math_random weights normalize in
  let exceeds (j : nat) := r <? sum_weights (take (S j) weights) in
  let result := weightedRandomInt Math_random weights normalize in
  (result = (-1)%Z \/ (0 <= result < Z.of_nat (length weights))%Z)
  /\ (result = (-1)%Z <->
      forall j : nat, (j < length weights)%nat -> exceeds j = false)
  /\ (forall i : nat,
        result = Z.of_nat i <->
        (i < length weights)%nat /\ exceeds i = true /\
        forall j : nat, (j < i)%nat -> exceeds j = false).
Proof.
  intros r exceeds result.
  assert (Hresult : weightedRandomInt Math_random weights normalize = result)
    by reflexivity.
  clearbody result.
  destruct (weightedRandomInt_cases Math_random weights normalize)
    as [[Hres Hnone]|(j & Hres & Hj & Hex & Hfirst)];
    rewrite Hresult in Hres.
  - split; [by left|]. split; [done|].
    intros i. split; [lia|]. intros (Hi & Hex & _).
    unfold exceeds in Hex. by rewrite Hnone in Hex.
  - split; [right; lia|]. split.
    + split; [lia|]. intros Hnone. unfold exceeds in Hnone.
      by rewrite Hnone in Hex.
    + intros i. split.
      * intros Hi. assert (i = j) as -> by lia. done.
      * intros (Hi & Hexi & Hfirsti). rewrite Hres.
        destruct (decide (i < j)%nat) as [Hlt|Hge].
        { unfold exceeds in Hexi. by rewrite Hfirst in Hexi. }
        destruct (decide (j < i)%nat) as [Hlt|Hge'].
        { unfold exceeds in Hfirsti. by rewrite Hfirsti in Hex. }
        lia.
Qed.

End WeightedRandomIntFacts.

Lemma sum_weights_nil_exact : sum_weights (@nil R) = 0%R.
Proof. reflexivity. Qed.

Lemma sum_weights_snoc_exact (weights : list R) (w : R) :
  sum_weights (weights ++ [w]) = (sum_weights weights + w)%R.
Proof. unfold sum_weights. by rewrite foldl_app. Qed.

Lemma sum_weights_take_S_exact (weights : list R) (i : nat) (w : R) :
  weights !! i = Some w ->
  sum_weights (take (S i) weights) = (sum_weights (take i weights) + w)%R.
Proof. intros Hw. by rewrite (take_S_r _ _ _ Hw), sum_weights_snoc_exact. Qed.

Lemma sum_weights_nonneg_exact (weights : list R) :
  Forall (fun w => (0 <= w)%R) weights -> (0 <= sum_weights weights)%R.
Proof.
  induction weights as [|w rest IH] using rev_ind; intros Hpos.
  - rewrite sum_weights_nil_exact. lra.
  - apply Forall_app in Hpos as [Hrest Hw%Forall_inv].
    rewrite sum_weights_snoc_exact. specialize (IH Hrest). cbn beta in Hw. lra.
Qed.

Lemma sum_weights_take_le_exact (weights : list R) (i : nat) :
  Forall (fun w => (0 <= w)%R) weights ->
  (sum_weights (take i weights) <= sum_weights weights)%R.
Proof.
  intros Hpos. rewrite <- (take_drop i weights) at 2.
  rewrite <- (take_drop i weights) in Hpos. apply Forall_app in Hpos as [_ Hdrop].
  induction (drop i weights) as [|w rest IH] using rev_ind.
  - rewrite app_nil_r. lra.
  - apply Forall_app in Hdrop as [Hrest Hw%Forall_inv].
    rewrite app_assoc, sum_weights_snoc_exact. specialize (IH Hrest). cbn beta in Hw. lra.
Qed.

Lemma ltb_exact_true (x y : R) : JsNumber.ltb x y = true <-> (x < y)%R.
Proof. cbn. destruct (Rlt_dec x y); split; (done || lra). Qed.

Lemma ltb_exact_false (x y : R) : JsNumber.ltb x y = false <-> (y <= x)%R.
Proof. cbn. destruct (Rlt_dec x y); split; (done || lra). Qed.

(** X14: in exact arithmetic [weightedRandomInt] samples by cumulative
    weight.  For non-negative weights with a positive sum and a random
    number in [0, 1), the normalizing call returns an index [i] of a
    positive weight, the one with
    [w_0 + .. + w_(i-1) <= random * total < w_0 + .. + w_i]; so index [i] is
    drawn for a set of random numbers of length [w_i / total]. *)
Theorem weightedRandomInt_exact_interval (Math_random : R) (weights : list R) :
  Forall (fun w => (0 <= w)%R) weights ->
  (0 < sum_weights weights)%R ->
  (0 <= Math_random < 1)%R ->
  exists (i : nat) (w : R),
    weightedRandomInt Math_random weights true = Z.of_nat i /\
    weights !! i = Some w /\
    (0 < w)%R /\
    (sum_weights (take i weights) <= Math_random * sum_weights weights)%R /\
    (Math_random * sum_weights weights < sum_weights (take i weights) + w)%R.
Proof.
  intros Hpos Hsum Hrandom.
  assert (Hbelow : (Math_random * sum_weights weights < sum_weights weights)%R) by nra.
  destruct (weightedRandomInt_cases Math_random weights true)
    as [[_ Hnone]|(i & Hi & Hlen & Hex & Hbefore)];
    cbn [weightedRandomInt_threshold] in *;
    change (JsNumber.mul Math_random (sum_weights weights))
      with (Math_random * sum_weights weights)%R in *.
  { exfalso. destruct weights as [|w0 rest] using rev_ind;
      [rewrite sum_weights_nil_exact in Hsum; lra|].
    clear IHrest. specialize (Hnone (length rest)).
    rewrite take_ge in Hnone by (rewrite length_app; cbn; lia).
    apply ltb_exact_false in Hnone; [lra|]. rewrite length_app. cbn. lia. }
  destruct (lookup_lt_is_Some_2 weights i Hlen) as [w Hw].
  apply ltb_exact_true in Hex. rewrite (sum_weights_take_S_exact _ _ _ Hw) in Hex.
  assert (Hlow : (sum_weights (take i weights) <= Math_random * sum_weights weights)%R).
  { destruct i as [|j].
    - rewrite take_0, sum_weights_nil_exact. nra.
    - apply ltb_exact_false, Hbefore. lia. }
  exists i, w. repeat split; (done || lra).
Qed.

Lemma weightedRandomInt_exact_interval_witness :
  exists (i : nat) (w : R),
    weightedRandomInt (/ 2)%R [0; 1; 3]%R true = Z.of_nat i /\
    [0; 1; 3]%R !! i = Some w /\
    (0 < w)%R /\
    (sum_weights (take i [0; 1; 3]%R) <= / 2 * sum_weights [0; 1; 3]%R)%R /\
    (/ 2 * sum_weights [0; 1; 3]%R < sum_weights (take i [0; 1; 3]%R) + w)%R.
Proof.
  apply (weightedRandomInt_exact_interval (/ 2)%R [0; 1; 3]%R).
  - repeat constructor; lra.
  - cbn. lra.
  - lra.
Defined.

(** X15: when [weightedRandomInt] does not return an index.  In exact
    arithmetic, for non-negative weights and a non-negative random number,
    the call without normalization returns -1 exactly when the random
    number is not below the sum of the weights; the normalizing call, for a
    random number below 1, returns -1 exactly when every weight is zero
    (the empty array included). *)
Theorem weightedRandomInt_exact_no_index (Math_random : R) (weights : list R) :
  Forall (fun w => (0 <= w)%R) weights ->
  (0 <= Math_random)%R ->
  (weightedRandomInt Math_random weights false = (-1)%Z <->
   (sum_weights weights <= Math_random)%R)
  /\ ((Math_random < 1)%R ->
      (weightedRandomInt Math_random weights true = (-1)%Z <->
       Forall (fun w => w = 0%R) weights)).
Proof.
  intros Hpos Hrandom0.
  assert (Hgen : forall normalize : bool,
    weightedRandomInt Math_random weights normalize = (-1)%Z <->
    (sum_weights weights
       <= weightedRandomInt_threshold Math_random weights normalize)%R).
  { intros normalize.
    destruct (weightedRandomInt_cases Math_random weights normalize)
      as [[Hres Hall]|(j & Hres & Hj & Hex & _)]; rewrite Hres.
    - split; [intros _|done]. destruct weights as [|w0 rest] using rev_ind.
      + rewrite sum_weights_nil_exact.
        destruct normalize; cbn [weightedRandomInt_threshold]; [|done].
        change (JsNumber.mul Math_random (sum_weights [])) with (Math_random * 0)%R. lra.
      + clear IHrest. specialize (Hall (length rest)).
        rewrite take_ge in Hall by (rewrite length_app; cbn; lia).
        apply ltb_exact_false, Hall. rewrite length_app. cbn. lia.
    - split; [lia|]. intros Hle. apply ltb_exact_true in Hex.
      pose proof (sum_weights_take_le_exact weights (S j) Hpos). lra. }
  split; [apply (Hgen false)|].
  intros Hrandom. rewrite (Hgen true). cbn [weightedRandomInt_threshold].
  change (JsNumber.mul Math_random (sum_weights weights))
    with (Math_random * sum_weights weights)%R.
  pose proof (sum_weights_nonneg_exact weights Hpos) as Hsum.
  split.
  - intros Hle. assert (Hzero : sum_weights weights = 0%R) by nra.
    clear Hle Hsum Hgen. induction weights as [|w rest IH] using rev_ind; [constructor|].
    apply Forall_app in Hpos as [Hrest Hw%Forall_inv]. cbn beta in Hw.
    rewrite sum_weights_snoc_exact in Hzero.
    pose proof (sum_weights_nonneg_exact rest Hrest).
    apply Forall_app. split; [apply IH; [done|lra]|]. apply Forall_singleton. lra.
  - intros Hall. assert (Hzero : sum_weights weights = 0%R).
    { clear Hpos Hsum Hgen. induction weights as [|w rest IH] using rev_ind; [done|].
      apply Forall_app in Hall as [Hrest Hw%Forall_inv]. cbn beta in Hw.
      rewrite sum_weights_snoc_exact, IH by done. lra. }
    rewrite Hzero. lra.
Qed.

Lemma weightedRandomInt_exact_no_index_witness :
  (weightedRandomInt (/ 2)%R [0; 0]%R false = (-1)%Z <->
   (sum_weights [0; 0]%R <= / 2)%R)
  /\ ((/ 2 < 1)%R ->
      (weightedRandomInt (/ 2)%R [0; 0]%R true = (-1)%Z <->
       Forall (fun w => w = 0%R) [0; 0]%R)).
Proof.
  apply (weightedRandomInt_exact_no_index (/ 2)%R [0; 0]%R).
  - repeat constructor; lra.
  - lra.
Defined.

(** ** binary64 facts *)

Lemma SFeqb_zero_inv (x : spec_float) (s : bool) :
  SFeqb x (S754_zero s) = true -> exists s' : bool, x = S754_zero s'.
Proof.
  destruct x as [s'|s'| |s' m e]; cbn; try done.
  - intros _. by exists s'.
  - by destruct s'.
  - by destruct s'.
Qed.

Lemma SFeqb_finite_inv (x : spec_float) (s : bool) (m : positive) (e : Z) :
  SFeqb x (S754_finite s m e) = true -> x = S754_finite s m e.
Proof.
  destruct x as [s'|s'| |s' m' e']; cbn; try done.
  - by destruct s.
  - by destruct s', s.
  - destruct s', s; try done;
      (destruct (e' ?= e) eqn:He; try done;
       apply Z.compare_eq in He as ->;
       change (PosDef.Pos.compare_cont Eq m' m) with (m' ?= m)%positive;
       destruct (m' ?= m)%positive eqn:Hm; try done;
       by apply Pos.compare_eq in Hm as ->).
Qed.

Lemma float_eqb_finite (x c : float) (s : bool) (m : positive) (e : Z) :
  Prim2SF c = S754_finite s m e -> PrimFloat.eqb x c = true -> x = c.
Proof.
  intros Hc Heq. rewrite FloatAxioms.eqb_spec, Hc in Heq.
  apply SFeqb_finite_inv in Heq. apply Prim2SF_inj. by rewrite Hc.
Qed.

Lemma float_eqb_zero (x : float) :
  PrimFloat.eqb x 0 = true -> exists s : bool, Prim2SF x = S754_zero s.
Proof.
  intros Heq. rewrite FloatAxioms.eqb_spec in Heq. change (Prim2SF 0) with (S754_zero false) in Heq.
  by apply SFeqb_zero_inv in Heq.
Qed.

Lemma SFltb_zero_sign (x : spec_float) (s s' : bool) :
  SFltb x (S754_zero s) = SFltb x (S754_zero s').
Proof. by destruct x as [?|[]| |[] ? ?]. Qed.

Lemma float_ltb_add_zero (r c w : float) :
  PrimFloat.eqb w 0 = true ->
  PrimFloat.ltb r (c + w) = PrimFloat.ltb r c.
Proof.
  intros [s Hw]%float_eqb_zero.
  rewrite !FloatAxioms.ltb_spec, FloatAxioms.add_spec, Hw.
  unfold SF64add. destruct (Prim2SF c) as [s'|s'| |s' m e]; cbn [SFadd]; try done.
  destruct s', s; apply SFltb_zero_sign.
Qed.

(** ** [weightedRandomInt] in binary64 *)

(** X16: in binary64, [weightedRandomInt] does not return the index of a
    zero weight (0 or -0), whatever the other weights are and whether or
    not it normalizes, unless the threshold is negative; a negative
    threshold needs a negative random number or a negative sum. *)
Theorem weightedRandomInt_skips_zero_weight (Math_random : float)
    (weights : list float) (normalize : bool) (i : nat) (w : float) :
  weights !! i = Some w ->
  PrimFloat.eqb w 0 = true ->
  PrimFloat.ltb (weightedRandomInt_threshold Math_random weights normalize) 0 = false ->
  weightedRandomInt Math_random weights normalize <> Z.of_nat i.
Proof.
  intros Hw Hzero Hthreshold Hres.
  pose proof (weightedRandomInt_loop_first
                (weightedRandomInt_threshold Math_random weights normalize)
                0%float 0%Z weights) as Hfirst.
  cbn zeta in Hfirst.
  change (weightedRandomInt_loop _ _ _ weights)
    with (weightedRandomInt Math_random weights normalize) in Hfirst.
  rewrite Hres in Hfirst.
  destruct Hfirst as [[Hminus _]|(j & Hj & _ & Hex & Hbefore)]; [lia|].
  assert (j = i) as -> by lia.
  rewrite (take_S_r _ _ _ Hw), foldl_app in Hex. cbn [foldl] in Hex.
  change (@JsNumber.ltb float _) with PrimFloat.ltb in Hex, Hbefore.
  change (@JsNumber.add float _) with PrimFloat.add in Hex.
  rewrite (float_ltb_add_zero _ _ _ Hzero) in Hex.
  destruct i as [|i'].
  - rewrite take_0 in Hex. cbn [foldl] in Hex.
    change (@JsNumber.zero float _) with 0%float in Hex. congruence.
  - rewrite Hbefore in Hex by lia. done.
Qed.

Lemma weightedRandomInt_skips_zero_weight_witness :
  weightedRandomInt 0.25%float [0.5; 0; 0.5]%float true <> Z.of_nat 1.
Proof.
  apply (weightedRandomInt_skips_zero_weight 0.25%float [0.5; 0; 0.5]%float true 1 0%float);
    reflexivity.
Defined.

(** A zero weight at index 0 is returned for a negative threshold. *)
Example weightedRandomInt_negative_threshold :
  weightedRandomInt 0.5%float [0; -1]%float true = 0.
Proof. vm_compute. reflexivity. Qed.

(** In binary64 the normalizing call can fall off the end although the
    weights are positive and the random number is below 1: the product of
    0.75 and the smallest subnormal rounds to that subnormal. *)
Example weightedRandomInt_subnormal :
  weightedRandomInt 0.75%float [0x1p-1074]%float true = -1.
Proof. vm_compute. reflexivity. Qed.

(** ** [startingPolarization] and [startingDirection] *)

Lemma startingDirection_polarization (angle : float) :
  match startingDirection angle with
  | Some DirEnum_right | Some DirEnum_left =>
      startingPolarization angle = Some PolEnum_H
  | Some DirEnum_up | Some DirEnum_down =>
      startingPolarization angle = Some PolEnum_V
  | None => startingPolarization angle = None
  end.
Proof.
  unfold startingDirection, startingPolarization.
  destruct (PrimFloat.eqb angle 0) eqn:H0; [done|].
  destruct (PrimFloat.eqb angle 90) eqn:H90.
  { apply (float_eqb_finite angle 90 false 6333186975989760%positive (-46)) in H90 as ->;
      [|reflexivity]. reflexivity. }
  destruct (PrimFloat.eqb angle 180) eqn:H180; [done|].
  destruct (PrimFloat.eqb angle 270) eqn:H270; done.
Qed.

Lemma startingDirection_is_Some (rotation : float) :
  is_Some (startingDirection rotation) <->
  Prim2SF rotation = S754_zero false \/ Prim2SF rotation = S754_zero true \/
  rotation = 90%float \/ rotation = 180%float \/ rotation = 270%float.
Proof.
  unfold startingDirection. split.
  - destruct (PrimFloat.eqb rotation 0) eqn:H0.
    { intros _. apply float_eqb_zero in H0 as [[] H0]; tauto. }
    destruct (PrimFloat.eqb rotation 90) eqn:H90.
    { intros _. right. right. left.
      by apply (float_eqb_finite rotation 90 false 6333186975989760%positive (-46)). }
    destruct (PrimFloat.eqb rotation 180) eqn:H180.
    { intros _. right. right. right. left.
      by apply (float_eqb_finite rotation 180 false 6333186975989760%positive (-45)). }
    destruct (PrimFloat.eqb rotation 270) eqn:H270.
    { intros _. right. right. right. right.
      by apply (float_eqb_finite rotation 270 false 4749890231992320%positive (-44)). }
    by intros [? ?].
  - intros [H0 | [H0 | [ -> | [ -> | -> ] ] ] ]; try (vm_compute; eauto; fail).
    + replace (PrimFloat.eqb rotation 0) with true; [eauto|].
      by rewrite FloatAxioms.eqb_spec, H0.
    + replace (PrimFloat.eqb rotation 0) with true; [eauto|].
      by rewrite FloatAxioms.eqb_spec, H0.
Qed.

(** X17: the two laser helpers accept the same angles and agree on them.
    [startingDirection] returns a direction exactly for 0, -0, 90, 180 and
    270, and throws for every other number, [NaN] included; the
    polarization is [H] exactly for the directions right and left, [V]
    exactly for up and down; and an angle that [startingDirection] rejects,
    [startingPolarization] rejects too. *)
Theorem startingPolarization_startingDirection (angle : float) :
  (is_Some (startingDirection angle) <->
   Prim2SF angle = S754_zero false \/ Prim2SF angle = S754_zero true \/
   angle = 90%float \/ angle = 180%float \/ angle = 270%float) /\
  match startingDirection angle with
  | Some DirEnum_right | Some DirEnum_left =>
      startingPolarization angle = Some PolEnum_H
  | Some DirEnum_up | Some DirEnum_down =>
      startingPolarization angle = Some PolEnum_V
  | None => startingPolarization angle = None
  end.
Proof.
  split; [apply startingDirection_is_Some|apply startingDirection_polarization].
Qed.

(** ** [Complex.ts] in binary64: zero, one, commutativity *)

Lemma float_zero_cases (x : float) :
  PrimFloat.eqb x 0 = true -> x = 0%float \/ x = (-0)%float.
Proof.
  intros [[] Hx]%float_eqb_zero; [right|left]; by apply Prim2SF_inj.
Qed.

Lemma float_opp_involutive (x : float) : (- - x)%float = x.
Proof.
  apply Prim2SF_inj. rewrite !FloatAxioms.opp_spec.
  destruct (Prim2SF x) as [s|s| |s m e]; cbn; by rewrite ?negb_involutive.
Qed.

Lemma isZero_binary64_facts (z : Complex.Complex float) :
  ComplexMore.isZero z = true ->
  ComplexMore.abs z = 0%float /\
  ComplexMore.isAlmostZero z = true /\
  ComplexMore.normalize z = None /\
  forall z1 : Complex.Complex float, Complex.div z1 z = Throw DivisionByZero.
Proof.
  destruct z as [a b]. unfold ComplexMore.isZero. cbn [Complex.re Complex.im].
  intros [Ha Hb]%andb_prop.
  apply float_zero_cases in Ha as [-> | ->], Hb as [-> | ->];
    (split; [reflexivity|]; split; [reflexivity|]; split; [reflexivity|];
     intros z1; by rewrite div_binary64).
Qed.

Lemma isOne_binary64_facts (z : Complex.Complex float) :
  ComplexMore.isOne z = true ->
  ComplexMore.isNormal z = true /\
  ComplexMore.isZero z = false /\
  ComplexMore.isAlmostZero z = false /\
  exists u : Complex.Complex float,
    ComplexMore.normalize z = Some u /\ ComplexMore.equal u z = true.
Proof.
  destruct z as [a b]. unfold ComplexMore.isOne. cbn [Complex.re Complex.im].
  intros [Ha Hb]%andb_prop.
  apply (float_eqb_finite a 1 false 4503599627370496%positive (-52)) in Ha as ->;
    [|reflexivity].
  apply float_zero_cases in Hb as [-> | ->];
    (split; [reflexivity|]; split; [reflexivity|]; split; [reflexivity|];
     eexists; split; reflexivity).
Qed.

(** X18: what [isZero] and [isOne] imply in binary64.  A number that
    [isZero] accepts (each part 0 or -0) has magnitude 0 and is almost
    zero, [normalize] throws on it and so does every division by it.  A
    number that [isOne] accepts is normal, neither zero nor almost zero,
    and [normalize] returns a number [equal] to it. *)
Theorem isZero_isOne_binary64 (z : Complex.Complex float) :
  (ComplexMore.isZero z = true ->
   ComplexMore.abs z = 0%float /\
   ComplexMore.isAlmostZero z = true /\
   ComplexMore.normalize z = None /\
   forall z1 : Complex.Complex float, Complex.div z1 z = Throw DivisionByZero) /\
  (ComplexMore.isOne z = true ->
   ComplexMore.isNormal z = true /\
   ComplexMore.isZero z = false /\
   ComplexMore.isAlmostZero z = false /\
   exists u : Complex.Complex float,
     ComplexMore.normalize z = Some u /\ ComplexMore.equal u z = true).
Proof. split; [apply isZero_binary64_facts|apply isOne_binary64_facts]. Qed.

(** Numbers that the two tests accept, with a negative zero. *)
Example isZero_isOne_negative_zero :
  ComplexMore.isZero (Complex.Cx 0%float (-0)%float) = true /\
  ComplexMore.isOne (Complex.Cx 1%float (-0)%float) = true.
Proof. split; reflexivity. Qed.

(** The converse fails in binary64: the square of 1e-200 underflows to 0,
    so [normalize] throws on a number that [isZero] rejects. *)
Example normalize_underflow :
  ComplexMore.isZero (Complex.Cx 0x1.83a99c3ec7ebp-665%float 0%float) = false /\
  ComplexMore.normalize (Complex.Cx 0x1.83a99c3ec7ebp-665%float 0%float) = None.
Proof. split; reflexivity. Qed.

(** X19: in binary64, rounding or not, [add] and [mul] do not depend on
    the order of the two numbers and conjugating twice gives the number
    back, bit for bit. *)
Theorem add_mul_comm_binary64 (z1 z2 : Complex.Complex float) :
  Complex.add z1 z2 = Complex.add z2 z1 /\
  Complex.mul z1 z2 = Complex.mul z2 z1 /\
  Complex.conj (Complex.conj z1) = z1.
Proof.
  destruct z1 as [a b], z2 as [c d]. unfold Complex.add, Complex.mul, Complex.conj. cbn.
  split; [|split].
  - by rewrite (float_add_comm a c), (float_add_comm b d).
  - rewrite (float_mul_comm a c), (float_mul_comm b d).
    rewrite (float_mul_comm a d), (float_mul_comm b c).
    by rewrite (float_add_comm (d * a)).
  - by rewrite float_opp_involutive.
Qed.

(** [mulGauss] does depend on the order in binary64. *)
Example mulGauss_not_commutative :
  Complex.mulGauss (Complex.Cx 0x1.999999999999ap-4%float 0x1.999999999999ap-3%float)
                   (Complex.Cx 0x1.3333333333333p-2%float 0x1.999999999999ap-2%float)
  <> Complex.mulGauss (Complex.Cx 0x1.3333333333333p-2%float 0x1.999999999999ap-2%float)
                      (Complex.Cx 0x1.999999999999ap-4%float 0x1.999999999999ap-3%float).
Proof. vm_compute. intros [=]. Qed.

(** ** [Complex.ts] in exact arithmetic *)

Lemma eqb_exact_true (x y : R) : JsNumber.eqb x y = true <-> x = y.
Proof. cbn. destruct (Req_dec_T x y); split; (done || lra). Qed.

Lemma abs2_exact (z : Complex.Complex R) :
  Complex.abs2 z = (Complex.re z * Complex.re z + Complex.im z * Complex.im z)%R.
Proof. reflexivity. Qed.

Lemma abs_exact (z : Complex.Complex R) :
  ComplexMore.abs z = R_sqrt.sqrt (Complex.abs2 z).
Proof. reflexivity. Qed.

Lemma abs2_nonneg (z : Complex.Complex R) : (0 <= Complex.abs2 z)%R.
Proof. rewrite abs2_exact. nra. Qed.

Lemma abs2_zero (z : Complex.Complex R) :
  Complex.abs2 z = 0%R <-> z = Complex.Cx 0%R 0%R.
Proof.
  destruct z as [a b]. rewrite abs2_exact. cbn. split.
  - intros Hz. f_equal; nra.
  - intros [= -> ->]. lra.
Qed.

Lemma abs_nonneg (z : Complex.Complex R) : (0 <= ComplexMore.abs z)%R.
Proof. rewrite abs_exact. apply sqrt_pos. Qed.

Lemma abs_sqr (z : Complex.Complex R) :
  (ComplexMore.abs z * ComplexMore.abs z)%R = Complex.abs2 z.
Proof. rewrite abs_exact. apply sqrt_sqrt, abs2_nonneg. Qed.

Lemma abs_zero (z : Complex.Complex R) :
  ComplexMore.abs z = 0%R <-> z = Complex.Cx 0%R 0%R.
Proof.
  rewrite <- abs2_zero. split.
  - intros Hz. rewrite <- abs_sqr, Hz. lra.
  - intros Hz. rewrite abs_exact, Hz. apply sqrt_0.
Qed.

Lemma abs_lt (z : Complex.Complex R) (eps : R) :
  (0 <= eps)%R ->
  (ComplexMore.abs z < eps)%R <-> (Complex.abs2 z < eps * eps)%R.
Proof.
  intros Heps. pose proof (abs_nonneg z) as Hpos. rewrite <- abs_sqr. split; nra.
Qed.

(** X20: [normalize] in exact arithmetic.  It throws exactly on [0 + 0i];
    otherwise the result has magnitude 1, [isNormal] accepts it, and it
    points the way the number does: the number is the result scaled by its
    magnitude. *)
Theorem normalize_exact (z : Complex.Complex R) :
  (ComplexMore.normalize z = None <-> z = Complex.Cx 0%R 0%R) /\
  forall u : Complex.Complex R,
    ComplexMore.normalize z = Some u ->
    ComplexMore.abs u = 1%R /\
    ComplexMore.isNormal u = true /\
    z = Complex.Cx (ComplexMore.abs z * Complex.re u)%R (ComplexMore.abs z * Complex.im u)%R.
Proof.
  unfold ComplexMore.normalize, ComplexMore.r. cbn zeta.
  destruct (JsNumber.eqb (ComplexMore.abs z) JsNumber.zero) eqn:Hz; cbn [negb].
  - apply eqb_exact_true in Hz. change (@JsNumber.zero R _) with 0%R in Hz.
    split; [|done]. split; [intros _; by apply abs_zero|done].
  - assert (Hnz : ComplexMore.abs z <> 0%R).
    { intros Heq. apply (eqb_exact_true (ComplexMore.abs z) 0%R) in Heq.
      change (@JsNumber.zero R _) with 0%R in Hz. congruence. }
    split.
    { split; [done|]. intros Hzero%abs_zero. done. }
    change (@JsNumber.div R JsNumber.exact) with Rdiv.
    intros u Hu.
    assert (Hu' : u = Complex.Cx (Complex.re z / ComplexMore.abs z)%R
                                 (Complex.im z / ComplexMore.abs z)%R) by congruence.
    clear Hu. subst u.
    pose proof (abs_nonneg z) as Hpos. pose proof (abs_sqr z) as Hsqr.
    rewrite abs2_exact in Hsqr.
    remember (ComplexMore.abs z) as n eqn:Hn. clear Hn Hz.
    assert (Habs2 : Complex.abs2 (Complex.Cx (Complex.re z / n)%R (Complex.im z / n)%R) = 1%R).
    { rewrite abs2_exact. cbn [Complex.re Complex.im].
      replace (Complex.re z / n * (Complex.re z / n) + Complex.im z / n * (Complex.im z / n))%R
        with ((Complex.re z * Complex.re z + Complex.im z * Complex.im z) / (n * n))%R
        by (field; done).
      rewrite <- Hsqr. field. done. }
    split; [|split].
    + rewrite abs_exact, Habs2. apply sqrt_1.
    + unfold ComplexMore.isNormal. apply eqb_exact_true. exact Habs2.
    + destruct z as [a b]. cbn [Complex.re Complex.im] in *. f_equal; field; done.
Qed.

(** X21: the magnitude in exact arithmetic.  [abs] is non-negative, zero
    only for [0 + 0i], its square is [abs2], conjugation keeps it, the
    magnitude of a product is the product of the magnitudes, and the
    magnitude of a sum is at most the sum of the magnitudes. *)
Theorem abs_exact_laws (z1 z2 : Complex.Complex R) :
  (0 <= ComplexMore.abs z1)%R /\
  (ComplexMore.abs z1 = 0%R <-> z1 = Complex.Cx 0%R 0%R) /\
  (ComplexMore.abs z1 * ComplexMore.abs z1)%R = Complex.abs2 z1 /\
  ComplexMore.abs (Complex.conj z1) = ComplexMore.abs z1 /\
  ComplexMore.abs (Complex.mul z1 z2) = (ComplexMore.abs z1 * ComplexMore.abs z2)%R /\
  (ComplexMore.abs (Complex.add z1 z2) <= ComplexMore.abs z1 + ComplexMore.abs z2)%R.
Proof.
  split; [apply abs_nonneg|]. split; [apply abs_zero|]. split; [apply abs_sqr|].
  split; [|split].
  - rewrite !abs_exact. f_equal. destruct z1 as [a b]. rewrite !abs2_exact. cbn. ring.
  - rewrite !abs_exact, <- sqrt_mult by apply abs2_nonneg. f_equal.
    destruct z1 as [a b], z2 as [c d]. rewrite !abs2_exact. cbn. ring.
  - destruct z1 as [a b], z2 as [c d].
    pose proof (triangle a b (- c) (- d) 0 0) as Htri. unfold dist_euc in Htri.
    rewrite !abs_exact, !abs2_exact. cbn.
    replace (Rsqr (a - - c) + Rsqr (b - - d))%R
      with ((a + c) * (a + c) + (b + d) * (b + d))%R in Htri by (unfold Rsqr; ring).
    replace (Rsqr (a - 0) + Rsqr (b - 0))%R with (a * a + b * b)%R in Htri
      by (unfold Rsqr; ring).
    replace (Rsqr (0 - - c) + Rsqr (0 - - d))%R with (c * c + d * d)%R in Htri
      by (unfold Rsqr; ring).
    exact Htri.
Qed.

(** X22: in exact arithmetic the methods are the arithmetic of a field:
    [add] and [mul] are associative and commutative with neutral elements
    [0 + 0i] and [1 + 0i], [mul] distributes over [add], [sub] undoes
    [add], conjugation commutes with both, a number times its conjugate is
    its [abs2], and dividing a product by a factor that is not zero gives
    the other factor. *)
Theorem complex_field_exact (z1 z2 z3 : Complex.Complex R) :
  Complex.add z1 (Complex.add z2 z3) = Complex.add (Complex.add z1 z2) z3 /\
  Complex.add z1 z2 = Complex.add z2 z1 /\
  Complex.add z1 (Complex.Cx 0%R 0%R) = z1 /\
  Complex.sub (Complex.add z1 z2) z2 = z1 /\
  Complex.mul z1 (Complex.mul z2 z3) = Complex.mul (Complex.mul z1 z2) z3 /\
  Complex.mul z1 z2 = Complex.mul z2 z1 /\
  Complex.mul z1 (Complex.Cx 1%R 0%R) = z1 /\
  Complex.mul z1 (Complex.add z2 z3)
    = Complex.add (Complex.mul z1 z2) (Complex.mul z1 z3) /\
  Complex.conj (Complex.add z1 z2) = Complex.add (Complex.conj z1) (Complex.conj z2) /\
  Complex.conj (Complex.mul z1 z2) = Complex.mul (Complex.conj z1) (Complex.conj z2) /\
  Complex.mul z1 (Complex.conj z1) = Complex.Cx (Complex.abs2 z1) 0%R /\
  (z2 <> Complex.Cx 0%R 0%R -> Complex.div (Complex.mul z1 z2) z2 = Ok z1).
Proof.
  destruct z1 as [a b], z2 as [c d], z3 as [e f].
  unfold Complex.add, Complex.sub, Complex.mul, Complex.conj, Complex.abs2. cbn.
  repeat (split; [f_equal; ring|]).
  intros Hnz.
  assert (Hdenom : (d * d + c * c)%R <> 0%R).
  { intros Hz. apply Hnz. f_equal; nra. }
  unfold Complex.div. cbn.
  destruct (Req_dec_T (d * d + c * c) 0) as [Hz|_]; [done|].
  do 2 f_equal; field; done.
Qed.

(** X23: [isCloseTo] in exact arithmetic is closeness in a metric.  A
    number is close to itself exactly for a positive tolerance, closeness
    does not depend on the order, and it chains with the tolerances added. *)
Theorem isCloseTo_exact (z1 z2 z3 : Complex.Complex R) (eps eps' : R) :
  (ComplexMore.isCloseTo z1 z1 eps = true <-> (0 < eps)%R) /\
  ComplexMore.isCloseTo z1 z2 eps = ComplexMore.isCloseTo z2 z1 eps /\
  (ComplexMore.isCloseTo z1 z2 eps = true ->
   ComplexMore.isCloseTo z2 z3 eps' = true ->
   ComplexMore.isCloseTo z1 z3 (eps + eps')%R = true).
Proof.
  unfold ComplexMore.isCloseTo, ComplexMore.r. split; [|split].
  - rewrite ltb_exact_true.
    replace (ComplexMore.abs (Complex.sub z1 z1)) with 0%R; [done|].
    symmetry. apply abs_zero. destruct z1 as [a b]. unfold Complex.sub. cbn. f_equal; ring.
  - f_equal. rewrite !abs_exact. f_equal.
    destruct z1 as [a b], z2 as [c d]. rewrite !abs2_exact. cbn. ring.
  - rewrite !ltb_exact_true. intros H12 H23.
    destruct z1 as [a b], z2 as [c d], z3 as [e f].
    pose proof (triangle a b e f c d) as Htri. unfold dist_euc in Htri.
    rewrite !abs_exact, !abs2_exact in *. cbn in *.
    unfold Rsqr in Htri. lra.
Qed.

(** X24: the three zero and unit tests agree with the magnitude in exact
    arithmetic.  [isZero] holds exactly when [abs] is 0, [isNormal] exactly
    when [abs] is 1, and [isAlmostZero], which compares [abs2] with 1e-12,
    exactly when the number is within the default tolerance 1e-6 of
    [0 + 0i], as [isCloseTo] measures it. *)
Theorem zero_tests_exact (z : Complex.Complex R) :
  (ComplexMore.isZero z = true <-> ComplexMore.abs z = 0%R) /\
  (ComplexMore.isNormal z = true <-> ComplexMore.abs z = 1%R) /\
  ComplexMore.isAlmostZero z = ComplexMore.isCloseTo_default z (Complex.Cx 0%R 0%R).
Proof.
  split; [|split].
  - rewrite abs_zero. unfold ComplexMore.isZero. rewrite andb_true_iff, !eqb_exact_true.
    destruct z as [a b]. cbn. split; [by intros [-> ->]|by intros [= -> ->]].
  - unfold ComplexMore.isNormal. rewrite eqb_exact_true.
    change (@JsMath.one R _) with 1%R.
    pose proof (abs_nonneg z) as Hpos. rewrite <- abs_sqr. split; nra.
  - unfold ComplexMore.isAlmostZero, ComplexMore.isCloseTo_default, ComplexMore.isCloseTo,
      ComplexMore.r.
    replace (Complex.sub z (Complex.Cx 0%R 0%R)) with z
      by (destruct z as [a b]; unfold Complex.sub; cbn; f_equal; ring).
    change (@JsMath.lit_1e_12 R _) with (/ 1000000000000)%R.
    change (@JsMath.lit_1e_6 R _) with (/ 1000000)%R.
    pose proof (abs_lt z (/ 1000000)%R ltac:(lra)) as Hlt.
    replace (/ 1000000 * / 1000000)%R with (/ 1000000000000)%R in Hlt by lra.
    destruct (JsNumber.ltb (ComplexMore.abs z) (/ 1000000)%R) eqn:Habs.
    + apply ltb_exact_true, Hlt. by apply ltb_exact_true.
    + apply ltb_exact_false. apply ltb_exact_false in Habs.
      destruct (Rlt_dec (Complex.abs2 z) (/ 1000000000000)%R) as [Hc|Hc]; [|lra].
      apply Hlt in Hc. lra.
Qed.

(** X25: [fromPolar] in exact arithmetic, with the cosine and the sine of
    the real numbers.  The magnitude of the result is the absolute value of
    the radius, multiplying two polar forms multiplies the radii and adds
    the angles, and conjugating negates the angle. *)
Theorem fromPolar_exact (r1 phi1 r2 phi2 : R) :
  ComplexMore.abs (ComplexMore.fromPolar cos sin r1 phi1) = Rabs r1 /\
  Complex.mul (ComplexMore.fromPolar cos sin r1 phi1)
              (ComplexMore.fromPolar cos sin r2 phi2)
  = ComplexMore.fromPolar cos sin (r1 * r2)%R (phi1 + phi2)%R /\
  Complex.conj (ComplexMore.fromPolar cos sin r1 phi1)
  = ComplexMore.fromPolar cos sin r1 (- phi1)%R.
Proof.
  unfold ComplexMore.fromPolar, Complex.mul, Complex.conj. split; [|split].
  - rewrite abs_exact, abs2_exact. cbn.
    pose proof (sin2_cos2 phi1) as Hone. unfold Rsqr in Hone.
    replace (r1 * cos phi1 * (r1 * cos phi1) + r1 * sin phi1 * (r1 * sin phi1))%R
      with (Rsqr r1 * (sin phi1 * sin phi1 + cos phi1 * cos phi1))%R
      by (unfold Rsqr; ring).
    rewrite Hone, Rmult_1_r. apply sqrt_Rsqr_abs.
  - cbn. rewrite cos_plus, sin_plus. f_equal; ring.
  - cbn. rewrite cos_neg, sin_neg. f_equal; ring.
Qed.

(** X26: the polar form round trip in exact arithmetic.  When the engine's
    [Math.atan2] returns an angle of the number (one whose cosine and sine
    give its parts over its magnitude), [fromPolar] of the getters [r] and
    [phi] is the number again: the full turn that [arg] adds to a negative
    angle does not show. *)
Theorem fromPolar_r_phi (Math_atan2 : R -> R -> R) (z : Complex.Complex R) :
  let a := Math_atan2 (Complex.im z) (Complex.re z) in
  Complex.re z = (ComplexMore.abs z * cos a)%R ->
  Complex.im z = (ComplexMore.abs z * sin a)%R ->
  ComplexMore.fromPolar cos sin (ComplexMore.r z) (Complex.phi Math_atan2 z) = z.
Proof.
  intros a Hre Him.
  unfold ComplexMore.fromPolar, ComplexMore.r, Complex.phi, Complex.arg. cbn zeta.
  fold a.
  assert (Hcos : cos (if JsNumber.ltb a JsNumber.zero then JsNumber.add a JsNumber.TAU else a)
                 = cos a).
  { destruct (JsNumber.ltb a JsNumber.zero); [|done].
    change (JsNumber.add a JsNumber.TAU) with (a + 2 * PI)%R.
    replace (a + 2 * PI)%R with (a + 2 * INR 1 * PI)%R by (cbn; ring). apply cos_period. }
  assert (Hsin : sin (if JsNumber.ltb a JsNumber.zero then JsNumber.add a JsNumber.TAU else a)
                 = sin a).
  { destruct (JsNumber.ltb a JsNumber.zero); [|done].
    change (JsNumber.add a JsNumber.TAU) with (a + 2 * PI)%R.
    replace (a + 2 * PI)%R with (a + 2 * INR 1 * PI)%R by (cbn; ring). apply sin_period. }
  change (@JsNumber.mul R JsNumber.exact) with Rmult.
  rewrite Hcos, Hsin. destruct z as [x y]. cbn [Complex.re Complex.im] in *.
  by rewrite <- Hre, <- Him.
Qed.

Lemma fromPolar_r_phi_witness :
  ComplexMore.fromPolar cos sin (ComplexMore.r (Complex.Cx 0%R (-1)%R))
    (Complex.phi (fun _ _ : R => (- (PI / 2))%R) (Complex.Cx 0%R (-1)%R))
  = Complex.Cx 0%R (-1)%R.
Proof.
  assert (Habs : ComplexMore.abs (Complex.Cx 0%R (-1)%R) = 1%R).
  { rewrite abs_exact, abs2_exact. cbn.
    replace (0 * 0 + -1 * -1)%R with 1%R by ring. apply sqrt_1. }
  apply (fromPolar_r_phi (fun _ _ : R => (- (PI / 2))%R) (Complex.Cx 0%R (-1)%R)).
  - cbn [Complex.re]. rewrite Habs, cos_neg, cos_PI2. ring.
  - cbn [Complex.im]. rewrite Habs, sin_neg, sin_PI2. ring.
Defined.

(** X27: [phiTau] in exact arithmetic is the angle as a fraction of a full
    turn: for [Math.atan2] in [(-pi, pi]] it lies in [0, 1), and it is the
    angle of [phi] over [2 pi]. *)
Theorem phiTau_range_exact (Math_atan2 : R -> R -> R) (z : Complex.Complex R) :
  (- PI < Math_atan2 (Complex.im z) (Complex.re z) <= PI)%R ->
  (0 <= ComplexMore.phiTau Math_atan2 z < 1)%R /\
  (ComplexMore.phiTau Math_atan2 z * (2 * PI))%R = Complex.phi Math_atan2 z.
Proof.
  intros [Hlo Hhi]. pose proof PI_RGT_0 as Hpi.
  unfold ComplexMore.phiTau, Complex.phi.
  change (@JsNumber.TAU R _) with (2 * PI)%R.
  change (@JsNumber.div R JsNumber.exact) with Rdiv.
  assert (Harg : (0 <= Complex.arg Math_atan2 z < 2 * PI)%R).
  { unfold Complex.arg. cbn.
    destruct (Rlt_dec (Math_atan2 (Complex.im z) (Complex.re z)) 0); lra. }
  split; [|field; lra].
  split.
  - apply Rmult_le_pos; [lra|]. apply Rlt_le, Rinv_0_lt_compat. lra.
  - apply (Rmult_lt_reg_r (2 * PI)); [lra|]. field_simplify; lra.
Qed.

Lemma phiTau_range_exact_witness :
  (0 <= ComplexMore.phiTau (fun y x : R => atan (y / x)) (Complex.Cx 3%R 4%R) < 1)%R /\
  (ComplexMore.phiTau (fun y x : R => atan (y / x)) (Complex.Cx 3%R 4%R) * (2 * PI))%R
  = Complex.phi (fun y x : R => atan (y / x)) (Complex.Cx 3%R 4%R).
Proof.
  apply (phiTau_range_exact (fun y x : R => atan (y / x)) (Complex.Cx 3%R 4%R)).
  cbn. pose proof (atan_bound (4 / 3)) as [Hlo Hhi]. pose proof PI_RGT_0. lra.
Defined.

(** ** Colours *)

(** Runs of the two functions in binary64; a magnitude above 2 gives a
    negative lightness and a string that is no colour. *)
Example hslToHex_binary64 :
  hslToHex 0%float 100%float 50%float = "#ff0000"%string /\
  hslToHex 210%float 40%float 30%float = "#2e4c6b"%string /\
  hslToHex nan 100%float 50%float = "#000000"%string /\
  hslToHex 0%float 100%float infinity = "#NaNNaNNaN"%string.
Proof. repeat split; vm_compute; reflexivity. Qed.

Example toColor_binary64 :
  toColor JsNumber.Math_atan2_sample (Complex.Cx 3%float 4%float)
    = "#-2fd-2a500"%string /\
  toColor (fun _ _ : float => 0%float) (Complex.Cx 1%float 0%float)
    = "#ff0000"%string.
Proof. split; vm_compute; reflexivity. Qed.

Lemma string_length_append (s1 s2 : String.string) :
  String.length (String.append s1 s2) = (String.length s1 + String.length s2)%nat.
Proof. induction s1 as [|c s1 IH]; simpl; [done|by f_equal]. Qed.

Lemma list_ascii_of_string_append (s1 s2 : String.string) :
  String.list_ascii_of_string (String.append s1 s2)
  = String.list_ascii_of_string s1 ++ String.list_ascii_of_string s2.
Proof. induction s1 as [|c s1 IH]; simpl; [done|by f_equal]. Qed.

Lemma byte_hex_digits (n : Z) :
  0 <= n <= 255 ->
  String.length (byte_hex n) = 2%nat /\
  forallb is_hex_digit (String.list_ascii_of_string (byte_hex n)) = true.
Proof.
  intros Hn.
  assert (Hall : forallb (fun n => (String.length (byte_hex n) =? 2)%nat
                   && forallb is_hex_digit (String.list_ascii_of_string (byte_hex n)))
                   (seqZ 0 256) = true) by (vm_compute; reflexivity).
  rewrite forallb_forall in Hall. specialize (Hall n).
  rewrite andb_true_iff, Nat.eqb_eq in Hall. apply Hall.
  apply list_elem_of_In, elem_of_seqZ. lia.
Qed.

Lemma byte_hex_negative (n : Z) :
  n < 0 ->
  forallb is_hex_digit (String.list_ascii_of_string (byte_hex n)) = false.
Proof.
  intros Hn. destruct n as [|p|p]; [lia|lia|].
  unfold byte_hex. cbn [JsColor.toString16 Z.to_hex_int HexadecimalString.NilZero.string_of_int].
  destruct (String.length _ =? 1)%nat; reflexivity.
Qed.

Lemma toHex_exact (x : R) : toHex x = byte_hex (Zfloor (x * 255 + / 2)).
Proof. reflexivity. Qed.

Lemma toHex_exact_digits (x : R) :
  (- / 510 <= x <= 1)%R ->
  String.length (toHex x) = 2%nat /\
  forallb is_hex_digit (String.list_ascii_of_string (toHex x)) = true.
Proof.
  intros Hx. rewrite toHex_exact. apply byte_hex_digits.
  pose proof (Zfloor_bound (x * 255 + / 2)) as [Hlo Hhi].
  split.
  - apply Zfloor_lub. cbn. lra.
  - assert (Hlt : (IZR (Zfloor (x * 255 + / 2)) < IZR 256)%R) by lra.
    apply lt_IZR in Hlt. lia.
Qed.

Lemma toHex_exact_negative (x : R) :
  (x < - / 510)%R ->
  forallb is_hex_digit (String.list_ascii_of_string (toHex x)) = false.
Proof.
  intros Hx. rewrite toHex_exact. apply byte_hex_negative.
  pose proof (Zfloor_bound (x * 255 + / 2)) as [Hlo Hhi].
  assert (Hlt : (IZR (Zfloor (x * 255 + / 2)) < IZR 0)%R) by lra.
  by apply lt_IZR in Hlt.
Qed.

Lemma is_hex_color_triple (r g b : String.string) :
  is_hex_color (String.append "#" (String.append r (String.append g b)))
  = (String.length r + String.length g + String.length b =? 6)%nat
    && (forallb is_hex_digit (String.list_ascii_of_string r)
        && forallb is_hex_digit (String.list_ascii_of_string g)
        && forallb is_hex_digit (String.list_ascii_of_string b)).
Proof.
  simpl.
  rewrite !string_length_append, !list_ascii_of_string_append, !forallb_app.
  cbn [String.length String.list_ascii_of_string forallb andb Nat.add].
  f_equal; [by rewrite Nat.add_assoc|apply andb_assoc].
Qed.

Local Open Scope R_scope.

Lemma hue2rgb_exact (p q t : R) :
  hue2rgb p q t =
  let t := if Rlt_dec t 0 then (t + 1)%R else t in
  let t := if Rlt_dec 1 t then (t - 1)%R else t in
  if Rlt_dec t (1 / 6) then (p + (q - p) * 6 * t)%R
  else if Rlt_dec t (1 / 2) then q
  else if Rlt_dec t (2 / 3) then (p + (q - p) * (2 / 3 - t) * 6)%R
  else p.
Proof.
  unfold hue2rgb. cbn.
  destruct (Rlt_dec t 0); cbn;
    (destruct (Rlt_dec 1 _); cbn;
     repeat (destruct (Rlt_dec _ _); cbn; try reflexivity)).
Qed.

Lemma hue2rgb_exact_between (p q t : R) :
  (-1 <= t <= 2)%R ->
  (Rmin p q <= hue2rgb p q t <= Rmax p q)%R.
Proof.
  intros Ht. rewrite hue2rgb_exact. cbn zeta.
  unfold Rmin, Rmax. destruct (Rle_dec p q);
    repeat (destruct (Rlt_dec _ _)); nra.
Qed.

Lemma hue2rgb_exact_reaches_q (p q h : R) :
  (0 <= h < 1)%R ->
  hue2rgb p q (h + 1 / 3)%R = q \/ hue2rgb p q h = q \/ hue2rgb p q (h - 1 / 3)%R = q.
Proof.
  intros Hh. rewrite !hue2rgb_exact. cbn zeta.
  destruct (Rlt_dec h (1 / 6)); [left|].
  { repeat (destruct (Rlt_dec _ _)); (reflexivity || lra). }
  destruct (Rlt_dec h (1 / 2)); [right; left|].
  { repeat (destruct (Rlt_dec _ _)); (reflexivity || lra). }
  destruct (Rlt_dec h (5 / 6)); [right; right|left].
  { repeat (destruct (Rlt_dec _ _)); (reflexivity || lra). }
  { repeat (destruct (Rlt_dec _ _)); (reflexivity || lra). }
Qed.

Lemma hslToHex_rgb_exact (h s l : R) :
  hslToHex_rgb h s l =
  if Req_dec_T (s / 100) 0 then ((l / 100)%R, (l / 100)%R, (l / 100)%R)
  else
    let q := if Rlt_dec (l / 100) (/ 2)
             then (l / 100 * (1 + s / 100))%R
             else (l / 100 + s / 100 - l / 100 * (s / 100))%R in
    let p := (2 * (l / 100) - q)%R in
    (hue2rgb p q (h / 360 + 1 / 3)%R, hue2rgb p q (h / 360)%R,
     hue2rgb p q (h / 360 - 1 / 3)%R).
Proof.
  unfold hslToHex_rgb. cbn.
  destruct (Req_dec_T (s / 100) 0); [reflexivity|].
  destruct (Rlt_dec (l / 100) (/ 2)); reflexivity.
Qed.

(** The channels of [hslToHex] lie between [lo] and [hi] when the
    lightness, [p] and [q] do. *)
Lemma hslToHex_rgb_exact_between (h s l lo hi : R) :
  (0 <= h <= 360)%R ->
  (lo <= l / 100 <= hi)%R ->
  (s / 100 <> 0%R ->
   let q := if Rlt_dec (l / 100) (/ 2)
            then (l / 100 * (1 + s / 100))%R
            else (l / 100 + s / 100 - l / 100 * (s / 100))%R in
   (lo <= q <= hi)%R /\ (lo <= 2 * (l / 100) - q <= hi)%R) ->
  let '(r, g, b) := hslToHex_rgb h s l in
  (lo <= r <= hi)%R /\ (lo <= g <= hi)%R /\ (lo <= b <= hi)%R.
Proof.
  intros Hh Hl Hpq. rewrite hslToHex_rgb_exact.
  destruct (Req_dec_T (s / 100) 0) as [Hs|Hs]; [done|].
  specialize (Hpq Hs). cbn zeta in *.
  set (q := if Rlt_dec (l / 100) (/ 2) then _ else _) in *.
  set (p := (2 * (l / 100) - q)%R) in *.
  assert (Hbetween : forall t : R, (-1 <= t <= 2)%R -> (lo <= hue2rgb p q t <= hi)%R).
  { intros t Ht. pose proof (hue2rgb_exact_between p q t Ht) as Hb.
    unfold Rmin, Rmax in Hb. destruct (Rle_dec p q); lra. }
  repeat split; apply Hbetween; lra.
Qed.

Lemma hslToHex_exact_digits (h s l : R) :
  (let '(r, g, b) := hslToHex_rgb h s l in
   (- / 510 <= r <= 1)%R /\ (- / 510 <= g <= 1)%R /\ (- / 510 <= b <= 1)%R) ->
  is_hex_color (hslToHex h s l) = true.
Proof.
  unfold hslToHex. destruct (hslToHex_rgb h s l) as [[r g] b].
  intros (Hr & Hg & Hb). rewrite is_hex_color_triple.
  destruct (toHex_exact_digits r Hr) as [-> ->].
  destruct (toHex_exact_digits g Hg) as [-> ->].
  by destruct (toHex_exact_digits b Hb) as [-> ->].
Qed.

(** X28: in exact arithmetic [hslToHex] returns a colour of the form
    [#rrggbb], a [#] and six lower-case hexadecimal digits, for a hue from 0
    to 360 and a saturation and a lightness from 0 to 100. *)
Theorem hslToHex_exact_well_formed (h s l : R) :
  (0 <= h <= 360)%R ->
  (0 <= s <= 100)%R ->
  (0 <= l <= 100)%R ->
  is_hex_color (hslToHex h s l) = true.
Proof.
  intros Hh Hs Hl. apply hslToHex_exact_digits.
  pose proof (hslToHex_rgb_exact_between h s l 0 1 Hh) as Hb.
  destruct (hslToHex_rgb h s l) as [[r g] b].
  assert (Hrgb : (0 <= r <= 1)%R /\ (0 <= g <= 1)%R /\ (0 <= b <= 1)%R).
  { apply Hb; [lra|]. intros _. cbn zeta.
    destruct (Rlt_dec (l / 100) (/ 2)); split; nra. }
  lra.
Qed.

Lemma hslToHex_exact_well_formed_witness :
  is_hex_color (hslToHex 120%R 100%R 25%R) = true.
Proof. apply (hslToHex_exact_well_formed 120%R 100%R 25%R); lra. Defined.

Lemma toHex_exact_0 : toHex 0%R = "00"%string.
Proof.
  rewrite toHex_exact. replace (Zfloor (0 * 255 + / 2)) with 0%Z; [reflexivity|].
  symmetry. apply Zfloor_eq. cbn. lra.
Qed.

Lemma toHex_exact_1 : toHex 1%R = "ff"%string.
Proof.
  rewrite toHex_exact. replace (Zfloor (1 * 255 + / 2)) with 255%Z; [reflexivity|].
  symmetry. apply Zfloor_eq. cbn. lra.
Qed.

Lemma hue2rgb_exact_same (p t : R) : hue2rgb p p t = p.
Proof.
  rewrite hue2rgb_exact. cbn zeta.
  repeat (destruct (Rlt_dec _ _)); (reflexivity || ring).
Qed.

(** X29: in exact arithmetic, whatever the hue and the saturation,
    [hslToHex] returns black for the lightness 0 and white for the
    lightness 100; and for the saturation 0 it returns a grey, three times
    the same two digits. *)
Theorem hslToHex_exact_black_white_grey (h s l : R) :
  hslToHex h s 0%R = "#000000"%string /\
  hslToHex h s 100%R = "#ffffff"%string /\
  hslToHex h 0%R l
  = String.append "#" (String.append (toHex (l / 100)%R)
      (String.append (toHex (l / 100)%R) (toHex (l / 100)%R))).
Proof.
  unfold hslToHex. rewrite !hslToHex_rgb_exact. split; [|split].
  - replace (0 / 100)%R with 0%R by lra.
    destruct (Req_dec_T (s / 100) 0); [by rewrite toHex_exact_0|].
    cbn zeta. destruct (Rlt_dec 0 (/ 2)) as [_|Hn]; [|lra].
    replace (2 * 0 - 0 * (1 + s / 100))%R with 0%R by ring.
    replace (0 * (1 + s / 100))%R with 0%R by ring.
    by rewrite !hue2rgb_exact_same, toHex_exact_0.
  - replace (100 / 100)%R with 1%R by lra.
    destruct (Req_dec_T (s / 100) 0); [by rewrite toHex_exact_1|].
    cbn zeta. destruct (Rlt_dec 1 (/ 2)) as [Hn|_]; [lra|].
    replace (2 * 1 - (1 + s / 100 - 1 * (s / 100)))%R with 1%R by ring.
    replace (1 + s / 100 - 1 * (s / 100))%R with 1%R by ring.
    by rewrite !hue2rgb_exact_same, toHex_exact_1.
  - destruct (Req_dec_T (0 / 100) 0) as [_|Hn]; [reflexivity|lra].
Qed.

Lemma rem_exact_turn (x : R) :
  (0 <= x < 360)%R -> JsColor.rem (x + 360)%R 360%R = x.
Proof.
  intros Hx. cbn.
  assert (Hq : (1 <= (x + 360) / 360 < 2)%R) by (split; lra).
  destruct (Rle_dec 0 ((x + 360) / 360)) as [_|Hn]; [|lra].
  rewrite (Zfloor_eq 1%Z) by (cbn; lra). cbn. lra.
Qed.

(** X30: [toColor] in exact arithmetic, for [Math.atan2] in [(-pi, pi]].
    The result is a colour of the form [#rrggbb] exactly when the magnitude
    is at most [2 + 1/510]; for a larger one the lightness [100 - 50 r] is
    so far below 0 that a channel is printed with a minus sign. *)
Theorem toColor_exact_well_formed (Math_atan2 : R -> R -> R) (z : Complex.Complex R) :
  (- PI < Math_atan2 (Complex.im z) (Complex.re z) <= PI)%R ->
  is_hex_color (toColor Math_atan2 z) = true <->
  (ComplexMore.abs z <= 2 + / 510)%R.
Proof.
  intros [Hlo Hhi]. pose proof PI_RGT_0 as Hpi.
  assert (Harg : (0 <= Complex.phi Math_atan2 z < 2 * PI)%R).
  { unfold Complex.phi, Complex.arg. cbn.
    destruct (Rlt_dec (Math_atan2 (Complex.im z) (Complex.re z)) 0); lra. }
  unfold toColor. cbn zeta.
  change (@JsNumber.TAU R _) with (2 * PI)%R.
  change (@JsNumber.mul R _) with Rmult. change (@JsNumber.div R _) with Rdiv.
  change (@JsNumber.add R _) with Rplus. change (@JsNumber.sub R _) with Rminus.
  change (@JsColor.lit R _) with IZR.
  unfold ComplexMore.r.
  set (phi := Complex.phi Math_atan2 z) in *.
  set (m := ComplexMore.abs z).
  assert (Hm : (0 <= m)%R) by apply sqrt_pos.
  set (angle := (phi * 360 / (2 * PI))%R).
  assert (Hangle : (0 <= angle < 360)%R).
  { unfold angle. split.
    - apply Rmult_le_pos; [lra|]. apply Rlt_le, Rinv_0_lt_compat. lra.
    - apply (Rmult_lt_reg_r (2 * PI)); [lra|]. unfold Rdiv.
      rewrite Rmult_assoc, Rinv_l by lra. lra. }
  rewrite (rem_exact_turn angle Hangle).
  set (l := (100 - 50 * m)%R).
  assert (Hs : (100 / 100)%R <> 0%R) by lra.
  destruct (Rle_dec m (2 + / 510)) as [Hle|Hgt].
  - split; [done|]. intros _. apply hslToHex_exact_digits.
    apply (hslToHex_rgb_exact_between angle 100 l (- / 510) 1); [lra|unfold l; lra|].
    intros _. cbn zeta. unfold l. destruct (Rlt_dec _ _); split; lra.
  - split; [|lra]. intros Hcolor. exfalso.
    unfold hslToHex in Hcolor. rewrite hslToHex_rgb_exact in Hcolor.
    destruct (Req_dec_T (100 / 100) 0) as [Hz|_]; [lra|].
    cbn zeta in Hcolor.
    destruct (Rlt_dec (l / 100) (/ 2)) as [_|Hn]; [|unfold l in Hn; lra].
    set (q := (l / 100 * (1 + 100 / 100))%R) in *.
    assert (Hq : (q < - / 510)%R) by (unfold q, l; lra).
    rewrite is_hex_color_triple in Hcolor.
    apply andb_prop in Hcolor as [_ Hdigits].
    apply andb_prop in Hdigits as [Hdigits Hb].
    apply andb_prop in Hdigits as [Hr Hg].
    pose proof (toHex_exact_negative q Hq) as Hneg.
    destruct (hue2rgb_exact_reaches_q (2 * (l / 100) - q)%R q (angle / 360)%R)
      as [Heq|[Heq|Heq]]; [lra| | |].
    + rewrite Heq in Hr. congruence.
    + rewrite Heq in Hg. congruence.
    + rewrite Heq in Hb. congruence.
Qed.

Lemma toColor_exact_well_formed_witness :
  is_hex_color (toColor (fun y x : R => atan (y / x)) (Complex.Cx 3%R 4%R)) = true <->
  (ComplexMore.abs (Complex.Cx 3%R 4%R) <= 2 + / 510)%R.
Proof.
  apply (toColor_exact_well_formed (fun y x : R => atan (y / x)) (Complex.Cx 3%R 4%R)).
  cbn. pose proof (atan_bound (4 / 3)) as [Hlo Hhi]. pose proof PI_RGT_0. lra.
Defined.

Local Close Scope R_scope.

(** * Binary64 on integers *)

Lemma pow2_pos (k : Z) : 0 <= k -> 0 < 2 ^ k.
Proof. intros. by apply Z.pow_pos_nonneg. Qed.

Lemma digits_lt_pow (p : positive) (d : Z) :
  Z.pos p < 2 ^ d -> Z.pos (digits2_pos p) <= d.
Proof.
  intros Hp. pose proof (digits2_pos_bounds p) as [Hlo _].
  destruct (Z.le_gt_cases (Z.pos (digits2_pos p)) d) as [|Hgt]; [done|].
  assert (2 ^ d <= 2 ^ (Z.pos (digits2_pos p) - 1)) by (apply Z.pow_le_mono_r; lia). lia.
Qed.

Lemma digits_ge_pow (p : positive) (d : Z) :
  2 ^ d <= Z.pos p -> d < Z.pos (digits2_pos p).
Proof.
  intros Hp. pose proof (digits2_pos_bounds p) as [_ Hhi].
  destruct (Z.lt_ge_cases d (Z.pos (digits2_pos p))) as [|Hge]; [done|].
  assert (2 ^ Z.pos (digits2_pos p) <= 2 ^ d) by (apply Z.pow_le_mono_r; lia). lia.
Qed.

Lemma digits_shift (p q : positive) (k : Z) :
  0 <= k -> Z.pos q = Z.pos p * 2 ^ k ->
  Z.pos (digits2_pos q) = Z.pos (digits2_pos p) + k.
Proof.
  intros Hk Hq. apply digits2_pos_unique.
  pose proof (digits2_pos_bounds p) as [Hlo Hhi].
  pose proof (pow2_pos k Hk) as Hpos. rewrite Hq.
  replace (Z.pos (digits2_pos p) + k - 1) with (Z.pos (digits2_pos p) - 1 + k) by lia.
  rewrite !Z.pow_add_r by lia. nia.
Qed.

Lemma exponent_bounds (p : positive) :
  Z.pos p < 2 ^ 53 -> -52 <= int_exponent p <= 0.
Proof.
  intros Hp. unfold int_exponent. pose proof (digits_lt_pow p 53 Hp). lia.
Qed.

Lemma mantissa_spec (p : positive) :
  Z.pos p < 2 ^ 53 ->
  Z.pos (int_mantissa p) = Z.pos p * 2 ^ (- int_exponent p) /\
  Z.pos (digits2_pos (int_mantissa p)) = 53.
Proof.
  intros Hp. pose proof (exponent_bounds p Hp) as He. unfold int_mantissa, int_exponent in *.
  replace (- (Z.pos (digits2_pos p) - 53)) with (53 - Z.pos (digits2_pos p)) by lia.
  set (k := 53 - Z.pos (digits2_pos p)) in *.
  pose proof (pow2_pos k ltac:(lia)) as Hpos.
  assert (Heq : Z.pos (Z.to_pos (Z.pos p * 2 ^ k)) = Z.pos p * 2 ^ k)
    by (rewrite Z2Pos.id; lia).
  split; [done|]. rewrite (digits_shift p _ k) by (lia || done). lia.
Qed.

Lemma iter_shr_1_exact (k K : positive) :
  SpecFloat.iter_pos shr_1 k (Build_shr_record (Z.pos (Pos.iter xO K k)) false false)
  = Build_shr_record (Z.pos K) false false.
Proof.
  revert K. induction k as [k IH|k IH|]; intros K; cbn [SpecFloat.iter_pos Pos.iter].
  - cbn [shr_1 orb]. by rewrite !IH.
  - by rewrite !IH.
  - reflexivity.
Qed.

Lemma binary_round_aux_shift (s : bool) (K M : positive) (E k : Z) :
  Z.pos (digits2_pos K) = 53 ->
  -1074 <= E - k -> E <= 971 -> 0 <= k ->
  Z.pos M = Z.pos K * 2 ^ k ->
  binary_round_aux prec emax s (Z.pos M) (E - k) loc_Exact = S754_finite s K E.
Proof.
  intros HK Hlo Hhi Hk HM.
  assert (Hcanon : shr_fexp prec emax (Z.pos K) E loc_Exact
                   = (Build_shr_record (Z.pos K) false false, E)).
  { rewrite (shr_fexp_shift K E 0) by lia. reflexivity. }
  assert (Hfirst : shr_fexp prec emax (Z.pos M) (E - k) loc_Exact
                   = (Build_shr_record (Z.pos K) false false, E)).
  { rewrite (shr_fexp_shift M (E - k) k);
      [|rewrite (digits_shift K M k) by done; lia|done|done].
    destruct (decide (k = 0)) as [->|Hne].
    - rewrite Z.pow_0_r, Z.mul_1_r in HM. injection HM as ->.
      rewrite Z.sub_0_r. reflexivity.
    - rewrite shr_pos by lia. cbn [shr_record_of_loc].
      assert (M = Pos.iter xO K (Z.to_pos k)) as ->.
      { apply Pos2Z.inj. rewrite Zpos_iter_xO, HM, Z2Pos.id by lia. done. }
      rewrite iter_shr_1_exact. f_equal. lia. }
  unfold binary_round_aux. rewrite Hfirst.
  cbn [shr_m loc_of_shr_record round_nearest_even]. rewrite Hcanon. cbn [shr_m].
  replace (E <=? emax - prec) with true; [done|].
  symmetry. apply Z.leb_le. unfold emax, prec. lia.
Qed.

Lemma binary_round_aux_int (s : bool) (M p : positive) (e : Z) :
  Z.pos p < 2 ^ 53 ->
  2 ^ 52 <= Z.pos M ->
  -1074 <= e <= 0 ->
  Z.pos M = Z.pos p * 2 ^ (- e) ->
  binary_round_aux prec emax s (Z.pos M) e loc_Exact
  = S754_finite s (int_mantissa p) (int_exponent p).
Proof.
  intros Hp HM He Heq.
  destruct (mantissa_spec p Hp) as [Hm Hd].
  pose proof (exponent_bounds p Hp) as HE.
  assert (Hk : e <= int_exponent p).
  { pose proof (digits_ge_pow M 52 HM) as HdM.
    rewrite (digits_shift p M (- e)) in HdM by (lia || done). unfold int_exponent. lia. }
  replace e with (int_exponent p - (int_exponent p - e)) at 1 by lia.
  apply binary_round_aux_shift; [done|lia|lia|lia|].
  rewrite Heq, Hm, <- Z.mul_assoc, <- Z.pow_add_r by lia. do 2 f_equal. lia.
Qed.

Lemma binary_round_int (s : bool) (M p : positive) (e : Z) :
  Z.pos p < 2 ^ 53 ->
  -1074 <= e <= 0 ->
  Z.pos M = Z.pos p * 2 ^ (- e) ->
  binary_round prec emax s M e = S754_finite s (int_mantissa p) (int_exponent p).
Proof.
  intros Hp He Heq.
  pose proof (exponent_bounds p Hp) as HE.
  pose proof (digits_shift p M (- e) ltac:(lia) Heq) as HdM.
  unfold binary_round.
  assert (Hfexp : fexp prec emax (Z.pos (digits2_pos M) + e) = int_exponent p).
  { rewrite HdM. unfold fexp, emin, prec, emax, int_exponent in *. lia. }
  rewrite Hfexp. unfold shl_align.
  destruct (int_exponent p - e) as [|d|d] eqn:Hd.
  - apply binary_round_aux_int; [done| |done|done].
    pose proof (digits2_pos_bounds M) as [Hlo _].
    assert (Z.pos (digits2_pos M) = 53) as Hd53 by (unfold int_exponent in *; lia).
    rewrite Hd53 in Hlo. exact Hlo.
  - apply binary_round_aux_int; [done| |done|done].
    pose proof (digits2_pos_bounds M) as [Hlo _].
    assert (2 ^ 52 <= 2 ^ (Z.pos (digits2_pos M) - 1))
      by (apply Z.pow_le_mono_r; unfold int_exponent in *; lia).
    lia.
  - assert (HM' : Z.pos (Pos.iter xO M d) = Z.pos p * 2 ^ (- int_exponent p)).
    { rewrite Zpos_iter_xO, Heq, <- Z.mul_assoc, <- Z.pow_add_r by lia.
      do 2 f_equal. lia. }
    apply binary_round_aux_int; [done| |lia|done].
    destruct (mantissa_spec p Hp) as [Hm Hd53]. rewrite HM', <- Hm.
    pose proof (digits2_pos_bounds (int_mantissa p)) as [Hlo _]. by rewrite Hd53 in Hlo.
Qed.

Lemma binary_normalize_int (S n e : Z) :
  Z.abs n < 2 ^ 53 ->
  -1074 <= e <= 0 ->
  S = n * 2 ^ (- e) ->
  binary_normalize prec emax S e false = SF_of_Z n.
Proof.
  intros Hn He ->. pose proof (pow2_pos (- e) ltac:(lia)) as Hpos.
  destruct n as [|p|p]; cbn [Z.mul SF_of_Z].
  - reflexivity.
  - destruct (Z.pos p * 2 ^ (- e)) as [|M|M] eqn:HM; [lia| |lia].
    cbn [binary_normalize]. apply binary_round_int; [lia|done|done].
  - destruct (Z.neg p * 2 ^ (- e)) as [|M|M] eqn:HM; [lia|lia|].
    cbn [binary_normalize]. apply binary_round_int; [lia|done|lia].
Qed.

Lemma valid_canon (n : Z) :
  Z.abs n < 2 ^ 53 -> valid_binary (SF_of_Z n) = true.
Proof.
  intros Hn.
  assert (Hpos : forall p : positive, Z.pos p < 2 ^ 53 ->
            bounded prec emax (int_mantissa p) (int_exponent p) = true).
  { intros p Hp. destruct (mantissa_spec p Hp) as [_ Hd].
    pose proof (exponent_bounds p Hp) as HE.
    unfold bounded, canonical_mantissa. rewrite Hd.
    apply andb_true_iff. split; [apply Z.eqb_eq|apply Z.leb_le];
      unfold fexp, emin, prec, emax; lia. }
  destruct n as [|p|p]; [done| |]; apply Hpos; lia.
Qed.

Lemma Prim2SF_of_Z (n : Z) :
  Z.abs n < 2 ^ 53 -> Prim2SF (float_of_Z n) = SF_of_Z n.
Proof.
  intros Hn. unfold float_of_Z.
  rewrite (binary_normalize_int n n 0) by (done || lia || (cbn; lia)).
  apply Prim2SF_SF2Prim, valid_canon, Hn.
Qed.

Lemma of_Z_canon (x : float) (n : Z) :
  Z.abs n < 2 ^ 53 -> Prim2SF x = SF_of_Z n -> x = float_of_Z n.
Proof. intros Hn Hx. apply Prim2SF_inj. by rewrite Prim2SF_of_Z. Qed.

Lemma canon_nonzero (n : Z) :
  n <> 0 ->
  SF_of_Z n = S754_finite (n <? 0) (int_mantissa (Z.to_pos (Z.abs n)))
              (int_exponent (Z.to_pos (Z.abs n))).
Proof. by destruct n. Qed.

Lemma shl_align_fst (mx : positive) (ex ez : Z) :
  ez <= ex -> Z.pos (fst (shl_align mx ex ez)) = Z.pos mx * 2 ^ (ex - ez).
Proof.
  intros Hle. unfold shl_align. destruct (ez - ex) as [|d|d] eqn:Hd; cbn [fst].
  - replace (ex - ez) with 0 by lia. lia.
  - lia.
  - rewrite Zpos_iter_xO. do 2 f_equal. lia.
Qed.

Ltac name_abs a pa Hpa :=
  let H := fresh in
  remember (Z.to_pos (Z.abs a)) as pa eqn:H;
  assert (Hpa : Z.pos pa = Z.abs a) by (rewrite H, Z2Pos.id; lia);
  clear H.

(** The aligned, signed mantissa of a non-zero integer. *)
Lemma aligned_canon (n : Z) (p : positive) (ez : Z) :
  Z.pos p = Z.abs n -> Z.abs n < 2 ^ 53 ->
  ez <= int_exponent p ->
  cond_Zopp (n <? 0) (Z.pos (fst (shl_align (int_mantissa p) (int_exponent p) ez)))
  = n * 2 ^ (- ez).
Proof.
  intros Hp Hlt Hez.
  destruct (mantissa_spec p ltac:(lia)) as [Hm _].
  pose proof (exponent_bounds p ltac:(lia)) as HE.
  rewrite shl_align_fst, Hm, <- Z.mul_assoc, <- Z.pow_add_r by lia.
  replace (- int_exponent p + (int_exponent p - ez)) with (- ez) by lia.
  rewrite Hp. unfold cond_Zopp. destruct (Z.ltb_spec n 0); lia.
Qed.

Lemma SFadd_canon (a b : Z) :
  Z.abs a < 2 ^ 53 -> Z.abs b < 2 ^ 53 -> Z.abs (a + b) < 2 ^ 53 ->
  SFadd prec emax (SF_of_Z a) (SF_of_Z b) = SF_of_Z (a + b).
Proof.
  intros Ha Hb Hab.
  destruct (decide (a = 0)) as [->|Hna].
  { rewrite Z.add_0_l. destruct b; reflexivity. }
  destruct (decide (b = 0)) as [->|Hnb].
  { rewrite Z.add_0_r. destruct a; reflexivity. }
  rewrite (canon_nonzero a), (canon_nonzero b) by done. cbn [SFadd].
  name_abs a pa Hpa. name_abs b pb Hpb.
  pose proof (exponent_bounds pa ltac:(lia)) as HEa.
  pose proof (exponent_bounds pb ltac:(lia)) as HEb.
  apply binary_normalize_int; [done|lia|].
  rewrite !aligned_canon by (done || lia). ring.
Qed.

Lemma SFsub_canon (a b : Z) :
  Z.abs a < 2 ^ 53 -> Z.abs b < 2 ^ 53 -> Z.abs (a - b) < 2 ^ 53 ->
  SFsub prec emax (SF_of_Z a) (SF_of_Z b) = SF_of_Z (a - b).
Proof.
  intros Ha Hb Hab.
  destruct (decide (b = 0)) as [->|Hnb].
  { rewrite Z.sub_0_r. destruct a; reflexivity. }
  destruct (decide (a = 0)) as [->|Hna].
  { rewrite Z.sub_0_l. destruct b; reflexivity. }
  rewrite (canon_nonzero a), (canon_nonzero b) by done. cbn [SFsub].
  name_abs a pa Hpa. name_abs b pb Hpb.
  pose proof (exponent_bounds pa ltac:(lia)) as HEa.
  pose proof (exponent_bounds pb ltac:(lia)) as HEb.
  apply binary_normalize_int; [done|lia|].
  rewrite !aligned_canon by (done || lia). ring.
Qed.

Lemma mantissa_normal (p : positive) :
  Z.pos p < 2 ^ 53 -> 2 ^ 52 <= Z.pos (int_mantissa p) < 2 ^ 53.
Proof.
  intros Hp. destruct (mantissa_spec p Hp) as [_ Hd].
  pose proof (digits2_pos_bounds (int_mantissa p)) as Hb. by rewrite Hd in Hb.
Qed.

Lemma SFmul_canon (a b : Z) :
  Z.abs a < 2 ^ 53 -> Z.abs b < 2 ^ 53 -> Z.abs (a * b) < 2 ^ 53 ->
  a * b <> 0 ->
  SFmul prec emax (SF_of_Z a) (SF_of_Z b) = SF_of_Z (a * b).
Proof.
  intros Ha Hb Hab Hnz.
  assert (Hna : a <> 0) by lia. assert (Hnb : b <> 0) by lia.
  rewrite (canon_nonzero a), (canon_nonzero b), (canon_nonzero (a * b)) by done.
  cbn [SFmul].
  name_abs a pa Hpa. name_abs b pb Hpb.
  pose proof (exponent_bounds pa ltac:(lia)) as HEa.
  pose proof (exponent_bounds pb ltac:(lia)) as HEb.
  pose proof (mantissa_normal pa ltac:(lia)) as HMa.
  pose proof (mantissa_normal pb ltac:(lia)) as HMb.
  destruct (mantissa_spec pa ltac:(lia)) as [Hma _].
  destruct (mantissa_spec pb ltac:(lia)) as [Hmb _].
  replace (xorb (a <? 0) (b <? 0)) with (a * b <? 0)
    by (destruct (Z.ltb_spec a 0), (Z.ltb_spec b 0), (Z.ltb_spec (a * b) 0); (done || nia)).
  apply binary_round_aux_int.
  - rewrite Z2Pos.id; lia.
  - rewrite Pos2Z.inj_mul. change (2 ^ 52) with 4503599627370496 in *. nia.
  - lia.
  - rewrite Pos2Z.inj_mul, Hma, Hmb, Z2Pos.id, Z.abs_mul, Hpa, Hpb by lia.
    replace (- (int_exponent pa + int_exponent pb)) with (- int_exponent pa + - int_exponent pb) by lia.
    rewrite Z.pow_add_r by lia. ring.
Qed.

Lemma SFmul_canon_nonneg (a b : Z) :
  0 <= a < 2 ^ 53 -> 0 <= b < 2 ^ 53 -> a * b < 2 ^ 53 ->
  SFmul prec emax (SF_of_Z a) (SF_of_Z b) = SF_of_Z (a * b).
Proof.
  intros Ha Hb Hab. destruct (decide (a * b = 0)) as [Hz|Hnz].
  - rewrite Hz. destruct a as [|pa|pa], b as [|pb|pb]; try reflexivity; lia.
  - apply SFmul_canon; (done || nia || lia).
Qed.

Lemma SFdiv_canon (a b : Z) :
  0 <= a < 2 ^ 53 -> 0 < b < 2 ^ 53 -> (b | a) ->
  SFdiv prec emax (SF_of_Z a) (SF_of_Z b) = SF_of_Z (a / b).
Proof.
  intros Ha Hb [n ->].
  rewrite Z.div_mul by lia.
  destruct (decide (n = 0)) as [->|Hn].
  { destruct b; try lia. reflexivity. }
  assert (Hnpos : 0 < n) by nia.
  assert (Hnlt : n < 2 ^ 53) by nia.
  rewrite (canon_nonzero (n * b)), (canon_nonzero b), (canon_nonzero n) by lia.
  replace (n * b <? 0) with false by (symmetry; apply Z.ltb_ge; lia).
  replace (b <? 0) with false by (symmetry; apply Z.ltb_ge; lia).
  replace (n <? 0) with false by (symmetry; apply Z.ltb_ge; lia).
  rewrite !Z.abs_eq by lia.
  remember (Z.to_pos (n * b)) as pa eqn:Hpa'. remember (Z.to_pos b) as pb eqn:Hpb'.
  remember (Z.to_pos n) as pn eqn:Hpn'.
  assert (Hpa : Z.pos pa = n * b) by (rewrite Hpa', Z2Pos.id; lia).
  assert (Hpb : Z.pos pb = b) by (rewrite Hpb', Z2Pos.id; lia).
  assert (Hpn : Z.pos pn = n) by (rewrite Hpn', Z2Pos.id; lia).
  clear Hpa' Hpb' Hpn'.
  pose proof (exponent_bounds pa ltac:(lia)) as HEa.
  pose proof (exponent_bounds pb ltac:(lia)) as HEb.
  pose proof (mantissa_normal pa ltac:(lia)) as HMa.
  pose proof (mantissa_normal pb ltac:(lia)) as HMb.
  destruct (mantissa_spec pa ltac:(lia)) as [Hma Hda].
  destruct (mantissa_spec pb ltac:(lia)) as [Hmb Hdb].
  cbn [SFdiv]. unfold SFdiv_core_binary. cbn [Zdigits2]. rewrite Hda, Hdb.
  set (e' := Z.min (fexp prec emax (53 + int_exponent pa - (53 + int_exponent pb)))
               (int_exponent pa - int_exponent pb)).
  assert (He' : e' = int_exponent pa - int_exponent pb - 53).
  { unfold e', fexp, emin, prec, emax. lia. }
  clearbody e'.
  replace (int_exponent pa - int_exponent pb - e') with 53 by (rewrite He'; ring).
  remember (n * 2 ^ (53 - int_exponent pa + int_exponent pb)) as q eqn:Hqdef.
  assert (Hpow : 0 < 2 ^ (53 - int_exponent pa + int_exponent pb)) by (apply pow2_pos; lia).
  assert (Hq : Z.shiftl (Z.pos (int_mantissa pa)) 53 = q * Z.pos (int_mantissa pb)).
  { rewrite Z.shiftl_mul_pow2, Hma, Hmb, Hpa, Hpb by lia. rewrite Hqdef.
    assert (Hsplit : 2 ^ (- int_exponent pa) * 2 ^ 53
                     = 2 ^ (53 - int_exponent pa + int_exponent pb) * 2 ^ (- int_exponent pb)).
    { rewrite <- !Z.pow_add_r by lia. f_equal. lia. }
    rewrite <- !Z.mul_assoc, Hsplit. ring. }
  assert (Heucl : Z.div_eucl (Z.shiftl (Z.pos (int_mantissa pa)) 53) (Z.pos (int_mantissa pb))
                  = (q, 0)).
  { rewrite Hq.
    pose proof (Z.div_mul q (Z.pos (int_mantissa pb)) ltac:(lia)) as Hdiv.
    pose proof (Z.mod_mul q (Z.pos (int_mantissa pb)) ltac:(lia)) as Hmod.
    unfold Z.div, Z.modulo in Hdiv, Hmod.
    destruct (Z.div_eucl (q * Z.pos (int_mantissa pb)) (Z.pos (int_mantissa pb))). by subst. }
  rewrite Heucl.
  assert (Hloc : new_location (Z.pos (int_mantissa pb)) 0 = loc_Exact).
  { unfold new_location. by destruct (Z.even _). }
  rewrite Hloc. cbn [xorb].
  assert (Hqpos : 0 < q) by (rewrite Hqdef; nia).
  destruct q as [|M|M] eqn:HM; [lia| |lia].
  apply binary_round_aux_int.
  - lia.
  - rewrite Z.shiftl_mul_pow2 in Hq by lia.
    change (2 ^ 53) with 9007199254740992 in *.
    change (2 ^ 52) with 4503599627370496 in *. nia.
  - lia.
  - rewrite Hpn, Hqdef, He'. do 2 f_equal. ring.
Qed.

(** ** Binary64 arithmetic on integers below [2^53] is exact *)

Lemma add_of_Z (a b : Z) :
  Z.abs a < 2 ^ 53 -> Z.abs b < 2 ^ 53 -> Z.abs (a + b) < 2 ^ 53 ->
  (float_of_Z a + float_of_Z b)%float = float_of_Z (a + b).
Proof.
  intros Ha Hb Hab. apply of_Z_canon; [done|].
  rewrite FloatAxioms.add_spec, !Prim2SF_of_Z by done. by apply SFadd_canon.
Qed.

Lemma sub_of_Z (a b : Z) :
  Z.abs a < 2 ^ 53 -> Z.abs b < 2 ^ 53 -> Z.abs (a - b) < 2 ^ 53 ->
  (float_of_Z a - float_of_Z b)%float = float_of_Z (a - b).
Proof.
  intros Ha Hb Hab. apply of_Z_canon; [done|].
  rewrite FloatAxioms.sub_spec, !Prim2SF_of_Z by done. by apply SFsub_canon.
Qed.

Lemma mul_of_Z (a b : Z) :
  Z.abs a < 2 ^ 53 -> Z.abs b < 2 ^ 53 -> Z.abs (a * b) < 2 ^ 53 ->
  a * b <> 0 \/ (0 <= a /\ 0 <= b) ->
  (float_of_Z a * float_of_Z b)%float = float_of_Z (a * b).
Proof.
  intros Ha Hb Hab Hsign. apply of_Z_canon; [done|].
  rewrite FloatAxioms.mul_spec, !Prim2SF_of_Z by done.
  destruct (decide (a * b = 0)) as [Hz|Hnz].
  - destruct Hsign as [?|[Ha0 Hb0]]; [done|]. apply SFmul_canon_nonneg; lia.
  - by apply SFmul_canon.
Qed.

Lemma mul_of_Z_pos (a b : Z) :
  0 < a < 2 ^ 53 -> Z.abs b < 2 ^ 53 -> Z.abs (a * b) < 2 ^ 53 ->
  (float_of_Z a * float_of_Z b)%float = float_of_Z (a * b).
Proof.
  intros Ha Hb Hab. apply mul_of_Z; [lia|done|done|].
  destruct (decide (b = 0)) as [->|Hb0]; [right; lia|left; nia].
Qed.

Lemma div_of_Z (a b : Z) :
  0 <= a < 2 ^ 53 -> 0 < b < 2 ^ 53 -> (b | a) ->
  (float_of_Z a / float_of_Z b)%float = float_of_Z (a / b).
Proof.
  intros Ha Hb Hdiv.
  assert (0 <= a / b <= a).
  { split; [apply Z.div_pos; lia|]. apply Z.div_le_upper_bound; nia. }
  apply of_Z_canon; [lia|].
  rewrite FloatAxioms.div_spec, !Prim2SF_of_Z by lia. by apply SFdiv_canon.
Qed.

Lemma rem_of_Z (a b : Z) :
  0 <= a < 2 ^ 53 -> 0 < b < 2 ^ 53 ->
  JsColor.rem_binary64 (float_of_Z a) (float_of_Z b) = float_of_Z (Z.rem a b).
Proof.
  intros Ha Hb. rewrite Z.rem_mod_nonneg by lia.
  pose proof (Z.mod_pos_bound a b ltac:(lia)) as Hmod.
  unfold JsColor.rem_binary64. rewrite !Prim2SF_of_Z by lia.
  destruct (decide (a = 0)) as [->|Hna].
  { rewrite Z.mod_0_l by lia. destruct b; try lia. reflexivity. }
  rewrite (canon_nonzero a), (canon_nonzero b) by lia.
  replace (a <? 0) with false by (symmetry; apply Z.ltb_ge; lia).
  replace (b <? 0) with false by (symmetry; apply Z.ltb_ge; lia).
  name_abs a pa Hpa. name_abs b pb Hpb.
  pose proof (exponent_bounds pa ltac:(lia)) as HEa.
  pose proof (exponent_bounds pb ltac:(lia)) as HEb.
  cbn zeta.
  pose proof (aligned_canon a pa (Z.min (int_exponent pa) (int_exponent pb)) Hpa ltac:(lia) ltac:(lia))
    as Hx.
  pose proof (aligned_canon b pb (Z.min (int_exponent pa) (int_exponent pb)) Hpb ltac:(lia) ltac:(lia))
    as Hy.
  replace (a <? 0) with false in Hx by (symmetry; apply Z.ltb_ge; lia).
  replace (b <? 0) with false in Hy by (symmetry; apply Z.ltb_ge; lia).
  cbn [cond_Zopp] in Hx, Hy. rewrite shl_align_fst in Hx, Hy by lia.
  rewrite Hx, Hy.
  set (e := Z.min (int_exponent pa) (int_exponent pb)) in *.
  assert (He : -52 <= e <= 0) by (unfold e; lia). clearbody e.
  pose proof (pow2_pos (- e) ltac:(lia)) as Hpow.
  rewrite Z.mul_mod_distr_r by lia.
  unfold float_of_Z. f_equal.
  rewrite (binary_normalize_int _ (a mod b) e) by (lia || done).
  symmetry. apply binary_normalize_int; [lia|lia|]. cbn. lia.
Qed.

Lemma canon_inj (a b : Z) :
  Z.abs a < 2 ^ 53 -> Z.abs b < 2 ^ 53 -> SF_of_Z a = SF_of_Z b -> a = b.
Proof.
  intros Ha Hb Heq.
  assert (Hpos : forall p q : positive,
            Z.pos p < 2 ^ 53 -> Z.pos q < 2 ^ 53 ->
            int_mantissa p = int_mantissa q -> int_exponent p = int_exponent q -> p = q).
  { intros p q Hp Hq Hm He.
    destruct (mantissa_spec p Hp) as [Hmp _]. destruct (mantissa_spec q Hq) as [Hmq _].
    pose proof (exponent_bounds p Hp) as HEp.
    pose proof (pow2_pos (- int_exponent p) ltac:(lia)) as Hpow.
    rewrite Hm, Hmq, <- He in Hmp. apply Pos2Z.inj. nia. }
  destruct a as [|p|p], b as [|q|q]; cbn [SF_of_Z] in Heq; try done;
    injection Heq as Hm He; f_equal; apply Hpos; (done || lia).
Qed.

Lemma of_Z_inj (a b : Z) :
  Z.abs a < 2 ^ 53 -> Z.abs b < 2 ^ 53 -> float_of_Z a = float_of_Z b -> a = b.
Proof.
  intros Ha Hb Heq. apply canon_inj; [done|done|].
  by rewrite <- !Prim2SF_of_Z, Heq by done.
Qed.

(** ** The coordinate functions in binary64 *)

(** Below [2^53] the code computes, in binary64, what the integer model
    computes. *)
Lemma coordsFromIndex_map_of_Z (sizesRev : list Z) (i : Z) :
  Forall (fun s => 1 <= s < 2 ^ 53) sizesRev ->
  0 <= i < 2 ^ 53 ->
  Binary64.coordsFromIndex_map (float_of_Z i) (float_of_Z <$> sizesRev)
  = float_of_Z <$> coordsFromIndex_map i sizesRev.
Proof.
  intros Hsizes. revert i.
  induction Hsizes as [|s ss Hs _ IH]; intros i Hi; [done|].
  cbn [fmap list_fmap Binary64.coordsFromIndex_map coordsFromIndex_map].
  pose proof (Z.mod_pos_bound i s ltac:(lia)) as Hmod.
  pose proof (Z.mod_le i s ltac:(lia) ltac:(lia)) as Hle.
  assert (Hrem : Z.rem i s = i mod s) by (apply Z.rem_mod_nonneg; lia).
  assert (Hdiv : (s | i - i mod s)).
  { exists (i / s). pose proof (Z.div_mod i s ltac:(lia)). lia. }
  assert (Hquot : 0 <= (i - i mod s) / s <= i).
  { split; [apply Z.div_pos; lia|]. apply Z.div_le_upper_bound; nia. }
  rewrite rem_of_Z by lia. rewrite Hrem.
  rewrite sub_of_Z, div_of_Z by (lia || done).
  rewrite Z.quot_div_nonneg by lia.
  f_equal. apply IH. lia.
Qed.

Lemma value_abs_nonneg (coordsRev sizesRev : list Z) :
  Forall (fun s => 1 <= s) sizesRev ->
  0 <= value (Z.abs <$> coordsRev) sizesRev.
Proof.
  intros Hs. revert coordsRev.
  induction Hs as [|s ss Hs1 _ IH]; intros [|c cs]; cbn; try lia.
  specialize (IH cs). nia.
Qed.

Lemma value_abs_le (coordsRev sizesRev : list Z) :
  Forall (fun s => 1 <= s) sizesRev ->
  Z.abs (value coordsRev sizesRev) <= value (Z.abs <$> coordsRev) sizesRev.
Proof.
  intros Hs. revert coordsRev.
  induction Hs as [|s ss Hs1 Hss IH]; intros [|c cs]; cbn; try lia.
  specialize (IH cs). pose proof (value_abs_nonneg cs ss Hss). nia.
Qed.

Lemma coordsToIndex_forEach_of_Z (sizesPast coordsRev sizesRev : list Z)
    (factor res : Z) :
  length coordsRev = length sizesRev ->
  Forall (fun s => 1 <= s) sizesRev ->
  0 < factor ->
  Z.abs res + factor * value (Z.abs <$> coordsRev) sizesRev < 2 ^ 53 ->
  factor * product sizesRev < 2 ^ 53 ->
  Binary64.coordsToIndex_forEach (float_of_Z <$> (sizesPast ++ sizesRev)) (length sizesPast)
    (float_of_Z <$> coordsRev) (float_of_Z factor) (float_of_Z res)
  = float_of_Z (res + factor * value coordsRev sizesRev).
Proof.
  intros Hlen Hsizes. revert sizesPast coordsRev factor res Hlen.
  induction Hsizes as [|s ss Hs Hss IH]; intros sizesPast coordsRev factor res Hlen Hf Hres Hprod.
  - destruct coordsRev; [|done]. cbn. f_equal. lia.
  - destruct coordsRev as [|c cs]; [done|]. injection Hlen as Hlen.
    cbn [fmap list_fmap Binary64.coordsToIndex_forEach].
    cbn [value fmap list_fmap] in Hres. change (product (s :: ss)) with (s * product ss) in Hprod.
    pose proof (value_abs_nonneg cs ss Hss) as HV.
    pose proof (value_abs_le cs ss Hss) as HVle.
    pose proof (product_pos ss Hss) as HP.
    assert (Hlookup : (float_of_Z <$> (sizesPast ++ s :: ss)) !!! length sizesPast = float_of_Z s).
    { apply list_lookup_total_correct.
      by rewrite list_lookup_fmap, list_lookup_middle. }
    rewrite Hlookup.
    assert (Hfc : Z.abs (factor * c) <= factor * Z.abs c) by (rewrite Z.abs_mul; nia).
    rewrite (mul_of_Z_pos factor c) by nia.
    rewrite (add_of_Z res (factor * c)) by nia.
    rewrite (mul_of_Z_pos factor s) by nia.
    replace (sizesPast ++ s :: ss) with ((sizesPast ++ [s]) ++ ss)
      by (by rewrite <- app_assoc).
    replace (S (length sizesPast)) with (length (sizesPast ++ [s]))
      by (rewrite length_app; cbn; lia).
    rewrite IH by (done || nia). f_equal. cbn [value]. ring.
Qed.

Lemma sizes_below_product (sizes : list Z) (bound : Z) :
  Forall (fun s => 1 <= s) sizes ->
  product sizes < bound ->
  Forall (fun s => 1 <= s < bound) sizes.
Proof.
  intros Hs. induction Hs as [|s ss Hs1 Hss IH]; intros Hp; [constructor|].
  change (product (s :: ss)) with (s * product ss) in Hp.
  pose proof (product_pos ss Hss) as HP.
  constructor; [nia|]. apply IH. nia.
Qed.

Lemma coordsFromIndex_of_Z (sizes : list Z) (index : Z) :
  Forall (fun s => 1 <= s < 2 ^ 53) sizes ->
  0 <= index < 2 ^ 53 ->
  Binary64.coordsFromIndex (float_of_Z index) (float_of_Z <$> sizes)
  = float_of_Z <$> coordsFromIndex index sizes.
Proof.
  intros Hsizes Hindex. unfold Binary64.coordsFromIndex, coordsFromIndex.
  rewrite <- fmap_reverse, coordsFromIndex_map_of_Z, fmap_reverse; [done| |done].
  by apply Forall_reverse.
Qed.

Lemma coordsToIndex_of_Z (coords sizes : list Z) :
  length coords = length sizes ->
  Forall (fun s => 1 <= s) sizes ->
  product sizes < 2 ^ 53 ->
  value (Z.abs <$> reverse coords) (reverse sizes) < 2 ^ 53 ->
  Binary64.coordsToIndex (float_of_Z <$> coords) (float_of_Z <$> sizes)
  = Ok (float_of_Z (value (reverse coords) (reverse sizes))).
Proof.
  intros Hlen Hsizes Hprod Hval. unfold Binary64.coordsToIndex.
  rewrite !length_fmap, Hlen, Nat.eqb_refl. cbn [negb]. f_equal.
  rewrite <- !fmap_reverse.
  change 1%float with (float_of_Z 1). change 0%float with (float_of_Z 0).
  etrans; [apply (coordsToIndex_forEach_of_Z [] (reverse coords) (reverse sizes) 1 0)|].
  6: f_equal; lia.
  - by rewrite !length_reverse.
  - by apply Forall_reverse.
  - lia.
  - cbn [Z.abs]. lia.
  - rewrite product_reverse. lia.
Qed.

Lemma Forall2_bounds_sizes (coords sizes : list Z) :
  Forall2 (fun c s => 0 <= c < s) coords sizes -> Forall (fun s => 1 <= s) sizes.
Proof. induction 1; constructor; (done || lia). Qed.

Lemma Forall2_bounds_abs (coords sizes : list Z) :
  Forall2 (fun c s => 0 <= c < s) coords sizes -> Z.abs <$> coords = coords.
Proof. induction 1 as [|c s cs ss Hc _ IH]; cbn; [done|]. rewrite IH. f_equal. lia. Qed.

Lemma coordsToIndex_of_Z_valid (coords sizes : list Z) :
  Forall2 (fun c s => 0 <= c < s) coords sizes ->
  product sizes < 2 ^ 53 ->
  Binary64.coordsToIndex (float_of_Z <$> coords) (float_of_Z <$> sizes)
  = Ok (float_of_Z (value (reverse coords) (reverse sizes)))
  /\ 0 <= value (reverse coords) (reverse sizes) < product sizes.
Proof.
  intros Hvalid Hprod.
  pose proof (Forall2_reverse_bounds _ _ Hvalid) as Hrev.
  pose proof (value_bounds _ _ Hrev) as Hval. rewrite product_reverse in Hval.
  split; [|done]. apply coordsToIndex_of_Z.
  - by eapply Forall2_length.
  - by eapply Forall2_bounds_sizes.
  - done.
  - rewrite (Forall2_bounds_abs _ _ Hrev). lia.
Qed.

(** C1: decoding an index and encoding the coordinates again gives the
    index back, in binary64 as the code computes it, when every size is at
    least 1, [0 <= index < product(sizes)], and [product(sizes)] is below
    [2^53]: [coordsToIndex(coordsFromIndex(index, sizes), sizes)] is
    [index]. *)
Theorem coordsToIndex_coordsFromIndex (sizes : list Z) (index : Z) :
  Forall (fun s => 1 <= s) sizes ->
  product sizes < 2 ^ 53 ->
  0 <= index < product sizes ->
  Binary64.coordsToIndex
    (Binary64.coordsFromIndex (float_of_Z index) (float_of_Z <$> sizes)) (float_of_Z <$> sizes)
  = Ok (float_of_Z index).
Proof.
  intros Hsizes Hprod Hindex.
  rewrite coordsFromIndex_of_Z by (by apply sizes_below_product || lia).
  assert (Hvalid : Forall2 (fun c s => 0 <= c < s) (coordsFromIndex index sizes) sizes).
  { unfold coordsFromIndex. rewrite <- (reverse_involutive sizes) at 2.
    apply Forall2_reverse_bounds, coordsFromIndex_map_bounds; [|lia].
    by apply Forall_reverse. }
  destruct (coordsToIndex_of_Z_valid _ _ Hvalid Hprod) as [-> _]. do 2 f_equal.
  unfold coordsFromIndex. rewrite reverse_involutive.
  apply value_coordsFromIndex_map; [by apply Forall_reverse|by rewrite product_reverse].
Qed.

Lemma coordsToIndex_coordsFromIndex_witness :
  Binary64.coordsToIndex
    (Binary64.coordsFromIndex (float_of_Z 5) (float_of_Z <$> [2; 3])) (float_of_Z <$> [2; 3])
  = Ok (float_of_Z 5).
Proof.
  apply (coordsToIndex_coordsFromIndex [2; 3] 5).
  - repeat constructor; lia.
  - reflexivity.
  - vm_compute. split; [discriminate | reflexivity].
Defined.

(** Past [2^53] the round trip fails: with sizes [3002399751580332] and
    [3], whose product is [2^53 + 4], the index [2^53 + 2] is decoded to
    [3002399751580330.5] and [1], and these are encoded as [2^53]. *)
Lemma coordsToIndex_coordsFromIndex_rounds :
  Forall (fun s => 1 <= s) [3002399751580332; 3] /\
  0 <= 9007199254740994 < product [3002399751580332; 3] /\
  Binary64.coordsFromIndex (float_of_Z 9007199254740994) (float_of_Z <$> [3002399751580332; 3])
    = [3002399751580330.5%float; 1%float] /\
  Binary64.coordsToIndex
    (Binary64.coordsFromIndex (float_of_Z 9007199254740994) (float_of_Z <$> [3002399751580332; 3]))
    (float_of_Z <$> [3002399751580332; 3])
    = Ok (float_of_Z 9007199254740992) /\
  float_of_Z 9007199254740992 <> float_of_Z 9007199254740994.
Proof.
  split; [repeat constructor; lia|].
  split; [vm_compute; split; [discriminate|reflexivity]|].
  split; [vm_compute; reflexivity|].
  split; [vm_compute; reflexivity|].
  vm_compute. intros [=].
Qed.

(** C2: encoding coordinates that pass [checkCoordsSizesCompability] and
    decoding the index again gives the coordinates back, in binary64 as the
    code computes it, when [product(sizes)] is below [2^53]. *)
Theorem coordsFromIndex_coordsToIndex (coords sizes : list Z) :
  checkCoordsSizesCompability coords sizes = Ok tt ->
  product sizes < 2 ^ 53 ->
  exists index : float,
    Binary64.coordsToIndex (float_of_Z <$> coords) (float_of_Z <$> sizes) = Ok index /\
    Binary64.coordsFromIndex index (float_of_Z <$> sizes) = float_of_Z <$> coords.
Proof.
  intros Hcheck%checkCoordsSizesCompability_Ok Hprod.
  destruct (coordsToIndex_of_Z_valid _ _ Hcheck Hprod) as [Henc Hval].
  eexists. split; [exact Henc|].
  rewrite coordsFromIndex_of_Z.
  - f_equal. unfold coordsFromIndex.
    destruct (coordsFromIndex_map_value (reverse coords) (reverse sizes)) as [-> _].
    + by apply Forall2_reverse_bounds.
    + apply reverse_involutive.
  - apply sizes_below_product; [by eapply Forall2_bounds_sizes|done].
  - lia.
Qed.

Lemma coordsFromIndex_coordsToIndex_witness :
  exists index : float,
    Binary64.coordsToIndex (float_of_Z <$> [1; 2]) (float_of_Z <$> [2; 3]) = Ok index /\
    Binary64.coordsFromIndex index (float_of_Z <$> [2; 3]) = float_of_Z <$> [1; 2].
Proof.
  apply (coordsFromIndex_coordsToIndex [1; 2] [2; 3]); reflexivity.
Defined.

(** Past [2^53] the inverse fails: the coordinates [134217728] and [1]
    pass the check against the sizes [134217729] and [134217729], their
    index [2^54 + 2^28 + 1] is rounded to [2^54 + 2^28], and that is decoded
    to [134217728] and [0]. *)
Lemma coordsFromIndex_coordsToIndex_rounds :
  checkCoordsSizesCompability [134217728; 1] [134217729; 134217729] = Ok tt /\
  Binary64.coordsToIndex (float_of_Z <$> [134217728; 1]) (float_of_Z <$> [134217729; 134217729])
    = Ok (float_of_Z 18014398643699712) /\
  Binary64.coordsFromIndex (float_of_Z 18014398643699712) (float_of_Z <$> [134217729; 134217729])
    = float_of_Z <$> [134217728; 0] /\
  float_of_Z <$> [134217728; 0] <> float_of_Z <$> [134217728; 1].
Proof.
  split; [reflexivity|]. split; [vm_compute; reflexivity|].
  split; [vm_compute; reflexivity|]. vm_compute. intros [=].
Qed.

(** C10: [coordsToIndex] fails exactly on a length mismatch; no
    coordinate is compared with its size.  On tuples of equal length it
    returns a number, whatever the coordinates.  For integer tuples with
    sizes of at least 1 the number is the mixed-radix sum of the
    coordinates, negative ones and ones past their size included, as long
    as [product(sizes)] and the sum taken with the absolute values of the
    coordinates are below [2^53]. *)
Theorem coordsToIndex_fails_only_on_length (coords sizes : list float) :
  (length coords <> length sizes ->
     Binary64.coordsToIndex coords sizes = Throw LengthMismatch)
  /\ (length coords = length sizes ->
     exists res : float, Binary64.coordsToIndex coords sizes = Ok res)
  /\ (forall e : Error,
     Binary64.coordsToIndex coords sizes = Throw e ->
     e = LengthMismatch /\ length coords <> length sizes)
  /\ (forall zcoords zsizes : list Z,
     coords = float_of_Z <$> zcoords -> sizes = float_of_Z <$> zsizes ->
     length zcoords = length zsizes ->
     Forall (fun s => 1 <= s) zsizes ->
     product zsizes < 2 ^ 53 ->
     value (Z.abs <$> reverse zcoords) (reverse zsizes) < 2 ^ 53 ->
     Binary64.coordsToIndex coords sizes
     = Ok (float_of_Z (value (reverse zcoords) (reverse zsizes)))).
Proof.
  unfold Binary64.coordsToIndex at 1 2 3.
  destruct (Nat.eqb_spec (length coords) (length sizes)) as [Hlen|Hlen]; cbn [negb].
  - split; [done|]. split; [eauto|]. split; [done|].
    intros zcoords zsizes -> -> Hzlen. by apply coordsToIndex_of_Z.
  - split; [done|]. split; [done|]. split; [by intros e [= <-]|].
    intros zcoords zsizes -> -> Hzlen. rewrite !length_fmap in Hlen. done.
Qed.

(** Coordinates out of bounds are encoded all the same. *)
Example coordsToIndex_out_of_bounds_binary64 :
  Binary64.coordsToIndex (float_of_Z <$> [-1; 7]) (float_of_Z <$> [2; 3]) = Ok (float_of_Z 4).
Proof. vm_compute. reflexivity. Qed.

(** The number returned need not be an integer: with 21 dimensions of size
    [2^52], [factor] overflows to [Infinity], and [Infinity * 0] is [NaN]. *)
Lemma coordsToIndex_NaN :
  length (replicate 20 0 ++ [5]) = length (replicate 21 4503599627370496) /\
  Binary64.coordsToIndex (float_of_Z <$> replicate 20 0 ++ [5])
    (float_of_Z <$> replicate 21 4503599627370496)
  = Ok nan.
Proof. split; vm_compute; reflexivity. Qed.

Lemma product_app (xs ys : list Z) : product (xs ++ ys) = product xs * product ys.
Proof.
  unfold product. induction xs as [|x xs IH]; cbn [app foldr]; [lia|].
  rewrite IH. ring.
Qed.

(** X6: on coordinates that pass [checkCoordsSizesCompability], with
    [product(sizes)] below [2^53], [coordsToIndex] returns, in binary64, an
    integer in [0 .. product(sizes) - 1], and two such tuples with the same
    index are the same tuple. *)
Theorem coordsToIndex_range_injective (coords coords' sizes : list Z) :
  checkCoordsSizesCompability coords sizes = Ok tt ->
  checkCoordsSizesCompability coords' sizes = Ok tt ->
  product sizes < 2 ^ 53 ->
  (exists index : Z,
     Binary64.coordsToIndex (float_of_Z <$> coords) (float_of_Z <$> sizes) = Ok (float_of_Z index) /\
     0 <= index < product sizes)
  /\ (Binary64.coordsToIndex (float_of_Z <$> coords) (float_of_Z <$> sizes)
      = Binary64.coordsToIndex (float_of_Z <$> coords') (float_of_Z <$> sizes) ->
      coords = coords').
Proof.
  intros Hc%checkCoordsSizesCompability_Ok Hc'%checkCoordsSizesCompability_Ok Hprod.
  destruct (coordsToIndex_of_Z_valid _ _ Hc Hprod) as [Henc Hval].
  destruct (coordsToIndex_of_Z_valid _ _ Hc' Hprod) as [Henc' Hval'].
  split; [eauto|].
  rewrite Henc, Henc'. intros [= Heq]. apply of_Z_inj in Heq; [|lia|lia].
  pose proof (Forall2_reverse_bounds _ _ Hc) as Hr.
  pose proof (Forall2_reverse_bounds _ _ Hc') as Hr'.
  destruct (coordsFromIndex_map_value _ _ Hr) as [H1 _].
  destruct (coordsFromIndex_map_value _ _ Hr') as [H2 _].
  rewrite Heq, H2 in H1.
  rewrite <- (reverse_involutive coords), <- (reverse_involutive coords'). by f_equal.
Qed.

Lemma coordsToIndex_range_injective_witness :
  (exists index : Z,
     Binary64.coordsToIndex (float_of_Z <$> [1; 2]) (float_of_Z <$> [2; 3]) = Ok (float_of_Z index) /\
     0 <= index < product [2; 3])
  /\ (Binary64.coordsToIndex (float_of_Z <$> [1; 2]) (float_of_Z <$> [2; 3])
      = Binary64.coordsToIndex (float_of_Z <$> [0; 1]) (float_of_Z <$> [2; 3]) ->
      [1; 2] = [0; 1]).
Proof.
  apply (coordsToIndex_range_injective [1; 2] [0; 1] [2; 3]); reflexivity.
Defined.

(** X7: the first dimension is the most significant one, in binary64 as
    long as the product of the sizes is below [2^53].  Putting a dimension
    in front of coordinates that pass the check adds [c * product(sizes)] to
    the index; putting one at the end multiplies the index by the new size
    and adds [c]. *)
Theorem coordsToIndex_big_endian (coords sizes : list Z) (c s : Z) :
  checkCoordsSizesCompability coords sizes = Ok tt ->
  0 <= c < s ->
  s * product sizes < 2 ^ 53 ->
  exists index : Z,
    Binary64.coordsToIndex (float_of_Z <$> coords) (float_of_Z <$> sizes) = Ok (float_of_Z index) /\
    Binary64.coordsToIndex (float_of_Z <$> c :: coords) (float_of_Z <$> s :: sizes)
      = Ok (float_of_Z (c * product sizes + index)) /\
    Binary64.coordsToIndex (float_of_Z <$> coords ++ [c]) (float_of_Z <$> sizes ++ [s])
      = Ok (float_of_Z (index * s + c)).
Proof.
  intros Hvalid%checkCoordsSizesCompability_Ok Hc Hprod.
  pose proof (product_pos sizes (Forall2_bounds_sizes _ _ Hvalid)) as HP.
  assert (Hlen : length coords = length sizes) by (by eapply Forall2_length).
  exists (value (reverse coords) (reverse sizes)). split; [|split].
  - apply coordsToIndex_of_Z_valid; [done|nia].
  - destruct (coordsToIndex_of_Z_valid (c :: coords) (s :: sizes)) as [-> _].
    + by constructor.
    + done.
    + do 2 f_equal. rewrite !reverse_cons, value_app by (by rewrite !length_reverse).
      rewrite product_reverse. cbn. lia.
  - destruct (coordsToIndex_of_Z_valid (coords ++ [c]) (sizes ++ [s])) as [-> _].
    + apply Forall2_app; [done|]. by constructor.
    + rewrite product_app. change (product [s]) with (s * 1). lia.
    + do 2 f_equal. rewrite !reverse_app. cbn. lia.
Qed.

Lemma coordsToIndex_big_endian_witness :
  exists index : Z,
    Binary64.coordsToIndex (float_of_Z <$> [1; 2]) (float_of_Z <$> [2; 3]) = Ok (float_of_Z index) /\
    Binary64.coordsToIndex (float_of_Z <$> 4 :: [1; 2]) (float_of_Z <$> 5 :: [2; 3])
      = Ok (float_of_Z (4 * product [2; 3] + index)) /\
    Binary64.coordsToIndex (float_of_Z <$> [1; 2] ++ [4]) (float_of_Z <$> [2; 3] ++ [5])
      = Ok (float_of_Z (index * 5 + 4)).
Proof.
  apply (coordsToIndex_big_endian [1; 2] [2; 3] 4 5); [reflexivity|lia|].
  vm_compute. reflexivity.
Defined.

(** X8: an index at or past [product(sizes)] is not refused by
    [coordsFromIndex]; it wraps around.  In binary64, for sizes from 1 to
    below [2^53] and an integer index from 0 to below [2^53], the
    coordinates are those of [index mod product(sizes)]. *)
Theorem coordsFromIndex_wraps (sizes : list Z) (index : Z) :
  Forall (fun s => 1 <= s < 2 ^ 53) sizes ->
  0 <= index < 2 ^ 53 ->
  Binary64.coordsFromIndex (float_of_Z index) (float_of_Z <$> sizes)
  = Binary64.coordsFromIndex (float_of_Z (index mod product sizes)) (float_of_Z <$> sizes).
Proof.
  intros Hsizes Hindex.
  assert (Hone : Forall (fun s => 1 <= s) sizes)
    by (eapply Forall_impl; [exact Hsizes|]; cbn; lia).
  pose proof (product_pos sizes Hone) as HP.
  pose proof (Z.mod_pos_bound index (product sizes) ltac:(lia)) as Hmod.
  pose proof (Z.mod_le index (product sizes) ltac:(lia) ltac:(lia)) as Hle.
  rewrite !coordsFromIndex_of_Z by (done || lia). f_equal.
  apply coordsFromIndex_mod_Z; [done|lia].
Qed.

Lemma coordsFromIndex_wraps_witness :
  Binary64.coordsFromIndex (float_of_Z 7) (float_of_Z <$> [2; 3])
  = Binary64.coordsFromIndex (float_of_Z (7 mod product [2; 3])) (float_of_Z <$> [2; 3]).
Proof.
  apply (coordsFromIndex_wraps [2; 3] 7).
  - repeat constructor; lia.
  - lia.
Defined.

(** Where the index is past [2^53] the coordinates need not be integers:
    those of [2^53 + 2] for the sizes [2^30] and [3] are [715827882.5] and
    [1]. *)
Example coordsFromIndex_fraction :
  Binary64.coordsFromIndex (float_of_Z 9007199254740994) (float_of_Z <$> [1073741824; 3])
  = [715827882.5%float; 1%float].
Proof. vm_compute. reflexivity. Qed.

(** ** The two multiplications on integers *)










(** A product of Gaussian integers in binary64, with a zero of each sign. *)
Example mulGauss_integers :
  Complex.mulGauss (Complex.Cx (float_of_Z 3) (float_of_Z (-4))) (Complex.Cx (float_of_Z (-2)) (float_of_Z 5))
    = Complex.Cx (float_of_Z 14) (float_of_Z 23) /\
  Complex.mul (Complex.Cx (float_of_Z 0) (float_of_Z 0)) (Complex.Cx (float_of_Z (-1)) (float_of_Z (-1)))
    = Complex.Cx 0%float (-0)%float /\
  Complex.mulGauss (Complex.Cx (float_of_Z 0) (float_of_Z 0)) (Complex.Cx (float_of_Z (-1)) (float_of_Z (-1)))
    = Complex.Cx 0%float 0%float.
Proof. repeat split; vm_compute; reflexivity. Qed.
